(** * AI-GitHub-Repo-Analyzer: the streaming re-implementation parser,
      the session state machine and the retrying fetch helper.

    Shallow embedding of [src/app.component.ts] (class [AppComponent]) and of
    the GitHub service ([parseGithubUrl], [performFetch], [getDefaultBranch],
    [getRepoFiles]).

    JavaScript strings are sequences of UTF-16 code units; they are modelled
    as lists of code units ([N]).  Thrown values are explicit ([outcome]),
    signals are fields of a record that is passed along, and every write to
    a signal is logged, so that a run yields the sequence of component
    states it went through. *)

From Equations Require Import Equations.
From Stdlib Require Import String Ascii DecimalString.
From Stdlib Require Import Arith ZArith NArith Lia Bool List.
Import ListNotations.

Set Implicit Arguments.
Set Warnings "-register-all".

(* ===================================================================== *)
(** ** JavaScript strings *)
(* ===================================================================== *)

Module JsString.

Definition char := N.
Definition jsstring := list char.

(** A string literal of the source, as code units. *)
Definition str (s : string) : jsstring :=
  map N_of_ascii (list_ascii_of_string s).
Arguments str s%_string.

(** A literal in which each apostrophe stands for a quotation mark. *)
Definition quoted (s : string) : jsstring :=
  map (fun c => if N.eqb c 39 then 34%N else c) (str s).
Arguments quoted s%_string.

Definition LF : jsstring := [10%N].

Definition LBRACE : char := 123%N.    (* '{' *)
Definition RBRACE : char := 125%N.    (* '}' *)
Definition BACKTICK : char := 96%N.   (* '`' *)

Definition eqb (a b : jsstring) : bool :=
  if list_eq_dec N.eq_dec a b then true else false.

(** [s.indexOf(c)] for a one-character needle; [None] is JavaScript's -1. *)
Fixpoint indexOf (c : char) (s : jsstring) : option nat :=
  match s with
  | [] => None
  | x :: s' =>
      if N.eqb x c then Some 0
      else match indexOf c s' with
           | Some i => Some (S i)
           | None => None
           end
  end.

(** [s.includes(c)] for a one-character needle. *)
Definition includes (c : char) (s : jsstring) : bool :=
  existsb (N.eqb c) s.

(** [s.substring(n)] and [s.substring(0, n)], for [0 <= n]. *)
Definition substringFrom (n : nat) (s : jsstring) : jsstring := skipn n s.
Definition substringTo (n : nat) (s : jsstring) : jsstring := firstn n s.

(** ECMAScript WhiteSpace and LineTerminator code points, the characters
    [String.prototype.trim] removes. *)
Definition isWhiteSpace (c : char) : bool :=
  (N.eqb c 9 || N.eqb c 10 || N.eqb c 11 || N.eqb c 12 || N.eqb c 13
   || N.eqb c 32 || N.eqb c 160 || N.eqb c 5760
   || (N.leb 8192 c && N.leb c 8202)
   || N.eqb c 8232 || N.eqb c 8233 || N.eqb c 8239 || N.eqb c 8287
   || N.eqb c 12288 || N.eqb c 65279)%N%bool.

Fixpoint trimStart (s : jsstring) : jsstring :=
  match s with
  | [] => []
  | c :: s' => if isWhiteSpace c then trimStart s' else s
  end.

Definition trimEnd (s : jsstring) : jsstring := rev (trimStart (rev s)).

Definition trim (s : jsstring) : jsstring := trimEnd (trimStart s).

(** [s.replace(/`{3}(json)?/g, '')]: every match, found from left to right
    in the original string, is removed; the optional group is greedy. *)
Fixpoint stripFences (s : jsstring) : jsstring :=
  match s with
  | a :: ((b :: c :: rest) as s') =>
      if (N.eqb a BACKTICK && N.eqb b BACKTICK && N.eqb c BACKTICK)%bool
      then match rest with
           | j :: s0 :: o :: n :: rest' =>
               if (N.eqb j 106 && N.eqb s0 115 && N.eqb o 111
                   && N.eqb n 110)%N%bool
               then stripFences rest'
               else stripFences rest
           | _ => stripFences rest
           end
      else a :: stripFences s'
  | a :: s' => a :: stripFences s'
  | [] => []
  end.

Definition isEmpty (s : jsstring) : bool :=
  match s with [] => true | _ => false end.

End JsString.
Import JsString.

(* ===================================================================== *)
(** ** Values produced by [JSON.parse] *)
(* ===================================================================== *)

Module Json.

(** A JSON number is kept as the decimal its literal denotes,
    [(-1)^neg * coef * 10^exp10]; an object keeps its members in textual
    order, duplicates included. *)
Inductive JsValue : Type :=
| JNull
| JBool (b : bool)
| JNumber (neg : bool) (coef : N) (exp10 : Z)
| JString (s : jsstring)
| JArray (items : list JsValue)
| JObject (members : list (jsstring * JsValue)).

(** The value of an own property of a parsed object: when a key occurs
    twice, the later member wins. *)
Fixpoint lookup (k : jsstring) (members : list (jsstring * JsValue))
  : option JsValue :=
  match members with
  | [] => None
  | (k', v) :: rest =>
      match lookup k rest with
      | Some w => Some w
      | None => if JsString.eqb k' k then Some v else None
      end
  end.

(** A decimal is the Number zero when its coefficient is zero or when it
    rounds to zero as a double (at most half the least subnormal,
    2^-1075, ties going to the even neighbour 0). *)
Definition numberIsZero (coef : N) (exp10 : Z) : bool :=
  ((coef =? 0)%N
   || ((exp10 <? 0)%Z
       && (Z.of_N coef * 2 ^ 1075 <=? 10 ^ (- exp10))%Z))%bool.

(** ToBoolean. *)
Definition toBoolean (v : JsValue) : bool :=
  match v with
  | JNull => false
  | JBool b => b
  | JNumber _ coef exp10 => negb (numberIsZero coef exp10)
  | JString s => negb (isEmpty s)
  | JArray _ | JObject _ => true
  end.

(** [v.k] for a key [k] that no prototype defines (as [path] and
    [content]): [None] when the access throws a TypeError (the base is
    null), [Some None] for undefined. *)
Definition getProperty (v : JsValue) (k : jsstring)
  : option (option JsValue) :=
  match v with
  | JNull => None
  | JObject members => Some (lookup k members)
  | _ => Some None
  end.

(** ToBoolean of a property value that may be undefined. *)
Definition truthy (p : option JsValue) : bool :=
  match p with
  | Some v => toBoolean v
  | None => false
  end.

(** The object [{"path": p, "content": c}]. *)
Definition pathContent (p c : jsstring) : JsValue :=
  JObject [(str "path", JString p); (str "content", JString c)].

End Json.
Import Json.

(* ===================================================================== *)
(** ** [JSON.parse] *)
(* ===================================================================== *)

(** The built-in [JSON.parse] (no reviver), after the JSON grammar of
    ECMA-404.  The parser loop below takes [JSON.parse] as a parameter;
    this model of it serves the concrete runs. *)
Module JSON.

Definition isJsonWhiteSpace (c : char) : bool :=
  (N.eqb c 32 || N.eqb c 9 || N.eqb c 10 || N.eqb c 13)%N%bool.

Fixpoint skipWs (s : jsstring) : jsstring :=
  match s with
  | c :: s' => if isJsonWhiteSpace c then skipWs s' else s
  | [] => []
  end.

Definition isDigit (c : char) : bool := (N.leb 48 c && N.leb c 57)%N%bool.

Definition hexValue (c : char) : option N :=
  if isDigit c then Some (c - 48)%N
  else if (N.leb 97 c && N.leb c 102)%N%bool then Some (c - 87)%N
  else if (N.leb 65 c && N.leb c 70)%N%bool then Some (c - 55)%N
  else None.

(** The character an escape letter stands for (u apart). *)
Definition simpleEscape (e : char) : option char :=
  if N.eqb e 34 then Some 34%N            (* quotation mark *)
  else if N.eqb e 92 then Some 92%N       (* reverse solidus *)
  else if N.eqb e 47 then Some 47%N       (* solidus *)
  else if N.eqb e 98 then Some 8%N        (* b: backspace *)
  else if N.eqb e 102 then Some 12%N      (* f: form feed *)
  else if N.eqb e 110 then Some 10%N      (* n: line feed *)
  else if N.eqb e 114 then Some 13%N      (* r: carriage return *)
  else if N.eqb e 116 then Some 9%N       (* t: tab *)
  else None.

(** The characters of a string literal after its opening quote, up to the
    closing quote; [acc] holds the decoded characters, last first. *)
Fixpoint parseStringBody (s : jsstring) (acc : jsstring)
  : option (jsstring * jsstring) :=
  match s with
  | [] => None
  | c :: r =>
      if N.eqb c 34 then Some (rev acc, r)
      else if N.eqb c 92 then
        match r with
        | [] => None
        | e :: r1 =>
            if N.eqb e 117 then
              match r1 with
              | h1 :: h2 :: h3 :: h4 :: r2 =>
                  match hexValue h1, hexValue h2, hexValue h3, hexValue h4 with
                  | Some a, Some b, Some c0, Some d =>
                      parseStringBody r2
                        ((((a * 16 + b) * 16 + c0) * 16 + d)%N :: acc)
                  | _, _, _, _ => None
                  end
              | _ => None
              end
            else match simpleEscape e with
                 | Some x => parseStringBody r1 (x :: acc)
                 | None => None
                 end
        end
      else if N.ltb c 32 then None
      else parseStringBody r (c :: acc)
  end.

(** A run of decimal digits: their value continuing [acc], how many there
    were, and the rest. *)
Fixpoint takeDigits (s : jsstring) (acc : N) (count : nat)
  : N * nat * jsstring :=
  match s with
  | c :: r =>
      if isDigit c then takeDigits r (acc * 10 + (c - 48))%N (S count)
      else (acc, count, s)
  | [] => (acc, count, [])
  end.

Definition parseExponent (s : jsstring) : option (Z * jsstring) :=
  match s with
  | c :: r =>
      if (N.eqb c 101 || N.eqb c 69)%bool then
        let '(neg, r1) :=
          match r with
          | sg :: r' =>
              if N.eqb sg 45 then (true, r')
              else if N.eqb sg 43 then (false, r')
              else (false, r)
          | [] => (false, r)
          end in
        let '(e, count, r2) := takeDigits r1 0 0 in
        match count with
        | 0 => None
        | _ => Some (if neg then (- Z.of_N e)%Z else Z.of_N e, r2)
        end
      else Some (0%Z, s)
  | [] => Some (0%Z, [])
  end.

Definition parseNumber (s : jsstring) : option (JsValue * jsstring) :=
  let '(neg, s1) :=
    match s with
    | c :: r => if N.eqb c 45 then (true, r) else (false, s)
    | [] => (false, s)
    end in
  match s1 with
  | d :: r =>
      if isDigit d then
        let '(int, r1) :=
          if N.eqb d 48 then (0%N, r)
          else let '(v, _, r') := takeDigits s1 0 0 in (v, r') in
        let frac :=
          match r1 with
          | dot :: r2 =>
              if N.eqb dot 46 then
                let '(v, count, r3) := takeDigits r2 int 0 in
                match count with
                | 0 => None
                | _ => Some (v, count, r3)
                end
              else Some (int, 0, r1)
          | [] => Some (int, 0, r1)
          end in
        match frac with
        | None => None
        | Some (coef, count, r3) =>
            match parseExponent r3 with
            | None => None
            | Some (e, r4) =>
                Some (JNumber neg coef (e - Z.of_nat count), r4)
            end
        end
      else None
  | [] => None
  end.

Definition startsWith (prefix s : jsstring) : bool :=
  JsString.eqb (firstn (length prefix) s) prefix.

Fixpoint parseValue (fuel : nat) (s : jsstring)
  : option (JsValue * jsstring) :=
  match fuel with
  | 0 => None
  | S fuel =>
      match skipWs s with
      | [] => None
      | (c :: r) as s1 =>
          if N.eqb c 34 then
            match parseStringBody r [] with
            | Some (x, r1) => Some (JString x, r1)
            | None => None
            end
          else if N.eqb c 91 then
            match skipWs r with
            | (c1 :: r1) as r0 =>
                if N.eqb c1 93 then Some (JArray [], r1)
                else parseElements fuel r0 []
            | [] => None
            end
          else if N.eqb c 123 then
            match skipWs r with
            | (c1 :: r1) as r0 =>
                if N.eqb c1 125 then Some (JObject [], r1)
                else parseMembers fuel r0 []
            | [] => None
            end
          else if startsWith (str "null") s1 then Some (JNull, skipn 4 s1)
          else if startsWith (str "true") s1
               then Some (JBool true, skipn 4 s1)
          else if startsWith (str "false") s1
               then Some (JBool false, skipn 5 s1)
          else parseNumber s1
      end
  end

with parseElements (fuel : nat) (s : jsstring) (acc : list JsValue)
  : option (JsValue * jsstring) :=
  match fuel with
  | 0 => None
  | S fuel =>
      match parseValue fuel s with
      | None => None
      | Some (v, r) =>
          match skipWs r with
          | c :: r1 =>
              if N.eqb c 44 then parseElements fuel r1 (acc ++ [v])
              else if N.eqb c 93 then Some (JArray (acc ++ [v]), r1)
              else None
          | [] => None
          end
      end
  end

with parseMembers (fuel : nat) (s : jsstring)
  (acc : list (jsstring * JsValue)) : option (JsValue * jsstring) :=
  match fuel with
  | 0 => None
  | S fuel =>
      match skipWs s with
      | q :: r =>
          if N.eqb q 34 then
            match parseStringBody r [] with
            | None => None
            | Some (k, r1) =>
                match skipWs r1 with
                | colon :: r2 =>
                    if N.eqb colon 58 then
                      match parseValue fuel r2 with
                      | None => None
                      | Some (v, r3) =>
                          match skipWs r3 with
                          | c :: r4 =>
                              if N.eqb c 44
                              then parseMembers fuel r4 (acc ++ [(k, v)])
                              else if N.eqb c 125
                              then Some (JObject (acc ++ [(k, v)]), r4)
                              else None
                          | [] => None
                          end
                      end
                    else None
                | [] => None
                end
            end
          else None
      | [] => None
      end
  end.

(** [JSON.parse(text)]: one value, white space around it, nothing else;
    [None] for a SyntaxError.  Every call of the three functions above
    that does not read a character is followed by one that does, so twice
    the length of the text is fuel enough. *)
Definition parse (text : jsstring) : option JsValue :=
  match parseValue (2 * length text + 2) text with
  | Some (v, r) => match skipWs r with [] => Some v | _ => None end
  | None => None
  end.

End JSON.

(* ===================================================================== *)
(** ** The streaming re-implementation parser
       ([onAnalyzeRepo], the body of the second [for await]) *)
(* ===================================================================== *)

Definition inspect {A : Type} (a : A) : { b : A | a = b } :=
  exist _ a eq_refl.

Section Parser.

(** [JSON.parse]: [None] when it throws a SyntaxError. *)
Variable JSON_parse : jsstring -> option JsValue.

(** The inner [for] loop: the index at which the brace count first
    returns to zero, [None] for the source's -1. *)
Fixpoint scanBraces (s : jsstring) (i : nat) (braceCount : Z)
  : option nat :=
  match s with
  | [] => None
  | c :: s' =>
      if N.eqb c LBRACE then scanBraces s' (S i) (braceCount + 1)
      else if N.eqb c RBRACE then
             let braceCount := (braceCount - 1)%Z in
             if (braceCount =? 0)%Z then Some i
             else scanBraces s' (S i) braceCount
           else scanBraces s' (S i) braceCount
  end.

Definition findObjectEnd (buffer : jsstring) : option nat :=
  scanBraces buffer 0 0.

(** [files => [...(files ?? []), file]] *)
Definition appendFile (files : option (list JsValue)) (file : JsValue)
  : option (list JsValue) :=
  Some (match files with Some fs => fs | None => [] end ++ [file]).

(** The [try] block around [JSON.parse]: the candidate yields a record
    when it parses and [file.path && file.content] is truthy; a
    SyntaxError, or the TypeError of reading a property of null, is caught
    and logged, and nothing is appended. *)
Definition accepted (objectStr : jsstring) : option JsValue :=
  match JSON_parse objectStr with
  | None => None
  | Some file =>
      match getProperty file (str "path") with
      | None => None
      | Some p =>
          if truthy p then
            match getProperty file (str "content") with
            | None => None
            | Some c => if truthy c then Some file else None
            end
          else None
      end
  end.

Definition tryParse (objectStr : jsstring) (files : option (list JsValue))
  : option (list JsValue) :=
  match accepted objectStr with
  | Some file => appendFile files file
  | None => files
  end.

(** The branch taken when the buffer holds no opening brace. *)
Definition cleanNoise (buffer : jsstring) : jsstring :=
  let buffer :=
    if negb (includes RBRACE buffer) then trim (stripFences buffer)
    else buffer in
  if isEmpty (trim buffer) then [] else buffer.

(** The [while (true)] loop, from a buffer and the current value of the
    [reimplementedFiles] signal to their values when the loop breaks. *)
Equations? processBuffer (buffer : jsstring)
  (files : option (list JsValue))
  : jsstring * option (list JsValue) by wf (length buffer) lt :=
  processBuffer buffer files with inspect (indexOf LBRACE buffer) := {
    | exist _ None _ => (cleanNoise buffer, files)
    | exist _ (Some objectStartIndex) Hstart
        with inspect (findObjectEnd (substringFrom objectStartIndex buffer)) := {
        | exist _ (Some objectEndIndex) Hend =>
            let buffer1 := substringFrom objectStartIndex buffer in
            let objectStr := substringTo (objectEndIndex + 1) buffer1 in
            processBuffer (substringFrom (objectEndIndex + 1) buffer1)
                          (tryParse objectStr files)
        | exist _ None _ => (substringFrom objectStartIndex buffer, files) } }.
Proof.
  subst buffer1. unfold substringFrom. rewrite !length_skipn.
  destruct buffer as [|c buffer]; [discriminate | cbn [length]; lia].
Qed.

(** [buffer += chunk.text], then the [while] loop; [chunk] is the text of
    the chunk, a string. *)
Definition processChunk (st : jsstring * option (list JsValue))
  (chunk : jsstring) : jsstring * option (list JsValue) :=
  processBuffer (fst st ++ chunk) (snd st).

(** The whole [for await] loop over the chunks of a stream. *)
Definition processStream (chunks : list jsstring)
  (st : jsstring * option (list JsValue))
  : jsstring * option (list JsValue) :=
  fold_left processChunk chunks st.

End Parser.

(** The records the stream has yielded once all [chunks] have been
    consumed: the loop starts from an empty buffer and from the empty array
    [reimplementedFiles] was set to. *)
Definition emittedFiles (JSON_parse : jsstring -> option JsValue)
  (chunks : list jsstring) : option (list JsValue) :=
  snd (processStream JSON_parse chunks ([], Some [])).

(** A candidate as the loop cuts it out of the buffer: it begins with an
    opening brace and its brace count first returns to zero at its last
    character. *)
Definition isDelimited (objectStr : jsstring) : bool :=
  match indexOf LBRACE objectStr, findObjectEnd objectStr with
  | Some 0, Some objectEndIndex =>
      Nat.eqb (S objectEndIndex) (length objectStr)
  | _, _ => false
  end.

(** The specification's notion of a valid record, after its words: a JSON
    object with exactly the two string fields [path] and [content], both
    non-empty. *)
Definition specValidRecord (v : JsValue) : bool :=
  match v with
  | JObject [(k1, JString s1); (k2, JString s2)] =>
      ((JsString.eqb k1 (str "path") && JsString.eqb k2 (str "content"))
       || (JsString.eqb k1 (str "content") && JsString.eqb k2 (str "path")))
      && negb (isEmpty s1) && negb (isEmpty s2)
  | _ => false
  end.


(* ===================================================================== *)
(** ** Thrown values *)
(* ===================================================================== *)

(** A thrown value is an instance of [Error] (of [TypeError] when the flag
    is set) with its message, or some other value, kept as its [String(e)]. *)
Inductive Thrown : Type :=
| ErrorObject (isTypeError : bool) (message : jsstring)
| NonError (text : jsstring).

Inductive outcome (A : Type) : Type :=
| Returned (a : A)
| Threw (e : Thrown).
Arguments Returned {A} a.
Arguments Threw {A} e.

(** [new Error(message)] *)
Definition newError (message : jsstring) : Thrown :=
  ErrorObject false message.

(* ===================================================================== *)
(** ** The GitHub service *)
(* ===================================================================== *)

Module GithubService.

Record RepoFile : Type := { path : jsstring; content : jsstring }.

Record Request : Type :=
  { url : jsstring; headers : list (jsstring * jsstring) }.

(** A [Response]: [json] is what [response.json()] resolves to or rejects
    with. *)
Record Response : Type :=
  { status : N; statusText : jsstring; json : outcome JsValue }.

(** [response.ok] *)
Definition ok (response : Response) : bool :=
  (N.leb 200 (status response) && N.leb (status response) 299)%bool.

(** The network: what the [n]-th call of [fetch] (counting from 0) on a
    request resolves to or rejects with. *)
Definition Network : Type := nat -> Request -> outcome Response.

(** The calls of [fetch] made so far and the delays awaited with
    [setTimeout], in milliseconds, oldest first. *)
Record World : Type := { attempts : nat; waits : list Z }.

Definition initialWorld : World := {| attempts := 0; waits := [] |}.

Definition IO (A : Type) : Type := World -> outcome A * World.

Definition GITHUB_API_BASE : jsstring := str "https://api.github.com/repos".

Definition split (sep : char) (s : jsstring) : list jsstring :=
  fold_right
    (fun c parts =>
       if N.eqb c sep then [] :: parts
       else match parts with
            | p :: ps => (c :: p) :: ps
            | [] => [[c]]
            end)
    [[]] s.

Definition invalidUrlMessage : jsstring := str "Invalid URL provided.".

(** [parseGithubUrl]; [parseURL] stands for [new URL(url)] and yields the
    host name and the path name, or [None] when the constructor throws.
    Every error raised inside the [try] is replaced by the same one. *)
Definition parseGithubUrl (parseURL : jsstring -> option (jsstring * jsstring))
  (url : jsstring) : outcome (jsstring * jsstring) :=
  match parseURL url with
  | None => Threw (newError invalidUrlMessage)
  | Some (hostname, pathname) =>
      if negb (JsString.eqb hostname (str "github.com"))
      then Threw (newError invalidUrlMessage)
      else
        let pathParts :=
          filter (fun p => negb (isEmpty p)) (split 47%N pathname) in
        match pathParts with
        | owner :: repo :: _ => Returned (owner, repo)
        | _ => Threw (newError invalidUrlMessage)
        end
  end.

Definition getHeaders (token : jsstring) : list (jsstring * jsstring) :=
  (str "Accept", str "application/vnd.github.v3+json")
  :: (if negb (isEmpty token)
      then [(str "Authorization", str "Bearer " ++ token)]
      else []).

Definition isFailedToFetch (e : Thrown) : bool :=
  match e with
  | ErrorObject true message => JsString.eqb message (str "Failed to fetch")
  | _ => false
  end.

Definition networkErrorMessage : jsstring :=
  str "A network error occurred trying to contact the GitHub API. This could be due to:" ++ LF
  ++ str "1. No internet connection." ++ LF
  ++ str "2. A browser extension (like an ad-blocker) blocking the request." ++ LF
  ++ str "3. A firewall or proxy blocking the connection." ++ LF
  ++ str "4. A Cross-Origin (CORS) issue." ++ LF ++ LF
  ++ str "Please check your browser's developer console (F12) for more specific error details.".

(** [await new Promise(resolve => setTimeout(resolve, backoff))] *)
Definition sleep (backoff : Z) (w : World) : World :=
  {| attempts := attempts w; waits := waits w ++ [backoff] |}.

(** [performFetch(url, options, retries, backoff)]; the test
    [retries > 0] is the match on a successor, [retries - 1] its
    predecessor. *)
Fixpoint performFetch (net : Network) (request : Request) (retries : nat)
  (backoff : Z) (w : World) : outcome Response * World :=
  let w1 := {| attempts := S (attempts w); waits := waits w |} in
  match net (attempts w) request with
  | Returned response =>
      match retries with
      | S retries' =>
          if N.leb 500 (status response)
          then performFetch net request retries' (backoff * 2)
                 (sleep backoff w1)
          else (Returned response, w1)
      | 0 => (Returned response, w1)
      end
  | Threw e =>
      if isFailedToFetch e then
        match retries with
        | S retries' =>
            performFetch net request retries' (backoff * 2) (sleep backoff w1)
        | 0 => (Threw (newError networkErrorMessage), w1)
        end
      else (Threw e, w1)
  end.

(** The default arguments [retries = 3, backoff = 300]. *)
Definition defaultRetries : nat := 3.
Definition defaultBackoff : Z := 300.

(** Delays that double: [backoff], twice that, and so on, [k] of them. *)
Fixpoint backoffs (backoff : Z) (k : nat) : list Z :=
  match k with
  | 0 => []
  | S k' => backoff :: backoffs (backoff * 2) k'
  end.

(** The request [getDefaultBranch] sends. *)
Definition detailsRequest (owner repo token : jsstring) : Request :=
  {| url := GITHUB_API_BASE ++ str "/" ++ owner ++ str "/" ++ repo;
     headers := getHeaders token |}.

Definition decimal (n : N) : jsstring :=
  str (DecimalString.NilZero.string_of_uint (N.to_uint n)).

Definition rateLimitMessage : jsstring :=
  str "GitHub API rate limit exceeded. Please provide a Personal Access Token to continue.".
Definition notFoundMessage : jsstring :=
  str "Repository not found. It may be private or spelled incorrectly.".
Definition invalidTokenMessage : jsstring :=
  str "The provided GitHub token is invalid or expired.".
Definition noDefaultBranchMessage : jsstring :=
  str "Could not determine the default branch for the repository.".

Section Service.

Variable net : Network.

(** The message of the TypeError an engine raises when a property of null
    is read. *)
Variable nullPropertyMessage : jsstring.

Definition getDefaultBranch (owner repo token : jsstring) : IO JsValue :=
  fun w =>
    let url := GITHUB_API_BASE ++ str "/" ++ owner ++ str "/" ++ repo in
    match performFetch net {| url := url; headers := getHeaders token |}
            defaultRetries defaultBackoff w with
    | (Threw e, w1) => (Threw e, w1)
    | (Returned response, w1) =>
        if negb (ok response) then
          if N.eqb (status response) 403
          then (Threw (newError rateLimitMessage), w1)
          else if N.eqb (status response) 404
          then (Threw (newError notFoundMessage), w1)
          else if N.eqb (status response) 401
          then (Threw (newError invalidTokenMessage), w1)
          else (Threw (newError
                  (str "Failed to fetch repository details ("
                   ++ decimal (status response) ++ str " "
                   ++ statusText response ++ str ").")), w1)
        else
          match json response with
          | Threw e => (Threw e, w1)
          | Returned repoDetails =>
              match getProperty repoDetails (str "default_branch") with
              | None => (Threw (ErrorObject true nullPropertyMessage), w1)
              | Some None => (Threw (newError noDefaultBranchMessage), w1)
              | Some (Some branch) =>
                  if toBoolean branch then (Returned branch, w1)
                  else (Threw (newError noDefaultBranchMessage), w1)
              end
          end
    end.

(** The three later steps of [getRepoFiles] (the branch details, the
    recursive tree, and the blobs fetched in batches of 20 with
    [Promise.all]), from the default branch on. *)
Variable downloadTree :
  jsstring -> jsstring -> jsstring -> JsValue -> IO (list RepoFile).

Definition downloadErrorPrefix : jsstring :=
  str "Could not download repository. Reason: ".

(** [e instanceof Error ? e.message : String(e)] *)
Definition errorText (e : Thrown) : jsstring :=
  match e with
  | ErrorObject _ message => message
  | NonError text => text
  end.

Definition getRepoFiles (owner repo token : jsstring) : IO (list RepoFile) :=
  fun w =>
    let wrap (e : Thrown) := newError (downloadErrorPrefix ++ errorText e) in
    match getDefaultBranch owner repo token w with
    | (Threw e, w1) => (Threw (wrap e), w1)
    | (Returned branch, w1) =>
        match downloadTree owner repo token branch w1 with
        | (Threw e, w2) => (Threw (wrap e), w2)
        | (Returned allFiles, w2) => (Returned allFiles, w2)
        end
    end.

End Service.

(** *** Networks for concrete runs *)

Definition plainResponse (status : N) : Response :=
  {| status := status; statusText := []; json := Returned JNull |}.

(** Unavailable twice, then fine. *)
Definition flakyNetwork : Network :=
  fun n _ =>
    match n with
    | 0 | 1 => Returned (plainResponse 503)
    | _ => Returned (plainResponse 200)
    end.

(** Every request answers 404. *)
Definition notFoundNetwork : Network :=
  fun _ _ => Returned (plainResponse 404).

Definition noDownload :
  jsstring -> jsstring -> jsstring -> JsValue -> IO (list RepoFile) :=
  fun _ _ _ _ w => (Returned [], w).

End GithubService.

(* ===================================================================== *)
(** ** The component ([AppComponent]) *)
(* ===================================================================== *)

Module App.

Inductive AppState : Type :=
| Idle | Loading | Analyzed | Reimplemented | ErrorState.

(** The status of a step; [Failed] is the source's ['error']. *)
Inductive Status : Type := Pending | InProgress | Complete | Failed.

Definition Status_eqb (a b : Status) : bool :=
  match a, b with
  | Pending, Pending | InProgress, InProgress
  | Complete, Complete | Failed, Failed => true
  | _, _ => false
  end.

Record StatusStep : Type := { id : nat; text : jsstring; status : Status }.

(** The signals of the component. *)
Record AppComponent : Type := {
  repoUrl : jsstring;
  githubToken : jsstring;
  appState : AppState;
  errorMessage : option jsstring;
  analysisResult : option jsstring;
  reimplementedFiles : option (list JsValue);
  fetchedFiles : option (list GithubService.RepoFile);
  expandedFile : option jsstring;
  statusSteps : list StatusStep }.

Definition pendingSteps : list StatusStep :=
  [ {| id := 1; text := str "Download and read all repository files";
       status := Pending |};
    {| id := 2; text := str "AI selects relevant files for analysis";
       status := Pending |};
    {| id := 3; text := str "AI analyzes code architecture";
       status := Pending |};
    {| id := 4; text := str "AI re-implements the project";
       status := Pending |};
    {| id := 5; text := str "Ready for download"; status := Pending |} ].

(** The component as constructed. *)
Definition initialComponent : AppComponent :=
  {| repoUrl := str "https://github.com/angular/angular";
     githubToken := [];
     appState := Idle;
     errorMessage := None;
     analysisResult := None;
     reimplementedFiles := None;
     fetchedFiles := None;
     expandedFile := None;
     statusSteps := pendingSteps |}.

(** [signal.set(v)], one function per signal. *)
Definition set_appState (v : AppState) (this : AppComponent) :=
  {| repoUrl := repoUrl this; githubToken := githubToken this;
     appState := v; errorMessage := errorMessage this;
     analysisResult := analysisResult this;
     reimplementedFiles := reimplementedFiles this;
     fetchedFiles := fetchedFiles this; expandedFile := expandedFile this;
     statusSteps := statusSteps this |}.

Definition set_errorMessage (v : option jsstring) (this : AppComponent) :=
  {| repoUrl := repoUrl this; githubToken := githubToken this;
     appState := appState this; errorMessage := v;
     analysisResult := analysisResult this;
     reimplementedFiles := reimplementedFiles this;
     fetchedFiles := fetchedFiles this; expandedFile := expandedFile this;
     statusSteps := statusSteps this |}.

Definition set_analysisResult (v : option jsstring) (this : AppComponent) :=
  {| repoUrl := repoUrl this; githubToken := githubToken this;
     appState := appState this; errorMessage := errorMessage this;
     analysisResult := v;
     reimplementedFiles := reimplementedFiles this;
     fetchedFiles := fetchedFiles this; expandedFile := expandedFile this;
     statusSteps := statusSteps this |}.

Definition set_reimplementedFiles (v : option (list JsValue))
  (this : AppComponent) :=
  {| repoUrl := repoUrl this; githubToken := githubToken this;
     appState := appState this; errorMessage := errorMessage this;
     analysisResult := analysisResult this;
     reimplementedFiles := v;
     fetchedFiles := fetchedFiles this; expandedFile := expandedFile this;
     statusSteps := statusSteps this |}.

Definition set_fetchedFiles (v : option (list GithubService.RepoFile))
  (this : AppComponent) :=
  {| repoUrl := repoUrl this; githubToken := githubToken this;
     appState := appState this; errorMessage := errorMessage this;
     analysisResult := analysisResult this;
     reimplementedFiles := reimplementedFiles this;
     fetchedFiles := v; expandedFile := expandedFile this;
     statusSteps := statusSteps this |}.

Definition set_expandedFile (v : option jsstring) (this : AppComponent) :=
  {| repoUrl := repoUrl this; githubToken := githubToken this;
     appState := appState this; errorMessage := errorMessage this;
     analysisResult := analysisResult this;
     reimplementedFiles := reimplementedFiles this;
     fetchedFiles := fetchedFiles this; expandedFile := v;
     statusSteps := statusSteps this |}.

Definition set_statusSteps (v : list StatusStep) (this : AppComponent) :=
  {| repoUrl := repoUrl this; githubToken := githubToken this;
     appState := appState this; errorMessage := errorMessage this;
     analysisResult := analysisResult this;
     reimplementedFiles := reimplementedFiles this;
     fetchedFiles := fetchedFiles this; expandedFile := expandedFile this;
     statusSteps := v |}.

(** *** Methods as state transformers that log their writes

    A method maps the component to what it returns or throws, the
    component it leaves, and the states the component went through, one
    per write to a signal, oldest first. *)
Definition Task (A : Type) : Type :=
  AppComponent -> outcome A * AppComponent * list AppComponent.

Definition ret {A : Type} (a : A) : Task A :=
  fun this => (Returned a, this, []).

Definition bind {A B : Type} (t : Task A) (k : A -> Task B) : Task B :=
  fun this =>
    match t this with
    | (Returned a, this1, trace1) =>
        let '(r, this2, trace2) := k a this1 in (r, this2, trace1 ++ trace2)
    | (Threw e, this1, trace1) => (Threw e, this1, trace1)
    end.

(** A write to a signal. *)
Definition write (f : AppComponent -> AppComponent) : Task unit :=
  fun this => (Returned tt, f this, [f this]).

(** An awaited call to a collaborator. *)
Definition await {A : Type} (o : outcome A) : Task A :=
  fun this => (o, this, []).

(** [try { t } catch (e) { handler e }] *)
Definition tryCatch {A : Type} (t : Task A) (handler : Thrown -> Task A)
  : Task A :=
  fun this =>
    match t this with
    | (Returned a, this1, trace1) => (Returned a, this1, trace1)
    | (Threw e, this1, trace1) =>
        let '(r, this2, trace2) := handler e this1 in
        (r, this2, trace1 ++ trace2)
    end.

Declare Scope task_scope.
Delimit Scope task_scope with task.
Notation "t1 ;; t2" := (bind t1 (fun _ => t2))
  (at level 61, right associativity) : task_scope.
Notation "x <- t1 ;; t2" := (bind t1 (fun x => t2))
  (at level 61, t1 at next level, right associativity) : task_scope.
Local Open Scope task_scope.

(** A stream of the model service: the texts of its chunks, and the value
    thrown after the last of them when the iteration fails. *)
Record Stream : Type :=
  { chunks : list jsstring; ending : option Thrown }.

(** [for await (const chunk of stream) body], with the variables the loop
    carries. *)
Fixpoint forEachChunk {B : Type} (body : B -> jsstring -> Task B)
  (chunks : list jsstring) (local : B) : Task B :=
  match chunks with
  | [] => ret local
  | chunk :: rest =>
      local1 <- body local chunk ;; forEachChunk body rest local1
  end.

Definition forAwait {B : Type} (stream : Stream)
  (body : B -> jsstring -> Task B) (local : B) : Task B :=
  local1 <- forEachChunk body (chunks stream) local ;;
  match ending stream with
  | Some e => await (Threw e)
  | None => ret local1
  end.

(** The services the component calls. *)
Record Collaborators : Type := {
  parseURL : jsstring -> option (jsstring * jsstring);
  getRepoFiles :
    jsstring -> jsstring -> jsstring -> outcome (list GithubService.RepoFile);
  selectRelevantFiles : list jsstring -> outcome (list jsstring);
  analyzeCode : list GithubService.RepoFile -> outcome Stream;
  reimplementCode :
    list GithubService.RepoFile -> option jsstring -> outcome Stream;
  JSON_parse : jsstring -> option JsValue }.

Definition resetState : Task unit :=
  write (set_appState Idle) ;;
  write (set_errorMessage None) ;;
  write (set_analysisResult None) ;;
  write (set_reimplementedFiles None) ;;
  write (set_fetchedFiles None) ;;
  write (set_expandedFile None) ;;
  write (set_statusSteps pendingSteps).

(** [steps.map(step => (step.id === id ? { ...step, status } : step))] *)
Definition markStatus (id0 : nat) (status0 : Status) (this : AppComponent)
  : AppComponent :=
  set_statusSteps
    (map (fun step =>
            if Nat.eqb (id step) id0
            then {| id := id step; text := text step; status := status0 |}
            else step)
         (statusSteps this))
    this.

Definition updateStatus (id0 : nat) (status0 : Status) : Task unit :=
  write (markStatus id0 status0).

Definition handleError (message : jsstring) : Task unit :=
  write (set_appState ErrorState) ;;
  write (set_errorMessage (Some message)) ;;
  fun this =>
    match find (fun s => Status_eqb (status s) InProgress)
               (statusSteps this) with
    | Some inProgressStep => updateStatus (id inProgressStep) Failed this
    | None => ret tt this
    end.

Definition emptyUrlMessage : jsstring :=
  str "Please enter a valid GitHub repository URL.".
Definition emptyRepositoryMessage : jsstring :=
  str "Repository appears to be empty or contains no readable files.".
Definition unknownErrorMessage : jsstring :=
  str "An unknown error occurred.".

(** [error instanceof Error ? error.message : 'An unknown error occurred.'] *)
Definition messageOf (error : Thrown) : jsstring :=
  match error with
  | ErrorObject _ message => message
  | NonError _ => unknownErrorMessage
  end.

(** The bodies of the two [for await] loops, on the text of a chunk:
    [analysisResult.update] with the chunk appended to the current text, and
    for the second loop [buffer += chunk.text] and the extraction loop,
    which reads and updates [reimplementedFiles].  The extraction loop has
    no [await] in it; its updates are logged as one write per chunk. *)
Definition appendChunk (chunk : jsstring) (this : AppComponent)
  : AppComponent :=
  set_analysisResult
    (Some (match analysisResult this with
           | Some current => current
           | None => []
           end ++ chunk))
    this.

Definition parseChunk (env : Collaborators) (buffer chunk : jsstring)
  : Task jsstring :=
  fun this =>
    let '(buffer1, files) :=
      processChunk (JSON_parse env) (buffer, reimplementedFiles this) chunk in
    let this1 := set_reimplementedFiles files this in
    (Returned buffer1, this1, [this1]).

(** [allFiles.filter(f => relevantFilePaths.includes(f.path))] *)
Definition relevantFilesOf (allFiles : list GithubService.RepoFile)
  (relevantFilePaths : list jsstring) : list GithubService.RepoFile :=
  filter (fun f =>
            existsb (JsString.eqb (GithubService.path f)) relevantFilePaths)
         allFiles.

(** The [try] block of [onAnalyzeRepo], stage by stage.  Stage 1: the
    repository is downloaded. *)
Definition fetchStage (env : Collaborators) (url token : jsstring)
  : Task (list GithubService.RepoFile) :=
  ownerRepo <- await (GithubService.parseGithubUrl (parseURL env) url) ;;
  let '(owner, repo) := ownerRepo in
  updateStatus 1 InProgress ;;
  allFiles <- await (getRepoFiles env owner repo token) ;;
  updateStatus 1 Complete ;;
  ret allFiles.

(** Stage 2: the model selects the relevant files. *)
Definition selectStage (env : Collaborators)
  (allFiles : list GithubService.RepoFile)
  : Task (list GithubService.RepoFile) :=
  let allFilePaths := map GithubService.path allFiles in
  updateStatus 2 InProgress ;;
  relevantFilePaths <- await (selectRelevantFiles env allFilePaths) ;;
  updateStatus 2 Complete ;;
  let relevantFiles := relevantFilesOf allFiles relevantFilePaths in
  write (set_fetchedFiles (Some relevantFiles)) ;;
  ret relevantFiles.

(** Stage 3: the analysis is streamed into [analysisResult]. *)
Definition analyzeStage (env : Collaborators)
  (relevantFiles : list GithubService.RepoFile) : Task unit :=
  updateStatus 3 InProgress ;;
  analysisStream <- await (analyzeCode env relevantFiles) ;;
  write (set_analysisResult (Some [])) ;;
  forAwait analysisStream (fun _ chunk => write (appendChunk chunk)) tt ;;
  updateStatus 3 Complete ;;
  write (set_appState Analyzed).

(** Stages 4 and 5: the re-implementation is streamed and parsed. *)
Definition reimplementStage (env : Collaborators)
  (relevantFiles : list GithubService.RepoFile) : Task unit :=
  updateStatus 4 InProgress ;;
  write (set_reimplementedFiles (Some [])) ;;
  reimplementationStream <-
    (fun this =>
       await (reimplementCode env relevantFiles (analysisResult this)) this) ;;
  forAwait reimplementationStream (parseChunk env) [] ;;
  updateStatus 4 Complete ;;
  updateStatus 5 Complete ;;
  write (set_appState Reimplemented).

Definition tryBlock (env : Collaborators) (url token : jsstring)
  : Task unit :=
  allFiles <- fetchStage env url token ;;
  if Nat.eqb (length allFiles) 0 then handleError emptyRepositoryMessage
  else
    relevantFiles <- selectStage env allFiles ;;
    analyzeStage env relevantFiles ;;
    reimplementStage env relevantFiles.

(** [try { ... } catch (error) { this.handleError(message) }] *)
Definition guarded (env : Collaborators) (url token : jsstring)
  : Task unit :=
  tryCatch (tryBlock env url token)
           (fun error => handleError (messageOf error)).

(** What [onAnalyzeRepo] does after [resetState]. *)
Definition started (env : Collaborators) (url token : jsstring)
  : Task unit :=
  write (set_appState Loading) ;; guarded env url token.

Definition onAnalyzeRepo (env : Collaborators) : Task unit :=
  fun this =>
    let url := repoUrl this in
    let token := githubToken this in
    if isEmpty url then handleError emptyUrlMessage this
    else (resetState ;; started env url token) this.

(** The component a method leaves, and the states it went through. *)
Definition finalState {A : Type}
  (r : outcome A * AppComponent * list AppComponent) : AppComponent :=
  snd (fst r).
Definition traceOf {A : Type}
  (r : outcome A * AppComponent * list AppComponent) : list AppComponent :=
  snd r.

(** What [handleError] does to the steps: the steps that carry the id of
    the first step in progress, if there is one, get the status error. *)
Definition failInProgress (steps : list StatusStep) : list StatusStep :=
  match find (fun s => Status_eqb (status s) InProgress) steps with
  | Some inProgressStep =>
      map (fun step =>
             if Nat.eqb (id step) (id inProgressStep)
             then {| id := id step; text := text step; status := Failed |}
             else step)
          steps
  | None => steps
  end.

(** *** Progress of the steps *)

(** The five steps with the given statuses. *)
Definition withStatuses (statuses : list Status) : list StatusStep :=
  map (fun p => {| id := id (fst p); text := text (fst p); status := snd p |})
      (combine pendingSteps statuses).

Definition statuses (this : AppComponent) : list Status :=
  map status (statusSteps this).

Definition inProgressCount (this : AppComponent) : nat :=
  length (filter (fun s => Status_eqb (status s) InProgress)
                 (statusSteps this)).

(** The moves of a step the code makes.  One of the first four steps
    stays as it is, or goes from pending to in-progress, or from
    in-progress to complete or to error.  The fifth step is never in
    progress: it stays pending, or goes from pending to complete, and then
    stays complete. *)
Definition stepMove (stage : nat) (old new : Status) : bool :=
  if Nat.eqb stage 5 then
    match old, new with
    | Pending, Pending | Pending, Complete | Complete, Complete => true
    | _, _ => false
    end
  else
    match old, new with
    | Pending, Pending | InProgress, InProgress
    | Complete, Complete | Failed, Failed => true
    | Pending, InProgress | InProgress, Complete | InProgress, Failed => true
    | _, _ => false
    end.

(** The moves the specification allows, after its words:
    pending, then in-progress, then complete or error. *)
Definition specStepMove (old new : Status) : bool :=
  match old, new with
  | Pending, Pending | InProgress, InProgress
  | Complete, Complete | Failed, Failed => true
  | Pending, InProgress | InProgress, Complete | InProgress, Failed => true
  | _, _ => false
  end.

Fixpoint stepsMove (move : nat -> Status -> Status -> bool)
  (old new : list StatusStep) : bool :=
  match old, new with
  | [], [] => true
  | a :: old', b :: new' =>
      Nat.eqb (id a) (id b) && move (id a) (status a) (status b)
      && stepsMove move old' new'
  | _, _ => false
  end.

(** The fifth step is complete only at the end of a run that succeeds:
    every step with the id 5 is pending, or all the steps are complete. *)
Definition fifthIsLast (this : AppComponent) : bool :=
  forallb (fun s => negb (Nat.eqb (id s) 5) || Status_eqb (status s) Pending)
          (statusSteps this)
  || forallb (fun s => Status_eqb (status s) Complete) (statusSteps this).

(** One write of a run: every step moves as [move] allows, at most one
    step is in progress afterwards, and the fifth step is complete only
    when all the steps are. *)
Definition legalWrite (move : nat -> Status -> Status -> bool)
  (this this' : AppComponent) : Prop :=
  stepsMove move (statusSteps this) (statusSteps this') = true
  /\ inProgressCount this' <= 1
  /\ fifthIsLast this' = true.

(** [chain R this trace]: each state of the trace is related to the one
    before it, the first to [this]. *)
Fixpoint chain (R : AppComponent -> AppComponent -> Prop)
  (this : AppComponent) (trace : list AppComponent) : Prop :=
  match trace with
  | [] => True
  | this' :: trace' => R this this' /\ chain R this' trace'
  end.

(** The five steps have the statuses [l]. *)
Definition At (l : list Status) (this : AppComponent) : Prop :=
  statusSteps this = withStatuses l.

(** [traced R P t Q E]: from a component satisfying [P], every write of
    [t] is related by [R] to the state before it, the component [t] leaves
    is the last one written, and it satisfies [Q] when [t] returns and [E]
    when [t] throws. *)
Definition traced {A : Type} (R : AppComponent -> AppComponent -> Prop)
  (P : AppComponent -> Prop) (t : Task A)
  (Q : A -> AppComponent -> Prop) (E : Thrown -> AppComponent -> Prop)
  : Prop :=
  forall this, P this ->
    chain R this (traceOf (t this))
    /\ finalState (t this) = last (traceOf (t this)) this
    /\ match fst (fst (t this)) with
       | Returned a => Q a (finalState (t this))
       | Threw e => E e (finalState (t this))
       end.

(** The statuses with which the [try] block can throw, and those with
    which [handleError] is called. *)
Definition throwingStatuses : list (list Status) :=
  [ [Pending; Pending; Pending; Pending; Pending];
    [InProgress; Pending; Pending; Pending; Pending];
    [Complete; InProgress; Pending; Pending; Pending];
    [Complete; Complete; InProgress; Pending; Pending];
    [Complete; Complete; Complete; InProgress; Pending] ].

Definition Throwing (this : AppComponent) : Prop :=
  exists l, In l throwingStatuses /\ At l this.

Definition Failing (this : AppComponent) : Prop :=
  exists l,
    In l ([Complete; Pending; Pending; Pending; Pending] :: throwingStatuses)
    /\ At l this.

(** Collaborators that answer every call in the same way. *)
Definition scripted (allFiles : outcome (list GithubService.RepoFile))
  (relevantFilePaths : outcome (list jsstring))
  (analysis reimplementation : outcome Stream) : Collaborators :=
  {| parseURL := fun _ => Some (str "github.com", str "/angular/angular");
     getRepoFiles := fun _ _ _ => allFiles;
     selectRelevantFiles := fun _ => relevantFilePaths;
     analyzeCode := fun _ => analysis;
     reimplementCode := fun _ _ => reimplementation;
     JSON_parse := JSON.parse |}.

Definition endedStream (chunks : list jsstring) : Stream :=
  {| chunks := chunks; ending := None |}.

Definition failedStream (chunks : list jsstring) (e : Thrown) : Stream :=
  {| chunks := chunks; ending := Some e |}.

Definition sampleFile : GithubService.RepoFile :=
  {| GithubService.path := str "main.ts";
     GithubService.content := str "export {}" |}.

(** A run in which every collaborator answers and the re-implementation
    arrives in the given chunks. *)
Definition answering (reimplementation : Stream) : Collaborators :=
  scripted (Returned [sampleFile]) (Returned [str "main.ts"])
           (Returned (endedStream [str "# Report"]))
           (Returned reimplementation).

(** A stream that ends in the middle of its second object, and one that
    fails there. *)
Definition truncatedStream : Stream :=
  endedStream [ quoted "{'path':'a.ts','content':'x'}";
                quoted "{'path':'b.ts','con" ].

Definition brokenStream : Stream :=
  failedStream [ quoted "{'path':'a.ts','content':'x'}";
                 quoted "{'path':'b.ts','con" ]
               (newError (str "stream interrupted")).

(** Collaborators whose download fails. *)
Definition offline : Collaborators :=
  scripted (Threw (newError (str "Could not download repository. Reason: offline")))
           (Returned []) (Returned (endedStream []))
           (Returned (endedStream [])).

(** *** The component at the end of each stage *)

(** The component [resetState] leaves, then [appState.set('loading')]. *)
Definition afterReset (this : AppComponent) : AppComponent :=
  set_statusSteps pendingSteps
    (set_expandedFile None
       (set_fetchedFiles None
          (set_reimplementedFiles None
             (set_analysisResult None
                (set_errorMessage None (set_appState Idle this)))))).

Definition afterLoading (this : AppComponent) : AppComponent :=
  set_appState Loading (afterReset this).

Definition afterFetch (this : AppComponent) : AppComponent :=
  markStatus 1 Complete (markStatus 1 InProgress this).

Definition afterSelect (relevantFiles : list GithubService.RepoFile)
  (this : AppComponent) : AppComponent :=
  set_fetchedFiles (Some relevantFiles)
    (markStatus 2 Complete (markStatus 2 InProgress (afterFetch this))).

Definition afterAnalysis (relevantFiles : list GithubService.RepoFile)
  (analysis : jsstring) (this : AppComponent) : AppComponent :=
  set_appState Analyzed
    (markStatus 3 Complete
       (set_analysisResult (Some analysis)
          (markStatus 3 InProgress (afterSelect relevantFiles this)))).

(** *** Where a run can fail *)

Section Scenarios.

Variables (env : Collaborators) (url token : jsstring).

Inductive Fetched : list GithubService.RepoFile -> Prop :=
| fetched owner repo allFiles :
    GithubService.parseGithubUrl (parseURL env) url = Returned (owner, repo) ->
    getRepoFiles env owner repo token = Returned allFiles ->
    Fetched allFiles.

Inductive Selected : list GithubService.RepoFile -> Prop :=
| selected allFiles relevantFilePaths :
    Fetched allFiles -> allFiles <> [] ->
    selectRelevantFiles env (map GithubService.path allFiles)
    = Returned relevantFilePaths ->
    Selected (relevantFilesOf allFiles relevantFilePaths).

Inductive AnalysisDone : list GithubService.RepoFile -> jsstring -> Prop :=
| analyzed relevantFiles stream :
    Selected relevantFiles ->
    analyzeCode env relevantFiles = Returned stream ->
    ending stream = None ->
    AnalysisDone relevantFiles (concat (chunks stream)).

(** [FatalError completed inProgress message]: the run fails with
    [message] after [completed] stages, while the next stage is in
    progress or, when [inProgress] is false, before it has started. *)
Inductive FatalError : nat -> bool -> jsstring -> Prop :=
| fatal_url e :
    GithubService.parseGithubUrl (parseURL env) url = Threw e ->
    FatalError 0 false (messageOf e)
| fatal_fetch owner repo e :
    GithubService.parseGithubUrl (parseURL env) url = Returned (owner, repo) ->
    getRepoFiles env owner repo token = Threw e ->
    FatalError 0 true (messageOf e)
| fatal_empty :
    Fetched [] ->
    FatalError 1 false emptyRepositoryMessage
| fatal_select allFiles e :
    Fetched allFiles -> allFiles <> [] ->
    selectRelevantFiles env (map GithubService.path allFiles) = Threw e ->
    FatalError 1 true (messageOf e)
| fatal_analyze relevantFiles e :
    Selected relevantFiles ->
    analyzeCode env relevantFiles = Threw e ->
    FatalError 2 true (messageOf e)
| fatal_analysis_stream relevantFiles stream e :
    Selected relevantFiles ->
    analyzeCode env relevantFiles = Returned stream ->
    ending stream = Some e ->
    FatalError 2 true (messageOf e)
| fatal_reimplement relevantFiles analysis e :
    AnalysisDone relevantFiles analysis ->
    reimplementCode env relevantFiles (Some analysis) = Threw e ->
    FatalError 3 true (messageOf e)
| fatal_reimplementation_stream relevantFiles analysis stream e :
    AnalysisDone relevantFiles analysis ->
    reimplementCode env relevantFiles (Some analysis) = Returned stream ->
    ending stream = Some e ->
    FatalError 3 true (messageOf e).

(** The statuses of the five steps when such a failure occurs, and after
    it has been handled. *)
Definition statusesBeforeFailure (completed : nat) (inProgress : bool)
  : list Status :=
  firstn 5 (repeat Complete completed
            ++ (if inProgress then [InProgress] else [])
            ++ repeat Pending 5).


Definition statusesAfterFailure (completed : nat) (inProgress : bool)
  : list Status :=
  firstn 5 (repeat Complete completed
            ++ (if inProgress then [Failed] else [])
            ++ repeat Pending 5).

End Scenarios.

End App.

(* ===================================================================== *)
(** ** The GitHub service: blobs and batches *)
(* ===================================================================== *)

Module GithubBlobs.
Import GithubService.

(** An entry of the file tree, as [getRecursiveTree] returns it. *)
Record TreeEntry : Type := { path : jsstring; sha : jsstring }.

(** The request [getBlobContent] sends. *)
Definition blobRequest (owner repo blobSha token : jsstring) : Request :=
  {| url := GITHUB_API_BASE ++ str "/" ++ owner ++ str "/" ++ repo
            ++ str "/git/blobs/" ++ blobSha;
     headers := getHeaders token |}.

Section Blobs.

Variable net : Network.

(** The message of the TypeError an engine raises when a property of null
    is read. *)
Variable nullPropertyMessage : jsstring.

(** [atob] applied to the value of [data.content], which may be undefined:
    the decoded text, or [None] when [atob] throws. *)
Variable atob : option JsValue -> option jsstring.

(** [getBlobContent]: the content, or [None] for the source's null. *)
Definition getBlobContent (owner repo blobSha path0 token : jsstring)
  : IO (option jsstring) :=
  fun w =>
    match performFetch net (blobRequest owner repo blobSha token)
            defaultRetries defaultBackoff w with
    | (Threw e, w1) => (Threw e, w1)
    | (Returned response, w1) =>
        if negb (ok response) then (Returned None, w1)
        else
          match json response with
          | Threw e => (Threw e, w1)
          | Returned data =>
              match getProperty data (str "encoding") with
              | None => (Threw (ErrorObject true nullPropertyMessage), w1)
              | Some encoding =>
                  match encoding with
                  | Some (JString e) =>
                      if JsString.eqb e (str "base64") then
                        match getProperty data (str "content") with
                        | None => (Returned None, w1)
                        | Some content => (Returned (atob content), w1)
                        end
                      else (Returned None, w1)
                  | _ => (Returned None, w1)
                  end
              end
          end
    end.

End Blobs.

(** [fileTree.slice(i, j)] for [i <= j]. *)
Definition slice {A : Type} (i j : nat) (l : list A) : list A :=
  firstn (j - i) (skipn i l).

Definition batchSize : nat := 20.

Section Batches.

(** What the promise of [getBlobContent] for an entry settles to. *)
Variable blob : TreeEntry -> outcome (option jsstring).

(** Which of the rejections of a batch settles first; [Promise.all]
    rejects with it. *)
Variable firstRejection : list Thrown -> Thrown.

(** The callback of [batch.map]. *)
Definition fetchEntry (file : TreeEntry) : outcome (option RepoFile) :=
  match blob file with
  | Returned (Some content) =>
      Returned (Some {| GithubService.path := path file;
                        GithubService.content := content |})
  | Returned None => Returned None
  | Threw e => Threw e
  end.

Definition rejections {A : Type} (promises : list (outcome A))
  : list Thrown :=
  flat_map (fun p => match p with Threw e => [e] | Returned _ => [] end)
           promises.

Definition fulfilled {A : Type} (promises : list (outcome A)) : list A :=
  flat_map (fun p => match p with Returned a => [a] | Threw _ => [] end)
           promises.

(** [await Promise.all(promises)] *)
Definition promiseAll {A : Type} (promises : list (outcome A))
  : outcome (list A) :=
  match rejections promises with
  | [] => Returned (fulfilled promises)
  | e :: es => Threw (firstRejection (e :: es))
  end.

(** [batchResults.filter(f => f !== null)] *)
Definition validFiles (batchResults : list (option RepoFile))
  : list RepoFile :=
  flat_map (fun f => match f with Some file => [file] | None => [] end)
           batchResults.

(** The files of the entries whose content is there, in the order of the
    entries. *)
Definition keptFiles (entries : list TreeEntry) : list RepoFile :=
  flat_map (fun file =>
              match blob file with
              | Returned (Some content) =>
                  [{| GithubService.path := path file;
                      GithubService.content := content |}]
              | _ => []
              end)
           entries.

(** No request for an entry of [entries] is rejected. *)
Definition settles (entries : list TreeEntry) : Prop :=
  forall file, In file entries -> exists r, blob file = Returned r.

(** The [for] loop of [getRepoFiles] from index [i]: what it returns or
    throws, and the entries whose content has been requested, in order. *)
Equations? downloadBatches (fileTree : list TreeEntry) (i : nat)
  (allFiles : list RepoFile) (requested : list TreeEntry)
  : outcome (list RepoFile) * list TreeEntry
  by wf (length fileTree - i) lt :=
  downloadBatches fileTree i allFiles requested
    with lt_dec i (length fileTree) := {
    | left _ =>
        let batch := slice i (i + batchSize) fileTree in
        match promiseAll (map fetchEntry batch) with
        | Returned batchResults =>
            downloadBatches fileTree (i + batchSize)
              (allFiles ++ validFiles batchResults) (requested ++ batch)
        | Threw e => (Threw e, requested ++ batch)
        end
    | right _ => (Returned allFiles, requested) }.
Proof. unfold batchSize. lia. Qed.

End Batches.

(** *** Networks for concrete runs *)

(** Every request answers 503. *)
Definition unavailableNetwork : Network :=
  fun _ _ => Returned {| status := 503;
                         statusText := str "Service Unavailable";
                         json := Returned JNull |}.

(** Every call of [fetch] is rejected. *)
Definition unreachableNetwork : Network :=
  fun _ _ => Threw (ErrorObject true (str "Failed to fetch")).

(** A tree of 45 entries, and blobs of which one has no content, or of
    which one is rejected. *)
Definition sampleTree : list TreeEntry :=
  map (fun n => {| path := decimal (N.of_nat n) ++ str ".ts";
                   sha := decimal (N.of_nat n) |})
      (seq 0 45).

Definition sampleBlob (file : TreeEntry) : outcome (option jsstring) :=
  if JsString.eqb (sha file) (str "7") then Returned None
  else Returned (Some (str "// " ++ path file)).

Definition brokenBlob (file : TreeEntry) : outcome (option jsstring) :=
  if JsString.eqb (sha file) (str "27")
  then Threw (newError networkErrorMessage)
  else sampleBlob file.

(** The total of some delays. *)
Definition totalDelay (delays : list Z) : Z := fold_right Z.add 0%Z delays.

(** An attempt that [performFetch] retries: a response of 500 or more, or
    the TypeError of a failed fetch. *)
Definition retried (o : outcome Response) : bool :=
  match o with
  | Returned response => N.leb 500 (status response)
  | Threw e => isFailedToFetch e
  end.

End GithubBlobs.

(* ===================================================================== *)
(** ** What the parser loop cuts out of a text *)
(* ===================================================================== *)

Module Cutting.

(** The brace count of the inner [for] loop after the characters of [s],
    from the count [n]. *)
Definition depthFrom (n : Z) (s : jsstring) : Z :=
  fold_left
    (fun d c =>
       if N.eqb c LBRACE then (d + 1)%Z
       else if N.eqb c RBRACE then (d - 1)%Z else d)
    s n.

Definition braceDepth (s : jsstring) : Z := depthFrom 0 s.

(** [Cuts text candidates]: [text] is noise without an opening brace, or
    such noise followed by the beginning of an object whose brace count
    does not return to zero, or such noise followed by a candidate and by a
    text that is cut in the same way. *)
Inductive Cuts : jsstring -> list jsstring -> Prop :=
| cuts_noise noise :
    indexOf LBRACE noise = None -> Cuts noise []
| cuts_incomplete noise rest :
    indexOf LBRACE noise = None ->
    indexOf LBRACE rest = Some 0 -> findObjectEnd rest = None ->
    Cuts (noise ++ rest) []
| cuts_candidate noise objectStr rest candidates :
    indexOf LBRACE noise = None ->
    isDelimited objectStr = true ->
    Cuts rest candidates ->
    Cuts (noise ++ objectStr ++ rest) (objectStr :: candidates).

(** The records of the candidates the [try] block accepts, in order. *)
Definition recordsOf (JSON_parse : jsstring -> option JsValue)
  (candidates : list jsstring) : list JsValue :=
  flat_map (fun objectStr =>
              match accepted JSON_parse objectStr with
              | Some file => [file]
              | None => []
              end)
           candidates.

End Cutting.

(* ===================================================================== *)
(** ** The component: the other methods, and the states of a run *)
(* ===================================================================== *)

Module AppMethods.
Import App.

(** [toggleFile(path)]:
    [expandedFile.update(current => current === path ? null : path)] *)
Definition toggleFile (path : jsstring) : Task unit :=
  write (fun this =>
           set_expandedFile
             (match expandedFile this with
              | Some current =>
                  if JsString.eqb current path then None else Some path
              | None => Some path
              end)
             this).

Definition SLASH : char := 47%N.

Definition defaultRepoName : jsstring := str "reimplemented-project".

(** [url.split('/').pop() || 'reimplemented-project'] *)
Definition repoNameOf (url : jsstring) : jsstring :=
  let name := last (GithubService.split SLASH url) [] in
  if isEmpty name then defaultRepoName else name.

(** [onDownloadZip]: the arguments with which [createAndDownloadZip] is
    called, or [None] when it is not called. *)
Definition onDownloadZip (this : AppComponent)
  : option (list JsValue * jsstring) :=
  match reimplementedFiles this with
  | None => None
  | Some files => Some (files, repoNameOf (repoUrl this))
  end.

(** [parts.join(sep)] *)
Fixpoint join (sep : char) (parts : list jsstring) : jsstring :=
  match parts with
  | [] => []
  | [p] => p
  | p :: ps => p ++ sep :: join sep ps
  end.

(** The moves of [appState] between two writes of a run. *)
Definition stateMove (old new : AppState) : bool :=
  match old, new with
  | Idle, Idle | Loading, Loading | Analyzed, Analyzed
  | Reimplemented, Reimplemented | ErrorState, ErrorState => true
  | Idle, Loading | Loading, Analyzed | Analyzed, Reimplemented => true
  | Loading, ErrorState | Analyzed, ErrorState => true
  | _, _ => false
  end.

Definition present {A : Type} (o : option A) : bool :=
  match o with Some _ => true | None => false end.

(** The signals that are set in a state: the analysis and the fetched
    files in the state analyzed, the records as well in the state
    reimplemented. *)
Definition consistent (this : AppComponent) : bool :=
  match appState this with
  | Analyzed =>
      present (analysisResult this) && present (fetchedFiles this)
  | Reimplemented =>
      present (analysisResult this) && present (fetchedFiles this)
      && present (reimplementedFiles this)
  | _ => true
  end.

(** One write of a run: the state moves as [stateMove] allows, the URL and
    the token are left as they are, and the signals of the new state are
    set. *)
Definition forwardWrite (this this' : AppComponent) : Prop :=
  stateMove (appState this) (appState this') = true
  /\ repoUrl this' = repoUrl this
  /\ githubToken this' = githubToken this
  /\ consistent this' = true.

(** Collaborators whose download succeeds with no file at all. *)
Definition emptyRepository : Collaborators :=
  scripted (Returned []) (Returned []) (Returned (endedStream []))
           (Returned (endedStream [])).

(** The collaborators of a component whose GitHub service is the one
    above, on the network [net]; the one call a run makes starts from
    [initialWorld]. *)
Definition withGithub (net : GithubService.Network)
  (nullPropertyMessage : jsstring)
  (downloadTree :
     jsstring -> jsstring -> jsstring -> JsValue ->
     GithubService.IO (list GithubService.RepoFile))
  (env : Collaborators) : Collaborators :=
  {| parseURL := parseURL env;
     getRepoFiles := fun owner repo token =>
       fst (GithubService.getRepoFiles net nullPropertyMessage downloadTree
              owner repo token GithubService.initialWorld);
     selectRelevantFiles := selectRelevantFiles env;
     analyzeCode := analyzeCode env;
     reimplementCode := reimplementCode env;
     JSON_parse := JSON_parse env |}.

(** Where a run is: loading; loading with the fetched files set; loading
    with the analysis set as well; analyzed; analyzed with the records
    set; and the states in which an error is handled. *)
Definition Working (s : AppComponent) : Prop := appState s = Loading.

Definition Holding (s : AppComponent) : Prop :=
  appState s = Loading /\ present (fetchedFiles s) = true.

Definition Streaming (s : AppComponent) : Prop :=
  appState s = Loading /\ present (fetchedFiles s) = true
  /\ present (analysisResult s) = true.

Definition Reviewed (s : AppComponent) : Prop :=
  appState s = Analyzed /\ present (fetchedFiles s) = true
  /\ present (analysisResult s) = true.

Definition Parsing (s : AppComponent) : Prop :=
  appState s = Analyzed /\ present (fetchedFiles s) = true
  /\ present (analysisResult s) = true
  /\ present (reimplementedFiles s) = true.

Definition Busy (s : AppComponent) : Prop :=
  appState s = Loading \/ appState s = Analyzed.

End AppMethods.

(* ===================================================================== *)
(** * Properties *)
(* ===================================================================== *)

(** ** Facts about the string operations *)

Module JsStringFacts.

Lemma eqb_eq a b : JsString.eqb a b = true <-> a = b.
Proof.
  unfold JsString.eqb.
  destruct (list_eq_dec N.eq_dec a b); split; congruence.
Qed.

(** The string operations on a few inputs. *)
Example stripFences_fence_json :
  stripFences (str "```json" ++ LF ++ str "text```") = LF ++ str "text".
Proof. reflexivity. Qed.

Example stripFences_four_backticks : stripFences (str "````") = str "`".
Proof. reflexivity. Qed.

Example trim_both_ends :
  trim (str "  " ++ LF ++ str "a b" ++ [160%N; 9%N]) = str "a b".
Proof. reflexivity. Qed.

Example indexOf_found : indexOf LBRACE (str "ab{c{") = Some 2.
Proof. reflexivity. Qed.

Example split_path :
  GithubService.split 47%N (str "/angular/angular")
  = [[]; str "angular"; str "angular"].
Proof. reflexivity. Qed.

Lemma indexOf_None_iff c s : indexOf c s = None <-> ~ In c s.
Proof.
  induction s as [|x s IH]; simpl.
  - tauto.
  - destruct (N.eqb_spec x c) as [->|Hne].
    + split; [discriminate | intros H; exfalso; apply H; now left].
    + destruct (indexOf c s).
      * split; [discriminate |].
        intros H. exfalso. apply H. right.
        destruct (in_dec N.eq_dec c s) as [Hin|Hnin]; [exact Hin |].
        apply IH in Hnin. discriminate.
      * split; [| reflexivity].
        intros _ [Heq|Hin]; [congruence | now apply IH].
Qed.

Lemma indexOf_Some_lt c s i : indexOf c s = Some i -> i < length s.
Proof.
  revert i. induction s as [|x s IH]; simpl; intros i H; [discriminate |].
  destruct (N.eqb x c).
  - injection H as <-. lia.
  - destruct (indexOf c s) as [j|]; [| discriminate].
    injection H as <-. specialize (IH j eq_refl). lia.
Qed.

Lemma indexOf_app_Some c s t i :
  indexOf c s = Some i -> indexOf c (s ++ t) = Some i.
Proof.
  revert i. induction s as [|x s IH]; simpl; intros i H; [discriminate |].
  destruct (N.eqb x c); [exact H |].
  destruct (indexOf c s) as [j|]; [| discriminate].
  now rewrite (IH j eq_refl).
Qed.

Lemma indexOf_app_None c s t :
  indexOf c s = None ->
  indexOf c (s ++ t) = option_map (Nat.add (length s)) (indexOf c t).
Proof.
  induction s as [|x s IH]; simpl; intros H.
  - now destruct (indexOf c t).
  - destruct (N.eqb x c); [discriminate |].
    destruct (indexOf c s); [discriminate |].
    rewrite (IH eq_refl). now destruct (indexOf c t).
Qed.

Lemma indexOf_skipn c s i :
  indexOf c s = Some i -> indexOf c (skipn i s) = Some 0.
Proof.
  revert i. induction s as [|x s IH]; simpl; intros i H; [discriminate |].
  destruct (N.eqb x c) eqn:E.
  - injection H as <-. simpl. now rewrite E.
  - destruct (indexOf c s) as [j|]; [| discriminate].
    injection H as <-. simpl. now apply IH.
Qed.

Lemma trimStart_In c s : In c (trimStart s) -> In c s.
Proof.
  induction s as [|x s IH]; simpl; [tauto |].
  destruct (isWhiteSpace x); simpl; tauto.
Qed.

Lemma trim_In c s : In c (trim s) -> In c s.
Proof.
  unfold trim, trimEnd. intros H.
  apply in_rev, trimStart_In, in_rev in H. now apply trimStart_In.
Qed.



Lemma stripFences_cons3 a b c rest :
  stripFences (a :: b :: c :: rest) =
  if (N.eqb a BACKTICK && N.eqb b BACKTICK && N.eqb c BACKTICK)%bool
  then match rest with
       | j :: s0 :: o :: n :: rest' =>
           if (N.eqb j 106 && N.eqb s0 115 && N.eqb o 111
               && N.eqb n 110)%N%bool
           then stripFences rest'
           else stripFences rest
       | _ => stripFences rest
       end
  else a :: stripFences (b :: c :: rest).
Proof. reflexivity. Qed.

Lemma stripFences_In c s : In c (stripFences s) -> In c s.
Proof.
  remember (length s) as n eqn:Hn. revert s Hn.
  induction n as [n IH] using lt_wf_ind. intros s Hn.
  destruct s as [|a [|b [|c0 rest]]]; try (simpl; tauto).
  rewrite stripFences_cons3.
  assert (Hrest : In c (stripFences rest) -> In c rest)
    by (apply (IH (length rest)); [subst n; simpl; lia | reflexivity]).
  destruct (N.eqb a BACKTICK && N.eqb b BACKTICK && N.eqb c0 BACKTICK)%bool.
  - destruct rest as [|j [|s0 [|o [|n0 rest']]]];
      try (intros H; apply Hrest in H; simpl in *; tauto).
    destruct (N.eqb j 106 && N.eqb s0 115 && N.eqb o 111 && N.eqb n0 110)%bool.
    + intros H.
      apply (IH (length rest')) in H; [| subst n; simpl; lia | reflexivity].
      simpl; tauto.
    + intros H; apply Hrest in H; simpl in *; tauto.
  - intros [H|H]; [left; exact H | right].
    apply (IH (length (b :: c0 :: rest))) in H;
      [exact H | subst n; simpl; lia | reflexivity].
Qed.

End JsStringFacts.
Import JsStringFacts.

(** ** The parser loop *)

Section ParserFacts.

Variable JSON_parse : jsstring -> option JsValue.

#[local] Abbreviation processBuffer := (processBuffer JSON_parse).
#[local] Abbreviation tryParse := (tryParse JSON_parse).

(** One iteration of the loop, as an equation. *)
Lemma processBuffer_eq (buffer : jsstring) (files : option (list JsValue)) :
  processBuffer buffer files =
  match indexOf LBRACE buffer with
  | None => (cleanNoise buffer, files)
  | Some objectStartIndex =>
      let buffer1 := substringFrom objectStartIndex buffer in
      match findObjectEnd buffer1 with
      | Some objectEndIndex =>
          processBuffer (substringFrom (objectEndIndex + 1) buffer1)
            (tryParse (substringTo (objectEndIndex + 1) buffer1) files)
      | None => (buffer1, files)
      end
  end.
Proof.
  funelim (processBuffer buffer files); cbv zeta;
    repeat match goal with
           | E : indexOf _ _ = _ |- _ => rewrite E
           | E : findObjectEnd _ = _ |- _ => rewrite E
           end; reflexivity.
Qed.

(** The brace scan only looks at the text up to the closing brace it
    returns. *)
Lemma scanBraces_app s t i n e :
  scanBraces s i n = Some e -> scanBraces (s ++ t) i n = Some e.
Proof.
  revert i n. induction s as [|c s IH]; simpl; intros i n H; [discriminate |].
  destruct (N.eqb c LBRACE); [now apply IH |].
  destruct (N.eqb c RBRACE); [| now apply IH].
  destruct (n - 1 =? 0)%Z; [exact H | now apply IH].
Qed.

Lemma scanBraces_bound s i n e :
  scanBraces s i n = Some e -> i <= e < i + length s.
Proof.
  revert i n. induction s as [|c s IH]; simpl; intros i n H; [discriminate |].
  destruct (N.eqb c LBRACE); [apply IH in H; lia |].
  destruct (N.eqb c RBRACE); [| apply IH in H; lia].
  destruct (n - 1 =? 0)%Z; [injection H as <-; lia | apply IH in H; lia].
Qed.

Lemma findObjectEnd_app s t e :
  findObjectEnd s = Some e -> findObjectEnd (s ++ t) = Some e.
Proof. apply scanBraces_app. Qed.

Lemma findObjectEnd_lt s e : findObjectEnd s = Some e -> e < length s.
Proof. intros H. apply scanBraces_bound in H. lia. Qed.

Lemma cleanNoise_In c buffer : In c (cleanNoise buffer) -> In c buffer.
Proof.
  unfold cleanNoise.
  destruct (negb (includes RBRACE buffer)).
  - destruct (isEmpty (trim (trim (stripFences buffer)))); [intros [] |].
    intros H. now apply trim_In, stripFences_In in H.
  - destruct (isEmpty (trim buffer)); [intros [] | tauto].
Qed.

Lemma cleanNoise_no_brace buffer :
  indexOf LBRACE buffer = None -> indexOf LBRACE (cleanNoise buffer) = None.
Proof.
  rewrite !indexOf_None_iff. intros H Hin. apply H.
  now apply cleanNoise_In.
Qed.

(** A buffer without an opening brace ends the loop at once. *)
Lemma processBuffer_noise buffer files :
  indexOf LBRACE buffer = None ->
  processBuffer buffer files = (cleanNoise buffer, files).
Proof. intros H. rewrite processBuffer_eq, H. reflexivity. Qed.

(** Text before the first opening brace is dropped. *)
Lemma processBuffer_skip buffer files i :
  indexOf LBRACE buffer = Some i ->
  processBuffer buffer files = processBuffer (substringFrom i buffer) files.
Proof.
  intros H.
  rewrite (processBuffer_eq buffer), (processBuffer_eq (substringFrom i buffer)).
  assert (H0 : indexOf LBRACE (substringFrom i buffer) = Some 0)
    by (apply indexOf_skipn; exact H).
  rewrite H, H0. reflexivity.
Qed.

(** Noise before a text does not change what the loop appends. *)
Lemma processBuffer_noise_prefix noise text files :
  indexOf LBRACE noise = None ->
  snd (processBuffer (noise ++ text) files) = snd (processBuffer text files).
Proof.
  intros H. destruct (indexOf LBRACE text) as [j|] eqn:Ht.
  - rewrite (processBuffer_skip (noise ++ text) files (i := length noise + j)).
    + rewrite (processBuffer_skip text files Ht).
      unfold substringFrom. f_equal. f_equal.
      rewrite skipn_app.
      replace (length noise + j - length noise) with j by lia.
      rewrite skipn_all2 by lia. reflexivity.
    + rewrite indexOf_app_None by exact H. rewrite Ht. reflexivity.
  - rewrite !processBuffer_noise; [reflexivity | exact Ht |].
    rewrite indexOf_app_None by exact H. now rewrite Ht.
Qed.

(** What the loop returns depends on the files only through appending. *)
Lemma processBuffer_fst buffer files files' :
  fst (processBuffer buffer files) = fst (processBuffer buffer files').
Proof.
  remember (length buffer) as n eqn:Hn. revert buffer files files' Hn.
  induction n as [n IH] using lt_wf_ind. intros buffer files files' Hn.
  rewrite (processBuffer_eq buffer files), (processBuffer_eq buffer files').
  destruct (indexOf LBRACE buffer) as [i|] eqn:Hi; [| reflexivity].
  cbv zeta. destruct (findObjectEnd (substringFrom i buffer)) as [e|] eqn:He;
    [| reflexivity].
  eapply IH; [| reflexivity].
  subst n. unfold substringFrom. rewrite !length_skipn.
  apply indexOf_Some_lt in Hi. lia.
Qed.

(** The appending lemma: running the loop on [x], then on what it left
    followed by [y], appends the same records as running it on [x ++ y]. *)
Lemma processBuffer_app x y files :
  snd (processBuffer (fst (processBuffer x files) ++ y)
                     (snd (processBuffer x files)))
  = snd (processBuffer (x ++ y) files).
Proof.
  remember (length x) as n eqn:Hn. revert x files Hn.
  induction n as [n IH] using lt_wf_ind. intros x files Hn.
  rewrite (processBuffer_eq x files).
  destruct (indexOf LBRACE x) as [i|] eqn:Hi.
  - cbv zeta.
    rewrite (processBuffer_skip (x ++ y) files (indexOf_app_Some _ _ y Hi)).
    assert (Hsk : substringFrom i (x ++ y) = substringFrom i x ++ y).
    { unfold substringFrom. rewrite skipn_app.
      apply indexOf_Some_lt in Hi.
      replace (i - length x) with 0 by lia. reflexivity. }
    rewrite Hsk.
    assert (H0 : indexOf LBRACE (substringFrom i x) = Some 0)
      by (apply indexOf_skipn; exact Hi).
    destruct (findObjectEnd (substringFrom i x)) as [e|] eqn:He.
    + rewrite (processBuffer_eq (substringFrom i x ++ y)).
      rewrite (indexOf_app_Some _ _ y H0). cbv zeta.
      change (substringFrom 0 (substringFrom i x ++ y))
        with (substringFrom i x ++ y).
      rewrite (findObjectEnd_app _ y He).
      pose proof (findObjectEnd_lt _ He) as Hlt.
      assert (Hf : substringTo (e + 1) (substringFrom i x ++ y)
                   = substringTo (e + 1) (substringFrom i x)).
      { unfold substringTo. rewrite firstn_app.
        replace (e + 1 - length (substringFrom i x)) with 0 by lia.
        rewrite firstn_O, app_nil_r. reflexivity. }
      assert (Hs : substringFrom (e + 1) (substringFrom i x ++ y)
                   = substringFrom (e + 1) (substringFrom i x) ++ y).
      { unfold substringFrom at 1 3. rewrite skipn_app.
        replace (e + 1 - length (substringFrom i x)) with 0 by lia.
        reflexivity. }
      rewrite Hf, Hs.
      eapply IH; [| reflexivity].
      subst n. unfold substringFrom. rewrite !length_skipn.
      apply indexOf_Some_lt in Hi. lia.
    + reflexivity.
  - simpl fst. simpl snd.
    rewrite (processBuffer_noise_prefix _ y files Hi).
    apply processBuffer_noise_prefix. now apply cleanNoise_no_brace.
Qed.

(** What the loop leaves in the buffer lets it append nothing more. *)
Lemma processBuffer_settled x files files' :
  snd (processBuffer (fst (processBuffer x files)) files') = files'.
Proof.
  remember (length x) as n eqn:Hn. revert x files Hn.
  induction n as [n IH] using lt_wf_ind. intros x files Hn.
  rewrite (processBuffer_eq x files).
  destruct (indexOf LBRACE x) as [i|] eqn:Hi.
  - cbv zeta.
    assert (H0 : indexOf LBRACE (substringFrom i x) = Some 0)
      by (apply indexOf_skipn; exact Hi).
    destruct (findObjectEnd (substringFrom i x)) as [e|] eqn:He.
    + eapply IH; [| reflexivity].
      subst n. unfold substringFrom. rewrite !length_skipn.
      apply indexOf_Some_lt in Hi. lia.
    + simpl fst. rewrite processBuffer_eq, H0. cbv zeta.
      change (substringFrom 0 (substringFrom i x)) with (substringFrom i x).
      rewrite He. reflexivity.
  - simpl fst. rewrite processBuffer_noise; [reflexivity |].
    now apply cleanNoise_no_brace.
Qed.

Lemma isDelimited_spec objectStr :
  isDelimited objectStr = true ->
  indexOf LBRACE objectStr = Some 0
  /\ findObjectEnd objectStr = Some (length objectStr - 1)
  /\ 0 < length objectStr.
Proof.
  unfold isDelimited.
  destruct (indexOf LBRACE objectStr) as [[|i]|] eqn:Hi; try discriminate.
  destruct (findObjectEnd objectStr) as [e|] eqn:He; try discriminate.
  intros H. apply Nat.eqb_eq in H.
  repeat split; [f_equal; lia | lia].
Qed.

(** A delimited candidate at the front of the buffer is cut out, handed to
    the [try] block, and the loop goes on with what follows it. *)
Lemma processBuffer_candidate objectStr rest files :
  isDelimited objectStr = true ->
  processBuffer (objectStr ++ rest) files
  = processBuffer rest (tryParse objectStr files).
Proof.
  intros H. apply isDelimited_spec in H. destruct H as (Hi & He & Hlen).
  rewrite (processBuffer_eq (objectStr ++ rest)).
  rewrite (indexOf_app_Some _ _ rest Hi). cbv zeta.
  change (substringFrom 0 (objectStr ++ rest)) with (objectStr ++ rest).
  rewrite (findObjectEnd_app _ rest He).
  replace (length objectStr - 1 + 1) with (length objectStr) by lia.
  unfold substringFrom, substringTo.
  rewrite firstn_app, firstn_all, Nat.sub_diag, firstn_O, app_nil_r.
  rewrite skipn_app, skipn_all, Nat.sub_diag, skipn_O. reflexivity.
Qed.

Lemma processBuffer_noise_candidate noise objectStr rest files :
  indexOf LBRACE noise = None ->
  isDelimited objectStr = true ->
  processBuffer (noise ++ objectStr ++ rest) files
  = processBuffer rest (tryParse objectStr files).
Proof.
  intros Hn H. rewrite <- (processBuffer_candidate _ rest files H).
  apply isDelimited_spec in H. destruct H as (Hi & _ & _).
  rewrite (processBuffer_skip (noise ++ objectStr ++ rest) files
             (i := length noise + 0)).
  - unfold substringFrom. rewrite skipn_app.
    replace (length noise + 0 - length noise) with 0 by lia.
    rewrite skipn_all2 by lia. reflexivity.
  - rewrite indexOf_app_None by exact Hn.
    rewrite (indexOf_app_Some _ _ rest Hi). reflexivity.
Qed.

(** The loop over the chunks appends what one run of the loop over their
    concatenation appends, from any buffer the loop has left. *)
Lemma processStream_concat chunks buffer files :
  (forall files', snd (processBuffer buffer files') = files') ->
  snd (processStream JSON_parse chunks (buffer, files))
  = snd (processBuffer (buffer ++ concat chunks) files).
Proof.
  revert buffer files.
  induction chunks as [|chunk chunks IH]; intros buffer files Hsettled.
  - simpl. rewrite app_nil_r. symmetry. apply Hsettled.
  - change (processStream JSON_parse (chunk :: chunks) (buffer, files))
      with (processStream JSON_parse chunks
              (processChunk JSON_parse (buffer, files) chunk)).
    unfold processChunk. cbn [fst snd concat].
    destruct (processBuffer (buffer ++ chunk) files) as [buffer1 files1] eqn:E.
    rewrite IH.
    + rewrite app_assoc.
      rewrite <- (processBuffer_app (buffer ++ chunk) (concat chunks) files).
      rewrite E. reflexivity.
    + intros files'.
      replace buffer1 with (fst (processBuffer (buffer ++ chunk) files))
        by (rewrite E; reflexivity).
      apply processBuffer_settled.
Qed.

Lemma processBuffer_nil files : processBuffer [] files = ([], files).
Proof. rewrite processBuffer_eq. reflexivity. Qed.

Lemma emittedFiles_concat chunks :
  emittedFiles JSON_parse chunks = snd (processBuffer (concat chunks) (Some [])).
Proof.
  unfold emittedFiles. rewrite processStream_concat.
  - reflexivity.
  - intros files'. rewrite processBuffer_nil. reflexivity.
Qed.


Lemma cleanNoise_empty_or_text buffer :
  cleanNoise buffer = [] \/ trim (cleanNoise buffer) <> [].
Proof.
  unfold cleanNoise.
  destruct (negb (includes RBRACE buffer)).
  - destruct (trim (trim (stripFences buffer))) eqn:E; cbn [isEmpty];
      [now left | right; rewrite E; discriminate].
  - destruct (trim buffer) eqn:E; cbn [isEmpty];
      [now left | right; rewrite E; discriminate].
Qed.

(** What the loop leaves in the buffer. *)
Lemma processBuffer_leaves x files :
  let buffer' := fst (processBuffer x files) in
  (indexOf LBRACE buffer' = None /\ (buffer' = [] \/ trim buffer' <> []))
  \/ (indexOf LBRACE buffer' = Some 0 /\ findObjectEnd buffer' = None
      /\ exists consumed, x = consumed ++ buffer').
Proof.
  remember (length x) as n eqn:Hn. revert x files Hn.
  induction n as [n IH] using lt_wf_ind. intros x files Hn.
  rewrite (processBuffer_eq x files).
  destruct (indexOf LBRACE x) as [i|] eqn:Hi.
  - cbv zeta.
    destruct (findObjectEnd (substringFrom i x)) as [e|] eqn:He.
    + edestruct (IH (length (substringFrom (e + 1) (substringFrom i x))))
        as [HA | (H0 & HN & consumed & Hc)]; [| reflexivity | left; exact HA |].
      * subst n. unfold substringFrom. rewrite !length_skipn.
        apply indexOf_Some_lt in Hi. lia.
      * right. split; [exact H0 | split; [exact HN |]].
        exists (firstn i x ++ firstn (e + 1) (substringFrom i x) ++ consumed).
        rewrite <- !app_assoc, <- Hc.
        unfold substringFrom. now rewrite !firstn_skipn.
    + right. cbn [fst]. split; [now apply indexOf_skipn | split; [exact He |]].
      exists (firstn i x). unfold substringFrom. now rewrite firstn_skipn.
  - left. cbn [fst]. split; [now apply cleanNoise_no_brace |].
    apply cleanNoise_empty_or_text.
Qed.

(** Records already accumulated are a prefix of what the loop returns, and
    what it appends does not depend on them. *)
Lemma processBuffer_files_append x fs gs :
  exists new,
    snd (processBuffer x (Some gs)) = Some (gs ++ new)
    /\ snd (processBuffer x (Some (fs ++ gs))) = Some (fs ++ gs ++ new).
Proof.
  remember (length x) as n eqn:Hn. revert x gs Hn.
  induction n as [n IH] using lt_wf_ind. intros x gs Hn.
  rewrite (processBuffer_eq x (Some gs)), (processBuffer_eq x (Some (fs ++ gs))).
  destruct (indexOf LBRACE x) as [i|] eqn:Hi.
  - cbv zeta.
    destruct (findObjectEnd (substringFrom i x)) as [e|] eqn:He.
    + unfold tryParse.
      assert (Hlen : length (substringFrom (e + 1) (substringFrom i x)) < n).
      { subst n. unfold substringFrom. rewrite !length_skipn.
        apply indexOf_Some_lt in Hi. lia. }
      destruct (accepted JSON_parse (substringTo (e + 1) (substringFrom i x)))
        as [file|].
      * unfold appendFile.
        destruct (IH _ Hlen (substringFrom (e + 1) (substringFrom i x))
                    (gs ++ [file]) eq_refl) as (new & H1 & H2).
        exists ([file] ++ new). rewrite H1.
        rewrite <- (app_assoc fs gs [file]), H2.
        now rewrite <- !app_assoc.
      * exact (IH _ Hlen _ gs eq_refl).
    + exists []. now rewrite !app_nil_r.
  - exists []. now rewrite !app_nil_r.
Qed.

Lemma processStream_files_append chunks buffer fs gs :
  exists new,
    snd (processStream JSON_parse chunks (buffer, Some gs)) = Some (gs ++ new)
    /\ snd (processStream JSON_parse chunks (buffer, Some (fs ++ gs)))
       = Some (fs ++ gs ++ new).
Proof.
  revert buffer gs.
  induction chunks as [|chunk chunks IH]; intros buffer gs.
  - exists []. cbn. now rewrite !app_nil_r.
  - change (processStream JSON_parse (chunk :: chunks) (buffer, Some gs))
      with (processStream JSON_parse chunks
              (processBuffer (buffer ++ chunk) (Some gs))).
    change (processStream JSON_parse (chunk :: chunks)
              (buffer, Some (fs ++ gs)))
      with (processStream JSON_parse chunks
              (processBuffer (buffer ++ chunk) (Some (fs ++ gs)))).
    destruct (processBuffer_files_append (buffer ++ chunk) fs gs)
      as (new1 & H1 & H2).
    pose proof (processBuffer_fst (buffer ++ chunk) (Some gs)
                  (Some (fs ++ gs))) as Hb.
    destruct (processBuffer (buffer ++ chunk) (Some gs)) as [b1 r1].
    destruct (processBuffer (buffer ++ chunk) (Some (fs ++ gs))) as [b2 r2].
    cbn [fst snd] in *. subst b2 r1 r2.
    destruct (IH b1 (gs ++ new1)) as (new2 & H3 & H4).
    exists (new1 ++ new2). rewrite H3, H4.
    now rewrite <- !app_assoc.
Qed.

(** C1 (as amended): chunk-split invariance.  For every text and every way
    of cutting it into chunks, the loop of [onAnalyzeRepo] yields the same
    records, in the same order, as for the whole text in one chunk.  In
    particular an object whose braces first balance at its last character
    and that the [try] block accepts yields exactly that one record,
    however it is cut. *)
Theorem chunk_split_invariance :
  forall chunks : list jsstring,
    emittedFiles JSON_parse chunks = emittedFiles JSON_parse [concat chunks]
    /\ (forall file : JsValue,
          isDelimited (concat chunks) = true ->
          accepted JSON_parse (concat chunks) = Some file ->
          emittedFiles JSON_parse chunks = Some [file]).
Proof.
  intros chunks. split.
  - rewrite !emittedFiles_concat. cbn [concat]. now rewrite app_nil_r.
  - intros file Hd Ha. rewrite emittedFiles_concat.
    rewrite <- (app_nil_r (concat chunks)).
    rewrite (processBuffer_candidate _ [] (Some []) Hd).
    rewrite processBuffer_nil. unfold tryParse. rewrite Ha. reflexivity.
Qed.

(** C2 (as amended): candidate validation.  A candidate yields a record
    exactly when [JSON.parse] returns an object whose [path] and [content]
    properties are both truthy, and the record is the parsed object itself;
    any other candidate leaves the records as they are; either way the loop
    goes on with the text after the candidate. *)
Theorem candidate_validation :
  forall objectStr : jsstring,
    (forall file : JsValue,
        accepted JSON_parse objectStr = Some file <->
        JSON_parse objectStr = Some file
        /\ exists members p c,
             file = JObject members
             /\ lookup (str "path") members = Some p
             /\ lookup (str "content") members = Some c
             /\ toBoolean p = true /\ toBoolean c = true)
    /\ (forall files : option (list JsValue),
          tryParse objectStr files
          = match accepted JSON_parse objectStr with
            | Some file =>
                Some (match files with Some fs => fs | None => [] end
                      ++ [file])
            | None => files
            end)
    /\ (forall (noise rest : jsstring) (files : option (list JsValue)),
          indexOf LBRACE noise = None ->
          isDelimited objectStr = true ->
          processBuffer (noise ++ objectStr ++ rest) files
          = processBuffer rest (tryParse objectStr files)).
Proof.
  intros objectStr. split; [| split].
  - intros file. unfold accepted.
    destruct (JSON_parse objectStr) as [v|];
      [| split; [discriminate | intros (Hv & _); discriminate]].
    split.
    + destruct v as [| b | neg coef e | x | items | members];
        cbn [getProperty truthy]; try discriminate.
      destruct (lookup (str "path") members) as [p|] eqn:Hp;
        cbn [truthy]; [| discriminate].
      destruct (toBoolean p) eqn:Tp; [| discriminate].
      destruct (lookup (str "content") members) as [c|] eqn:Hc;
        cbn [truthy]; [| discriminate].
      destruct (toBoolean c) eqn:Tc; [| discriminate].
      intros H. split; [exact H |].
      injection H as <-. now exists members, p, c.
    + intros (Hv & members & p & c & Hf & Hp & Hc & Tp & Tc).
      injection Hv as ->. subst file.
      cbn [getProperty truthy]. rewrite Hp. cbn [truthy]. rewrite Tp, Hc.
      cbn [truthy]. rewrite Tc. reflexivity.
  - intros files. reflexivity.
  - intros noise rest files. apply processBuffer_noise_candidate.
Qed.

End ParserFacts.

(** ** The component *)

Module AppFacts.
Import App.

Local Unset Implicit Arguments.

Local Open Scope task_scope.

(** *** Running a method step by step *)

Lemma bind_fst {A B : Type} (t : Task A) (k : A -> Task B) this :
  fst (bind t k this)
  = match fst (t this) with
    | (Returned a, this1) => fst (k a this1)
    | (Threw e, this1) => (Threw e, this1)
    end.
Proof.
  unfold bind. destruct (t this) as [[[a|e] this1] trace1]; cbn [fst]; auto.
  now destruct (k a this1) as [[r this2] trace2].
Qed.

Lemma tryCatch_fst {A : Type} (t : Task A) (handler : Thrown -> Task A) this :
  fst (tryCatch t handler this)
  = match fst (t this) with
    | (Returned a, this1) => (Returned a, this1)
    | (Threw e, this1) => fst (handler e this1)
    end.
Proof.
  unfold tryCatch. destruct (t this) as [[[a|e] this1] trace1]; cbn [fst]; auto.
  now destruct (handler e this1) as [[r this2] trace2].
Qed.

Lemma write_fst f this : fst (write f this) = (Returned tt, f this).
Proof. reflexivity. Qed.

Lemma await_fst {A : Type} (o : outcome A) this : fst (await o this) = (o, this).
Proof. reflexivity. Qed.

Lemma ret_fst {A : Type} (a : A) this : fst (ret a this) = (Returned a, this).
Proof. reflexivity. Qed.

Ltac exec :=
  repeat (rewrite ?bind_fst, ?tryCatch_fst, ?write_fst, ?await_fst, ?ret_fst;
          unfold updateStatus; cbv beta iota).

(** *** The two loops *)

Lemma set_analysisResult_twice a b this :
  set_analysisResult a (set_analysisResult b this) = set_analysisResult a this.
Proof. reflexivity. Qed.

Lemma set_reimplementedFiles_twice a b this :
  set_reimplementedFiles a (set_reimplementedFiles b this)
  = set_reimplementedFiles a this.
Proof. reflexivity. Qed.

Lemma analysisLoop_result chunks this current :
  analysisResult this = Some current ->
  fst (forEachChunk (fun _ chunk => write (appendChunk chunk)) chunks tt this)
  = (Returned tt, set_analysisResult (Some (current ++ concat chunks)) this).
Proof.
  revert this current.
  induction chunks as [|chunk chunks IH]; intros this current H.
  - cbn. rewrite app_nil_r. destruct this; cbn in *; now subst.
  - cbn [forEachChunk]. exec.
    rewrite (IH (appendChunk chunk this) (current ++ chunk))
      by (unfold appendChunk; cbn; now rewrite H).
    unfold appendChunk.
    rewrite set_analysisResult_twice. cbn [concat]. now rewrite app_assoc.
Qed.

Lemma parseChunk_fst env buffer chunk this :
  fst (parseChunk env buffer chunk this)
  = (Returned (fst (processChunk (JSON_parse env)
                      (buffer, reimplementedFiles this) chunk)),
     set_reimplementedFiles
       (snd (processChunk (JSON_parse env)
               (buffer, reimplementedFiles this) chunk)) this).
Proof.
  unfold parseChunk.
  now destruct (processChunk (JSON_parse env)
                  (buffer, reimplementedFiles this) chunk).
Qed.

Lemma parseLoop_result env chunks buffer this :
  fst (forEachChunk (parseChunk env) chunks buffer this)
  = (Returned (fst (processStream (JSON_parse env) chunks
                      (buffer, reimplementedFiles this))),
     set_reimplementedFiles
       (snd (processStream (JSON_parse env) chunks
               (buffer, reimplementedFiles this))) this).
Proof.
  revert buffer this.
  induction chunks as [|chunk chunks IH]; intros buffer this.
  - cbn. now destruct this.
  - cbn [forEachChunk]. exec. rewrite parseChunk_fst. cbv beta iota.
    rewrite IH. rewrite set_reimplementedFiles_twice.
    change (processStream (JSON_parse env) (chunk :: chunks)
              (buffer, reimplementedFiles this))
      with (processStream (JSON_parse env) chunks
              (processChunk (JSON_parse env)
                 (buffer, reimplementedFiles this) chunk)).
    now destruct (processChunk (JSON_parse env)
                    (buffer, reimplementedFiles this) chunk).
Qed.

(** *** The stages, outcome by outcome *)

Section Stages.

Variables (env : Collaborators) (url token : jsstring).

Lemma fetchStage_url_throws this e :
  GithubService.parseGithubUrl (parseURL env) url = Threw e ->
  fst (fetchStage env url token this) = (Threw e, this).
Proof. intros H. unfold fetchStage. exec. now rewrite H. Qed.

Lemma fetchStage_throws this owner repo e :
  GithubService.parseGithubUrl (parseURL env) url = Returned (owner, repo) ->
  getRepoFiles env owner repo token = Threw e ->
  fst (fetchStage env url token this) = (Threw e, markStatus 1 InProgress this).
Proof.
  intros H1 H2. unfold fetchStage. exec. rewrite H1. exec. now rewrite H2.
Qed.

Lemma fetchStage_returns this allFiles :
  Fetched env url token allFiles ->
  fst (fetchStage env url token this)
  = (Returned allFiles,
     markStatus 1 Complete (markStatus 1 InProgress this)).
Proof.
  intros [owner repo files H1 H2].
  unfold fetchStage. exec. rewrite H1. exec. rewrite H2. now exec.
Qed.

Lemma selectStage_throws this allFiles e :
  selectRelevantFiles env (map GithubService.path allFiles) = Threw e ->
  fst (selectStage env allFiles this) = (Threw e, markStatus 2 InProgress this).
Proof. intros H. unfold selectStage. exec. now rewrite H. Qed.

Lemma selectStage_returns this allFiles relevantFilePaths :
  selectRelevantFiles env (map GithubService.path allFiles)
  = Returned relevantFilePaths ->
  fst (selectStage env allFiles this)
  = (Returned (relevantFilesOf allFiles relevantFilePaths),
     set_fetchedFiles (Some (relevantFilesOf allFiles relevantFilePaths))
       (markStatus 2 Complete (markStatus 2 InProgress this))).
Proof. intros H. unfold selectStage. exec. rewrite H. now exec. Qed.

Lemma analyzeStage_call_throws this relevantFiles e :
  analyzeCode env relevantFiles = Threw e ->
  fst (analyzeStage env relevantFiles this)
  = (Threw e, markStatus 3 InProgress this).
Proof. intros H. unfold analyzeStage. exec. now rewrite H. Qed.

Lemma analysisLoop_from_empty this stream :
  fst (forEachChunk (fun _ chunk => write (appendChunk chunk))
         (chunks stream) tt (set_analysisResult (Some []) this))
  = (Returned tt, set_analysisResult (Some (concat (chunks stream))) this).
Proof.
  now rewrite (analysisLoop_result (chunks stream)
                 (set_analysisResult (Some []) this) [] eq_refl).
Qed.

Lemma analyzeStage_stream_throws this relevantFiles stream e :
  analyzeCode env relevantFiles = Returned stream ->
  ending stream = Some e ->
  fst (analyzeStage env relevantFiles this)
  = (Threw e,
     set_analysisResult (Some (concat (chunks stream)))
       (markStatus 3 InProgress this)).
Proof.
  intros H1 H2. unfold analyzeStage, forAwait. exec. rewrite H1. exec.
  rewrite analysisLoop_from_empty. exec. rewrite H2. now exec.
Qed.

Lemma analyzeStage_returns this relevantFiles stream :
  analyzeCode env relevantFiles = Returned stream ->
  ending stream = None ->
  fst (analyzeStage env relevantFiles this)
  = (Returned tt,
     set_appState Analyzed
       (markStatus 3 Complete
          (set_analysisResult (Some (concat (chunks stream)))
             (markStatus 3 InProgress this)))).
Proof.
  intros H1 H2. unfold analyzeStage, forAwait. exec. rewrite H1. exec.
  rewrite analysisLoop_from_empty. exec. rewrite H2. now exec.
Qed.

Lemma reimplementLoop_from_empty this stream :
  fst (forEachChunk (parseChunk env) (chunks stream) []
         (set_reimplementedFiles (Some []) this))
  = (Returned (fst (processStream (JSON_parse env) (chunks stream)
                      ([], Some []))),
     set_reimplementedFiles (emittedFiles (JSON_parse env) (chunks stream))
       this).
Proof. now rewrite parseLoop_result. Qed.

Lemma reimplementStage_call_throws this relevantFiles e :
  reimplementCode env relevantFiles (analysisResult this) = Threw e ->
  fst (reimplementStage env relevantFiles this)
  = (Threw e, set_reimplementedFiles (Some []) (markStatus 4 InProgress this)).
Proof.
  intros H. unfold reimplementStage. exec. cbn [analysisResult
    set_reimplementedFiles markStatus set_statusSteps].
  rewrite H. now exec.
Qed.

Lemma reimplementStage_stream_throws this relevantFiles stream e :
  reimplementCode env relevantFiles (analysisResult this) = Returned stream ->
  ending stream = Some e ->
  fst (reimplementStage env relevantFiles this)
  = (Threw e,
     set_reimplementedFiles (emittedFiles (JSON_parse env) (chunks stream))
       (markStatus 4 InProgress this)).
Proof.
  intros H1 H2. unfold reimplementStage, forAwait. exec.
  cbn [analysisResult set_reimplementedFiles markStatus set_statusSteps].
  rewrite H1. exec.
  change (App.Build_AppComponent (repoUrl this) (githubToken this)
            (appState this) (errorMessage this) (analysisResult this)
            (Some []) (fetchedFiles this) (expandedFile this)
            (map (fun step =>
                    if Nat.eqb (id step) 4
                    then {| id := id step; text := text step;
                            status := InProgress |}
                    else step) (statusSteps this)))
    with (set_reimplementedFiles (Some []) (markStatus 4 InProgress this)).
  rewrite reimplementLoop_from_empty. exec. rewrite H2. now exec.
Qed.

Lemma reimplementStage_returns this relevantFiles stream :
  reimplementCode env relevantFiles (analysisResult this) = Returned stream ->
  ending stream = None ->
  fst (reimplementStage env relevantFiles this)
  = (Returned tt,
     set_appState Reimplemented
       (markStatus 5 Complete
          (markStatus 4 Complete
             (set_reimplementedFiles
                (emittedFiles (JSON_parse env) (chunks stream))
                (markStatus 4 InProgress this))))).
Proof.
  intros H1 H2. unfold reimplementStage, forAwait. exec.
  cbn [analysisResult set_reimplementedFiles markStatus set_statusSteps].
  rewrite H1. exec.
  change (App.Build_AppComponent (repoUrl this) (githubToken this)
            (appState this) (errorMessage this) (analysisResult this)
            (Some []) (fetchedFiles this) (expandedFile this)
            (map (fun step =>
                    if Nat.eqb (id step) 4
                    then {| id := id step; text := text step;
                            status := InProgress |}
                    else step) (statusSteps this)))
    with (set_reimplementedFiles (Some []) (markStatus 4 InProgress this)).
  rewrite reimplementLoop_from_empty. exec. rewrite H2. now exec.
Qed.

End Stages.

(** [handleError] returns. *)
Lemma handleError_fst message this :
  fst (handleError message this)
  = (Returned tt, finalState (handleError message this)).
Proof.
  unfold finalState.
  destruct (fst (handleError message this)) as [[[]|e] final] eqn:E;
    [reflexivity |].
  exfalso. revert E. unfold handleError. exec.
  destruct (find _ _); exec; discriminate.
Qed.

(** *** The [try] block, scenario by scenario *)

Section Runs.

Variables (env : Collaborators) (url token : jsstring).

Lemma length_eqb_0 {A : Type} (l : list A) :
  l <> [] -> Nat.eqb (length l) 0 = false.
Proof. destruct l; [congruence | reflexivity]. Qed.

Lemma tryBlock_after_select this relevantFiles :
  Selected env url token relevantFiles ->
  fst (tryBlock env url token this)
  = fst ((analyzeStage env relevantFiles ;;
          reimplementStage env relevantFiles)
           (afterSelect relevantFiles this)).
Proof.
  intros [allFiles paths Hf Hne Hs]. unfold tryBlock.
  rewrite bind_fst, (fetchStage_returns env url token this _ Hf). cbv beta iota.
  rewrite (length_eqb_0 _ Hne).
  rewrite bind_fst, (selectStage_returns env _ _ _ Hs). reflexivity.
Qed.

Lemma tryBlock_after_analysis this relevantFiles analysis :
  AnalysisDone env url token relevantFiles analysis ->
  fst (tryBlock env url token this)
  = fst (reimplementStage env relevantFiles
           (afterAnalysis relevantFiles analysis this)).
Proof.
  intros [rf stream Hsel Ha He].
  rewrite (tryBlock_after_select this _ Hsel).
  rewrite bind_fst, (analyzeStage_returns env _ _ _ Ha He). reflexivity.
Qed.

(** The state in which each failure is handled. *)
Lemma guarded_fatal this completed inProgress message :
  FatalError env url token completed inProgress message ->
  exists before,
    fst (guarded env url token this) = fst (handleError message before)
    /\ (statusSteps this = pendingSteps ->
        statusSteps before
        = withStatuses (statusesBeforeFailure completed inProgress))
    /\ (appState before = appState this \/ appState before = Analyzed).
Proof.
  intros HF. unfold guarded. rewrite tryCatch_fst.
  destruct HF as [e H | owner repo e H1 H2 | H | allFiles e Hf Hne H
                 | rf e Hs H | rf stream e Hs H He
                 | rf analysis e Ha H | rf analysis stream e Ha H He].
  - unfold tryBlock. rewrite bind_fst, (fetchStage_url_throws env url token _ _ H).
    exists this. split; [reflexivity |]. split; [| left; reflexivity].
    intros Hp. now rewrite Hp.
  - unfold tryBlock. rewrite bind_fst, (fetchStage_throws env url token _ _ _ _ H1 H2).
    eexists. split; [reflexivity |]. split; [| left; reflexivity].
    intros Hp. cbn. now rewrite Hp.
  - unfold tryBlock. rewrite bind_fst, (fetchStage_returns env url token this _ H).
    cbv beta iota. cbn [length Nat.eqb].
    rewrite handleError_fst.
    exists (afterFetch this). split; [now rewrite handleError_fst |].
    split; [| left; reflexivity].
    intros Hp. cbn. now rewrite Hp.
  - unfold tryBlock. rewrite bind_fst, (fetchStage_returns env url token this _ Hf).
    cbv beta iota. rewrite (length_eqb_0 _ Hne).
    rewrite bind_fst, (selectStage_throws env _ _ _ H).
    eexists. split; [reflexivity |]. split; [| left; reflexivity].
    intros Hp. cbn. now rewrite Hp.
  - rewrite (tryBlock_after_select this _ Hs).
    rewrite bind_fst, (analyzeStage_call_throws env _ _ _ H).
    eexists. split; [reflexivity |]. split; [| left; reflexivity].
    intros Hp. cbn. now rewrite Hp.
  - rewrite (tryBlock_after_select this _ Hs).
    rewrite bind_fst, (analyzeStage_stream_throws env _ _ _ _ H He).
    eexists. split; [reflexivity |]. split; [| left; reflexivity].
    intros Hp. cbn. now rewrite Hp.
  - rewrite (tryBlock_after_analysis this _ _ Ha).
    rewrite (reimplementStage_call_throws env (afterAnalysis rf analysis this) _ _ H).
    eexists. split; [reflexivity |]. split; [| right; reflexivity].
    intros Hp. cbn. now rewrite Hp.
  - rewrite (tryBlock_after_analysis this _ _ Ha).
    rewrite (reimplementStage_stream_throws env (afterAnalysis rf analysis this) _ _ _ H He).
    eexists. split; [reflexivity |]. split; [| right; reflexivity].
    intros Hp. cbn. now rewrite Hp.
Qed.

End Runs.

(** *** What [handleError] leaves *)

Lemma handleError_final message this :
  finalState (handleError message this)
  = set_statusSteps (failInProgress (statusSteps this))
      (set_errorMessage (Some message) (set_appState ErrorState this)).
Proof.
  unfold finalState, handleError. exec.
  unfold failInProgress. cbn [statusSteps set_errorMessage set_appState].
  destruct (find _ (statusSteps this)); exec; [reflexivity |].
  now destruct this.
Qed.

Lemma markFailed_steps k (l : list StatusStep) :
  Forall2 (fun old new =>
             id new = id old /\ text new = text old
             /\ (new = old \/ (status new = Failed /\ id old = k)))
          l
          (map (fun step =>
                  if Nat.eqb (id step) k
                  then {| id := id step; text := text step; status := Failed |}
                  else step) l).
Proof.
  induction l as [|step l IH]; cbn [map]; constructor; [| exact IH].
  destruct (Nat.eqb_spec (id step) k) as [Heq|Hne]; cbn.
  - repeat split. right. now split.
  - repeat split. now left.
Qed.

Lemma failInProgress_steps steps :
  Forall2 (fun old new =>
             id new = id old /\ text new = text old
             /\ (new = old
                 \/ (status new = Failed
                     /\ exists inProgressStep,
                          find (fun s => Status_eqb (status s) InProgress)
                               steps = Some inProgressStep
                          /\ id old = id inProgressStep)))
          steps (failInProgress steps).
Proof.
  unfold failInProgress.
  destruct (find _ steps) as [ip|] eqn:E.
  - eapply Forall2_impl; [| apply (markFailed_steps (id ip))].
    intros old new (Hi & Ht & [H | [Hs Hk]]); repeat split; auto.
    right. split; [exact Hs |]. now exists ip.
  - clear E. induction steps; constructor; [repeat split; now left | assumption].
Qed.

Lemma onAnalyzeRepo_fst env this :
  isEmpty (repoUrl this) = false ->
  fst (onAnalyzeRepo env this)
  = fst (guarded env (repoUrl this) (githubToken this) (afterLoading this)).
Proof.
  intros H. unfold onAnalyzeRepo. rewrite H.
  unfold resetState, started. now exec.
Qed.

Lemma emptyRepositoryMessage_distinct :
  emptyRepositoryMessage <> emptyUrlMessage
  /\ emptyRepositoryMessage <> GithubService.invalidUrlMessage
  /\ emptyRepositoryMessage <> unknownErrorMessage
  /\ forall reason,
       emptyRepositoryMessage <> GithubService.downloadErrorPrefix ++ reason.
Proof. repeat split; try intros reason; discriminate. Qed.

(** A run that fails ends in what [handleError] leaves from the state of
    the failure. *)
Lemma failed_run env this completed inProgress message :
  isEmpty (repoUrl this) = false ->
  FatalError env (repoUrl this) (githubToken this)
             completed inProgress message ->
  exists before,
    finalState (onAnalyzeRepo env this)
    = set_statusSteps (failInProgress (statusSteps before))
        (set_errorMessage (Some message) (set_appState ErrorState before))
    /\ finalState (onAnalyzeRepo env this)
       = finalState (handleError message before)
    /\ statusSteps before
       = withStatuses (statusesBeforeFailure completed inProgress)
    /\ appState before <> ErrorState.
Proof.
  intros Hurl HF.
  destruct (guarded_fatal env _ _ (afterLoading this) _ _ _ HF)
    as (before & Hrun & Hsteps & Hstate).
  exists before.
  assert (Hfinal : finalState (onAnalyzeRepo env this)
                   = finalState (handleError message before)).
  { unfold finalState at 1.
    rewrite (onAnalyzeRepo_fst env this Hurl), Hrun. reflexivity. }
  split; [now rewrite Hfinal, handleError_final |].
  split; [exact Hfinal | split; [exact (Hsteps eq_refl) |]].
  destruct Hstate as [-> | ->]; discriminate.
Qed.

Lemma statuses_after_failure completed inProgress :
  completed <= 3 ->
  map status (failInProgress
                (withStatuses (statusesBeforeFailure completed inProgress)))
  = statusesAfterFailure completed inProgress.
Proof.
  intros H.
  destruct completed as [|[|[|[|n]]]]; [| | | | lia];
    destruct inProgress; reflexivity.
Qed.

Lemma FatalError_completed env url token completed inProgress message :
  FatalError env url token completed inProgress message -> completed <= 3.
Proof. intros []; lia. Qed.

(** C9 (as amended): fatal-error propagation.  Whenever a stage fails (the
    URL does not parse, a collaborator throws, a stream fails, or the
    repository has no readable file, which has a message of its own), the
    run ends in the error state with that one message; the stages completed
    before stay complete, the stage in progress, if there is one, is marked
    as error, and the stages after it are left pending.  A stage is marked
    as error exactly when one was in progress: none is when the URL does
    not parse, where no stage has started, and none is for the empty
    repository, where the first stage is complete already.  The component
    is the one [handleError] leaves from the state in which the failure
    occurred. *)
Theorem fatal_error_propagation :
  forall (env : Collaborators) (this : AppComponent)
         (completed : nat) (inProgress : bool) (message : jsstring),
    isEmpty (repoUrl this) = false ->
    FatalError env (repoUrl this) (githubToken this)
               completed inProgress message ->
    let final := finalState (onAnalyzeRepo env this) in
    appState final = ErrorState
    /\ errorMessage final = Some message
    /\ statuses final = statusesAfterFailure completed inProgress
    /\ (exists before,
          final = finalState (handleError message before)
          /\ statuses before = statusesBeforeFailure completed inProgress
          /\ appState before <> ErrorState)
    /\ (emptyRepositoryMessage <> emptyUrlMessage
        /\ emptyRepositoryMessage <> GithubService.invalidUrlMessage
        /\ emptyRepositoryMessage <> unknownErrorMessage
        /\ forall reason,
             emptyRepositoryMessage
             <> GithubService.downloadErrorPrefix ++ reason)
    /\ (In Failed (statuses final) <-> inProgress = true)
    /\ (inProgress = true ->
        nth_error (statuses final) completed = Some Failed)
    /\ ~ In InProgress (statuses final).
Proof.
  intros env this completed inProgress message Hurl HF final.
  destruct (failed_run env this _ _ _ Hurl HF)
    as (before & Hfinal & Hhandled & Hsteps & Hstate).
  pose proof (FatalError_completed _ _ _ _ _ _ HF) as Hc.
  assert (Hst : statuses final = statusesAfterFailure completed inProgress).
  { subst final. rewrite Hfinal. unfold statuses.
    cbn [statusSteps set_statusSteps]. rewrite Hsteps.
    now apply statuses_after_failure. }
  split; [subst final; now rewrite Hfinal |].
  split; [subst final; now rewrite Hfinal |].
  split; [exact Hst |]. split; [| split; [| split; [| split]]].
  - exists before. split; [exact Hhandled |].
    split; [| exact Hstate].
    unfold statuses. rewrite Hsteps.
    destruct completed as [|[|[|[|n]]]]; [| | | | lia];
      destruct inProgress; reflexivity.
  - exact emptyRepositoryMessage_distinct.
  - rewrite Hst.
    destruct completed as [|[|[|[|n]]]]; [| | | | lia];
      destruct inProgress; cbn; intuition congruence.
  - intros ->. rewrite Hst.
    destruct completed as [|[|[|[|n]]]]; [| | | | lia]; reflexivity.
  - rewrite Hst.
    destruct completed as [|[|[|[|n]]]]; [| | | | lia];
      destruct inProgress; cbn; intuition congruence.
Qed.

(** C4: stream-end truncation.  When the stages before succeed and the
    re-implementation stream ends, the run returns without an error, and
    [reimplementedFiles] holds exactly the records the loop had appended
    when it consumed the last chunk, whatever was left in the buffer. *)
Theorem stream_end_truncation :
  forall (env : Collaborators) (this : AppComponent)
         (relevantFiles : list GithubService.RepoFile)
         (analysis : jsstring) (stream : Stream),
    isEmpty (repoUrl this) = false ->
    AnalysisDone env (repoUrl this) (githubToken this)
                 relevantFiles analysis ->
    reimplementCode env relevantFiles (Some analysis) = Returned stream ->
    ending stream = None ->
    let r := onAnalyzeRepo env this in
    fst (fst r) = Returned tt
    /\ appState (finalState r) = Reimplemented
    /\ errorMessage (finalState r) = None
    /\ reimplementedFiles (finalState r)
       = snd (processStream (JSON_parse env) (chunks stream) ([], Some []))
    /\ statuses (finalState r)
       = [Complete; Complete; Complete; Complete; Complete].
Proof.
  intros env this relevantFiles analysis stream Hurl Ha Hr He r.
  assert (Hrun : fst r
                 = (Returned tt,
                    set_appState Reimplemented
                      (markStatus 5 Complete
                         (markStatus 4 Complete
                            (set_reimplementedFiles
                               (emittedFiles (JSON_parse env) (chunks stream))
                               (markStatus 4 InProgress
                                  (afterAnalysis relevantFiles analysis
                                     (afterLoading this)))))))).
  { subst r. rewrite (onAnalyzeRepo_fst env this Hurl).
    unfold guarded. rewrite tryCatch_fst.
    rewrite (tryBlock_after_analysis env _ _ _ _ _ Ha).
    now rewrite (reimplementStage_returns env
                   (afterAnalysis relevantFiles analysis (afterLoading this))
                   _ _ Hr He). }
  unfold finalState. rewrite Hrun. repeat split.
Qed.

(** C10: the frame of [handleError].  It sets the state to error and the
    message, and gives the status error to the steps carrying the id of
    the first step in progress; the URL, the token, the fetched files, the
    analysis text, the records and the expanded file are left as they are.
    So when the re-implementation stream fails, the records parsed before
    the failure, the analysis and the fetched files are still there. *)
Theorem handleError_frame :
  forall (message : jsstring) (this : AppComponent),
    let final := finalState (handleError message this) in
    (appState final = ErrorState /\ errorMessage final = Some message)
    /\ (repoUrl final = repoUrl this
        /\ githubToken final = githubToken this
        /\ analysisResult final = analysisResult this
        /\ reimplementedFiles final = reimplementedFiles this
        /\ fetchedFiles final = fetchedFiles this
        /\ expandedFile final = expandedFile this)
    /\ Forall2 (fun old new =>
                  id new = id old /\ text new = text old
                  /\ (new = old
                      \/ (status new = Failed
                          /\ exists inProgressStep,
                               find (fun s => Status_eqb (status s) InProgress)
                                    (statusSteps this) = Some inProgressStep
                               /\ id old = id inProgressStep)))
               (statusSteps this) (statusSteps final)
    /\ (forall (env : Collaborators)
               (relevantFiles : list GithubService.RepoFile)
               (analysis : jsstring) (stream : Stream) (e : Thrown),
          isEmpty (repoUrl this) = false ->
          AnalysisDone env (repoUrl this) (githubToken this)
                       relevantFiles analysis ->
          reimplementCode env relevantFiles (Some analysis)
          = Returned stream ->
          ending stream = Some e ->
          let failed := finalState (onAnalyzeRepo env this) in
          reimplementedFiles failed
          = snd (processStream (JSON_parse env) (chunks stream)
                   ([], Some []))
          /\ analysisResult failed = Some analysis
          /\ fetchedFiles failed = Some relevantFiles
          /\ appState failed = ErrorState).
Proof.
  intros message this final. subst final. rewrite handleError_final.
  split; [now split | split; [repeat split | split]].
  - exact (failInProgress_steps (statusSteps this)).
  - intros env relevantFiles analysis stream e Hurl Ha Hr He failed.
    assert (Hrun : fst (onAnalyzeRepo env this)
                   = fst (handleError (messageOf e)
                            (set_reimplementedFiles
                               (emittedFiles (JSON_parse env) (chunks stream))
                               (markStatus 4 InProgress
                                  (afterAnalysis relevantFiles analysis
                                     (afterLoading this)))))).
    { rewrite (onAnalyzeRepo_fst env this Hurl).
      unfold guarded. rewrite tryCatch_fst.
      rewrite (tryBlock_after_analysis env _ _ _ _ _ Ha).
      now rewrite (reimplementStage_stream_throws env
                     (afterAnalysis relevantFiles analysis (afterLoading this))
                     _ _ _ Hr He). }
    subst failed. unfold finalState at 1 2 3 4. rewrite Hrun.
    rewrite handleError_fst. cbn [snd fst]. rewrite handleError_final.
    repeat split.
Qed.

(** *** The moves of the steps along a run *)

Lemma last_nonempty {X : Type} (x : X) l d d' :
  last (x :: l) d = last (x :: l) d'.
Proof.
  revert x. induction l as [|y l IH]; intros x; [reflexivity |].
  change (last (y :: l) d = last (y :: l) d'). apply IH.
Qed.

Lemma last_cons {X : Type} (s : X) l d : last (s :: l) d = last l s.
Proof.
  destruct l as [|x l]; [reflexivity |].
  change (last (x :: l) d = last (x :: l) s). apply last_nonempty.
Qed.

Lemma last_app_state {X : Type} (trace1 trace2 : list X) this :
  last (trace1 ++ trace2) this = last trace2 (last trace1 this).
Proof.
  revert this. induction trace1 as [|s trace1 IH]; intros this;
    [reflexivity |].
  cbn [app]. now rewrite !last_cons, IH.
Qed.

Lemma chain_app R this trace1 trace2 :
  chain R this (trace1 ++ trace2)
  <-> chain R this trace1 /\ chain R (last trace1 this) trace2.
Proof.
  revert this. induction trace1 as [|s trace1 IH]; intros this; cbn [app chain].
  - cbn. tauto.
  - rewrite IH, last_cons. tauto.
Qed.

Section Traced.

Variable R : AppComponent -> AppComponent -> Prop.

Lemma traced_ret {A : Type} (P : AppComponent -> Prop) (a : A) Q E :
  (forall this, P this -> Q a this) -> traced R P (ret a) Q E.
Proof.
  intros H this HP. unfold ret, finalState, traceOf. cbn.
  split; [exact I | split; [reflexivity | exact (H this HP)]].
Qed.

Lemma traced_await {A : Type} (P : AppComponent -> Prop) (o : outcome A) Q E :
  (forall this, P this ->
     match o with Returned a => Q a this | Threw e => E e this end) ->
  traced R P (await o) Q E.
Proof.
  intros H this HP. unfold await, finalState, traceOf. cbn.
  split; [exact I | split; [reflexivity | exact (H this HP)]].
Qed.

Lemma traced_write (P : AppComponent -> Prop) f Q E :
  (forall this, P this -> R this (f this) /\ Q tt (f this)) ->
  traced R P (write f) Q E.
Proof.
  intros H this HP. destruct (H this HP) as [HR HQ].
  unfold write, finalState, traceOf. cbn.
  split; [split; [exact HR | exact I] | split; [reflexivity | exact HQ]].
Qed.

Lemma traced_bind {A B : Type} P (t : Task A) (k : A -> Task B) Q Q' E :
  traced R P t Q E ->
  (forall a, traced R (Q a) (k a) Q' E) ->
  traced R P (bind t k) Q' E.
Proof.
  intros Ht Hk this HP. destruct (Ht this HP) as (Hc & Hl & Hq).
  unfold bind, finalState, traceOf in *.
  destruct (t this) as [[[a|e] this1] trace1]; cbn [fst snd] in *.
  - destruct (Hk a this1 Hq) as (Hc2 & Hl2 & Hq2).
    unfold finalState, traceOf in *.
    destruct (k a this1) as [[r this2] trace2]; cbn [fst snd] in *.
    rewrite chain_app, last_app_state, <- Hl. auto.
  - auto.
Qed.

Lemma traced_tryCatch {A : Type} P (t : Task A) handler Q E E' :
  traced R P t Q E ->
  (forall e, traced R (E e) (handler e) Q E') ->
  traced R P (tryCatch t handler) Q E'.
Proof.
  intros Ht Hh this HP. destruct (Ht this HP) as (Hc & Hl & Hq).
  unfold tryCatch, finalState, traceOf in *.
  destruct (t this) as [[[a|e] this1] trace1]; cbn [fst snd] in *.
  - auto.
  - destruct (Hh e this1 Hq) as (Hc2 & Hl2 & Hq2).
    unfold finalState, traceOf in *.
    destruct (handler e this1) as [[r this2] trace2]; cbn [fst snd] in *.
    rewrite chain_app, last_app_state, <- Hl. auto.
Qed.

Lemma traced_forEachChunk {B : Type} (I : B -> AppComponent -> Prop)
  (body : B -> jsstring -> Task B) E :
  (forall local chunk, traced R (I local) (body local chunk) I E) ->
  forall chunks local, traced R (I local) (forEachChunk body chunks local) I E.
Proof.
  intros Hb chunks. induction chunks as [|chunk chunks IH]; intros local.
  - cbn [forEachChunk]. apply traced_ret. auto.
  - cbn [forEachChunk]. eapply traced_bind; [apply Hb | exact IH].
Qed.

Lemma traced_forAwait {B : Type} (I : B -> AppComponent -> Prop)
  (body : B -> jsstring -> Task B) (E : Thrown -> AppComponent -> Prop)
  stream local :
  (forall local chunk, traced R (I local) (body local chunk) I E) ->
  (forall local e this, I local this -> E e this) ->
  traced R (I local) (forAwait stream body local) I E.
Proof.
  intros Hb HE. unfold forAwait.
  eapply traced_bind; [apply traced_forEachChunk; exact Hb |].
  intros local1. destruct (ending stream) as [e|].
  - apply traced_await. intros this HI. eapply HE; exact HI.
  - apply traced_ret. auto.
Qed.

Lemma traced_weaken {A : Type} (P P' : AppComponent -> Prop) (t : Task A)
  (Q Q' : A -> AppComponent -> Prop) (E E' : Thrown -> AppComponent -> Prop) :
  traced R P t Q E ->
  (forall this, P' this -> P this) ->
  (forall a this, Q a this -> Q' a this) ->
  (forall e this, E e this -> E' e this) ->
  traced R P' t Q' E'.
Proof.
  intros Ht HP HQ HE this HP'. destruct (Ht this (HP this HP')) as (Hc & Hl & Hq).
  repeat split; auto.
  destruct (fst (fst (t this))); auto.
Qed.

End Traced.

(** Along a run each write moves the steps as [stepMove] allows. *)
Section Moves.

Variables (env : Collaborators) (url token : jsstring).

#[local] Abbreviation L := (legalWrite stepMove).

Ltac projections :=
  cbn [statusSteps markStatus set_statusSteps set_appState set_errorMessage
       set_analysisResult set_reimplementedFiles set_fetchedFiles
       set_expandedFile appendChunk].

(** A write from statuses [l] to statuses [l']. *)
Ltac write_ok :=
  let this := fresh "this" in
  let H := fresh "H" in
  intros this H; unfold At in H;
  split;
  [ unfold legalWrite, inProgressCount, fifthIsLast; projections; rewrite H;
    split; [reflexivity | split; [cbn; lia | reflexivity]]
  | unfold At; projections; rewrite ?H; reflexivity ].

Ltac throwing :=
  match goal with
  | H : At ?l ?this |- Throwing ?this =>
      exists l; split; [cbn; tauto | exact H]
  end.

Ltac step l := eapply (traced_bind L _ _ _ (fun _ => At l)).

Lemma fetchStage_moves :
  traced L (At [Pending; Pending; Pending; Pending; Pending])
    (fetchStage env url token)
    (fun _ => At [Complete; Pending; Pending; Pending; Pending])
    (fun _ => Throwing).
Proof.
  unfold fetchStage, updateStatus.
  step [Pending; Pending; Pending; Pending; Pending].
  { apply traced_await. intros this H.
    destruct (GithubService.parseGithubUrl (parseURL env) url);
      [exact H | throwing]. }
  intros [owner repo].
  step [InProgress; Pending; Pending; Pending; Pending].
  { apply traced_write. write_ok. }
  intros _. step [InProgress; Pending; Pending; Pending; Pending].
  { apply traced_await. intros this H.
    destruct (getRepoFiles env owner repo token); [exact H | throwing]. }
  intros allFiles. step [Complete; Pending; Pending; Pending; Pending].
  { apply traced_write. write_ok. }
  intros _. apply traced_ret. auto.
Qed.

Lemma selectStage_moves allFiles :
  traced L (At [Complete; Pending; Pending; Pending; Pending])
    (selectStage env allFiles)
    (fun _ => At [Complete; Complete; Pending; Pending; Pending])
    (fun _ => Throwing).
Proof.
  unfold selectStage, updateStatus.
  step [Complete; InProgress; Pending; Pending; Pending].
  { apply traced_write. write_ok. }
  intros _. step [Complete; InProgress; Pending; Pending; Pending].
  { apply traced_await. intros this H.
    destruct (selectRelevantFiles env _); [exact H | throwing]. }
  intros relevantFilePaths.
  step [Complete; Complete; Pending; Pending; Pending].
  { apply traced_write. write_ok. }
  intros _. step [Complete; Complete; Pending; Pending; Pending].
  { apply traced_write. write_ok. }
  intros _. apply traced_ret. auto.
Qed.

Lemma analyzeStage_moves relevantFiles :
  traced L (At [Complete; Complete; Pending; Pending; Pending])
    (analyzeStage env relevantFiles)
    (fun _ => At [Complete; Complete; Complete; Pending; Pending])
    (fun _ => Throwing).
Proof.
  unfold analyzeStage, updateStatus.
  step [Complete; Complete; InProgress; Pending; Pending].
  { apply traced_write. write_ok. }
  intros _. step [Complete; Complete; InProgress; Pending; Pending].
  { apply traced_await. intros this H.
    destruct (analyzeCode env relevantFiles); [exact H | throwing]. }
  intros analysisStream.
  step [Complete; Complete; InProgress; Pending; Pending].
  { apply traced_write. write_ok. }
  intros _. step [Complete; Complete; InProgress; Pending; Pending].
  { apply (traced_forAwait L
             (fun _ => At [Complete; Complete; InProgress;
                           Pending; Pending])).
    - intros _ chunk. apply traced_write. write_ok.
    - intros _ e this H. throwing. }
  intros _. step [Complete; Complete; Complete; Pending; Pending].
  { apply traced_write. write_ok. }
  intros _. apply traced_write. write_ok.
Qed.

Lemma parseChunk_moves buffer chunk :
  traced L (At [Complete; Complete; Complete; InProgress; Pending])
    (parseChunk env buffer chunk)
    (fun _ => At [Complete; Complete; Complete; InProgress; Pending])
    (fun _ => Throwing).
Proof.
  intros this H. unfold parseChunk, finalState, traceOf.
  destruct (processChunk (JSON_parse env) (buffer, reimplementedFiles this)
              chunk) as [buffer1 files].
  cbn [fst snd chain last].
  assert (HW : L this (set_reimplementedFiles files this)
               /\ At [Complete; Complete; Complete; InProgress; Pending]
                    (set_reimplementedFiles files this)).
  { revert this H. write_ok. }
  destruct HW as [HL HA]. repeat split; auto; apply HL.
Qed.

Lemma reimplementStage_moves relevantFiles :
  traced L (At [Complete; Complete; Complete; Pending; Pending])
    (reimplementStage env relevantFiles)
    (fun _ => At [Complete; Complete; Complete; Complete; Complete])
    (fun _ => Throwing).
Proof.
  unfold reimplementStage, updateStatus.
  step [Complete; Complete; Complete; InProgress; Pending].
  { apply traced_write. write_ok. }
  intros _. step [Complete; Complete; Complete; InProgress; Pending].
  { apply traced_write. write_ok. }
  intros _. step [Complete; Complete; Complete; InProgress; Pending].
  { intros this H. unfold await, finalState, traceOf. cbn [fst snd chain last].
    split; [exact I | split; [reflexivity |]].
    destruct (reimplementCode env relevantFiles (analysisResult this));
      [exact H | throwing]. }
  intros reimplementationStream.
  step [Complete; Complete; Complete; InProgress; Pending].
  { apply (traced_forAwait L
             (fun _ => At [Complete; Complete; Complete;
                           InProgress; Pending])).
    - intros buffer chunk. apply parseChunk_moves.
    - intros _ e this H. throwing. }
  intros _. step [Complete; Complete; Complete; Complete; Pending].
  { apply traced_write. write_ok. }
  intros _. step [Complete; Complete; Complete; Complete; Complete].
  { apply traced_write. write_ok. }
  intros _. apply traced_write. write_ok.
Qed.

Lemma handleError_moves message :
  traced L Failing (handleError message)
    (fun _ _ => True) (fun _ _ => False).
Proof.
  intros this (l & Hin & Hl). revert this Hl.
  change (traced L (At l) (handleError message)
            (fun _ _ => True) (fun _ _ => False)).
  unfold handleError. step l; [apply traced_write; try write_ok |].
  2: { intros _. step l; [apply traced_write |].
       2: { intros _ this H. unfold At in H.
            unfold finalState, traceOf. rewrite H.
            cbn in Hin.
            destruct Hin as [<-|[<-|[<-|[<-|[<-|[<-|[]]]]]]];
              cbn [withStatuses pendingSteps combine map find status
                   Status_eqb fst snd id text updateStatus write ret
                   chain last];
              repeat split; try exact I;
              unfold inProgressCount, fifthIsLast; projections; rewrite H;
              cbn; lia. }
       all: cbn in Hin;
         destruct Hin as [<-|[<-|[<-|[<-|[<-|[<-|[]]]]]]]; write_ok. }
  all: cbn in Hin;
    destruct Hin as [<-|[<-|[<-|[<-|[<-|[<-|[]]]]]]]; write_ok.
Qed.

Lemma tryBlock_moves :
  traced L (At [Pending; Pending; Pending; Pending; Pending])
    (tryBlock env url token) (fun _ _ => True) (fun _ => Throwing).
Proof.
  unfold tryBlock.
  step [Complete; Pending; Pending; Pending; Pending];
    [apply fetchStage_moves |].
  intros allFiles. destruct (Nat.eqb (length allFiles) 0).
  - eapply traced_weaken; [apply handleError_moves | | auto | ].
    + intros this H. exists [Complete; Pending; Pending; Pending; Pending].
      split; [cbn; tauto | exact H].
    + intros e this [].
  - step [Complete; Complete; Pending; Pending; Pending];
      [apply selectStage_moves |].
    intros relevantFiles.
    step [Complete; Complete; Complete; Pending; Pending];
      [apply analyzeStage_moves |].
    intros _. eapply traced_weaken; [apply reimplementStage_moves | | | ];
      auto.
Qed.

Lemma started_moves :
  traced L (At [Pending; Pending; Pending; Pending; Pending])
    (started env url token) (fun _ _ => True) (fun _ _ => False).
Proof.
  unfold started, guarded.
  step [Pending; Pending; Pending; Pending; Pending];
    [apply traced_write; write_ok |].
  intros _. eapply traced_tryCatch; [apply tryBlock_moves |].
  intros e. eapply traced_weaken; [apply handleError_moves | | auto | auto].
  intros this (l & Hin & Hl). exists l. split; [now right | exact Hl].
Qed.

End Moves.

Lemma bind_trace {A B : Type} (t : Task A) (k : A -> Task B) this a this1 :
  fst (t this) = (Returned a, this1) ->
  traceOf (bind t k this) = traceOf (t this) ++ traceOf (k a this1).
Proof.
  unfold bind, traceOf. destruct (t this) as [[r s1] trace1]. cbn [fst snd].
  intros [= -> ->]. now destruct (k a this1) as [[r2 s2] trace2].
Qed.

Lemma chain_Forall (R : AppComponent -> AppComponent -> Prop)
  (Q : AppComponent -> Prop) this trace :
  (forall s s', R s s' -> Q s') ->
  chain R this trace -> Forall Q trace.
Proof.
  intros HQ. revert this.
  induction trace as [|s trace IH]; intros this; cbn [chain];
    [constructor |].
  intros [HR Hc]. constructor; [exact (HQ _ _ HR) | exact (IH _ Hc)].
Qed.

(** The fifth step is pending, or complete together with all the others. *)
Lemma fifthIsLast_spec this :
  fifthIsLast this = true ->
  forall step, In step (statusSteps this) -> id step = 5 ->
    status step = Pending
    \/ (status step = Complete
        /\ Forall (fun s => status s = Complete) (statusSteps this)).
Proof.
  unfold fifthIsLast. intros H step Hin Hid.
  apply orb_true_iff in H. destruct H as [H | H].
  - rewrite forallb_forall in H. specialize (H step Hin).
    rewrite Hid in H. cbn in H. left. now destruct (status step).
  - rewrite forallb_forall in H. right.
    assert (Hall : forall s, In s (statusSteps this) -> status s = Complete).
    { intros s Hs. specialize (H s Hs). now destruct (status s). }
    split; [exact (Hall step Hin) | now apply Forall_forall].
Qed.

(** C5 (as amended): the moves of the stages.  A run (the URL is not
    empty) first resets the component: all five stages are pending and the
    message, the analysis, the records, the fetched files and the expanded
    file are cleared.  From there on every write leaves each of the stages
    1 to 4 as it is or moves it from pending to in-progress or from
    in-progress to complete or to error; the fifth stage is never in
    progress and never in error: it stays pending, or goes from pending to
    complete directly, and it is complete only in states in which all
    five stages are.  A stage that is complete or in error stays so, and
    at most one stage is in progress in every state. *)
Theorem stage_transitions :
  forall (env : Collaborators) (this : AppComponent),
    isEmpty (repoUrl this) = false ->
    let reset := afterReset this in
    let body :=
      traceOf (started env (repoUrl this) (githubToken this) reset) in
    traceOf (onAnalyzeRepo env this) = traceOf (resetState this) ++ body
    /\ finalState (resetState this) = reset
    /\ (statusSteps reset = pendingSteps
        /\ appState reset = Idle
        /\ errorMessage reset = None
        /\ analysisResult reset = None
        /\ reimplementedFiles reset = None
        /\ fetchedFiles reset = None
        /\ expandedFile reset = None)
    /\ chain (legalWrite stepMove) reset body
    /\ Forall (fun s => inProgressCount s <= 1) (reset :: body)
    /\ Forall (fun s =>
                 forall step, In step (statusSteps s) -> id step = 5 ->
                   status step = Pending
                   \/ (status step = Complete
                       /\ Forall (fun t => status t = Complete)
                                 (statusSteps s)))
              (reset :: body)
    /\ (forall stage old new,
          stepMove stage old new = true ->
          (old = Complete \/ old = Failed -> new = old)
          /\ (stage = 5 -> new <> InProgress /\ new <> Failed)
          /\ (stage <> 5 -> old = Pending -> new <> Complete)).
Proof.
  intros env this Hurl reset body.
  assert (Hchain : chain (legalWrite stepMove) reset body).
  { apply (started_moves env (repoUrl this) (githubToken this) reset).
    reflexivity. }
  split; [| split; [reflexivity | split; [repeat split | split;
    [| split; [| split]]]]].
  - unfold onAnalyzeRepo. rewrite Hurl. subst body reset.
    apply (bind_trace resetState
             (fun _ => started env (repoUrl this) (githubToken this))
             this tt (afterReset this)).
    reflexivity.
  - exact Hchain.
  - constructor; [cbn; lia |].
    eapply chain_Forall; [| exact Hchain]. intros s s' [_ [H _]]. exact H.
  - constructor; [apply fifthIsLast_spec; reflexivity |].
    eapply chain_Forall; [| exact Hchain]. intros s s' [_ [_ H]].
    now apply fifthIsLast_spec.
  - intros stage old new H. unfold stepMove in H.
    destruct (Nat.eqb_spec stage 5) as [-> | Hne];
      destruct old, new; try discriminate;
      repeat split; try discriminate; try congruence;
      intros [? | ?]; congruence.
Qed.

End AppFacts.

(** ** The fetch helper *)

Module GithubFacts.
Import GithubService.

Local Unset Implicit Arguments.

Section Fetch.

Variable net : Network.

(** A response below 500 is returned at once. *)
Lemma performFetch_returns_at_once request retries backoff w response :
  net (attempts w) request = Returned response ->
  (status response < 500)%N ->
  performFetch net request retries backoff w
  = (Returned response, {| attempts := S (attempts w); waits := waits w |}).
Proof.
  intros H Hs. destruct retries as [|retries]; cbn [performFetch]; rewrite H;
    [reflexivity |].
  now replace (N.leb 500 (status response)) with false
    by (symmetry; apply N.leb_gt; exact Hs).
Qed.

(** Any other thrown value than the TypeError of a failed fetch is thrown
    on at once. *)
Lemma performFetch_rethrows_at_once request retries backoff w e :
  net (attempts w) request = Threw e ->
  isFailedToFetch e = false ->
  performFetch net request retries backoff w
  = (Threw e, {| attempts := S (attempts w); waits := waits w |}).
Proof.
  intros H He. destruct retries; cbn [performFetch]; now rewrite H, He.
Qed.

(** The attempts and the delays of a call. *)
Lemma performFetch_bounded request retries backoff w :
  exists k,
    k <= retries
    /\ attempts (snd (performFetch net request retries backoff w))
       = attempts w + k + 1
    /\ waits (snd (performFetch net request retries backoff w))
       = waits w ++ backoffs backoff k.
Proof.
  revert backoff w. induction retries as [|retries IH]; intros backoff w.
  - exists 0. cbn [performFetch backoffs].
    destruct (net (attempts w) request) as [response|e];
      [| destruct (isFailedToFetch e)]; cbn; rewrite app_nil_r;
      repeat split; lia.
  - assert (Hretry :
      exists k, k <= S retries
        /\ attempts (snd (performFetch net request retries (backoff * 2)
                            (sleep backoff
                               {| attempts := S (attempts w);
                                  waits := waits w |})))
           = attempts w + k + 1
        /\ waits (snd (performFetch net request retries (backoff * 2)
                         (sleep backoff
                            {| attempts := S (attempts w);
                               waits := waits w |})))
           = waits w ++ backoffs backoff k).
    { destruct (IH (backoff * 2)%Z
                  (sleep backoff {| attempts := S (attempts w);
                                    waits := waits w |}))
        as (k & Hk & Ha & Hw).
      exists (S k). cbn [sleep attempts waits] in *. rewrite Ha, Hw.
      cbn [backoffs]. rewrite <- app_assoc. repeat split; lia. }
    assert (Hstop : forall r : outcome Response,
      exists k, k <= S retries
        /\ attempts (snd (r, {| attempts := S (attempts w);
                                waits := waits w |}))
           = attempts w + k + 1
        /\ waits (snd (r, {| attempts := S (attempts w);
                             waits := waits w |}))
           = waits w ++ backoffs backoff k).
    { intros r. exists 0. cbn. rewrite app_nil_r. repeat split; lia. }
    cbn [performFetch].
    destruct (net (attempts w) request) as [response|e].
    + destruct (N.leb 500 (status response)); [exact Hretry | apply Hstop].
    + destruct (isFailedToFetch e); [exact Hretry | apply Hstop].
Qed.

(** A delay is awaited only after a response of 500 or more or after the
    TypeError of a failed fetch. *)
Lemma performFetch_waits_only_when request retries backoff w :
  waits (snd (performFetch net request retries backoff w)) <> waits w ->
  (exists response,
      net (attempts w) request = Returned response
      /\ (500 <= status response)%N)
  \/ (net (attempts w) request
      = Threw (ErrorObject true (str "Failed to fetch"))).
Proof.
  intros H.
  destruct (net (attempts w) request) as [response|e] eqn:E.
  - destruct (N.leb_spec 500 (status response)) as [Hs|Hs].
    + left. now exists response.
    + exfalso. apply H.
      now rewrite (performFetch_returns_at_once _ _ _ _ _ E Hs).
  - destruct (isFailedToFetch e) eqn:He.
    + right. destruct e as [[|] message|text]; try discriminate.
      cbn in He. apply eqb_eq in He. now subst message.
    + exfalso. apply H.
      now rewrite (performFetch_rethrows_at_once _ _ _ _ _ E He).
Qed.

End Fetch.

(** C7: exponential backoff on transient failure.  When the first two
    attempts answer 503 and the third answers 200, [performFetch] returns
    the third response after three attempts and exactly two delays, 300
    and then 600 milliseconds, the second longer than the first.  In every
    call the delays double from one retry to the next and there are at
    most [retries] of them, three by default. *)
Theorem backoff_on_transient_failure :
  forall (net : Network) (request : Request) (w : World)
         (r1 r2 r3 : Response),
    net (attempts w) request = Returned r1 -> status r1 = 503%N ->
    net (S (attempts w)) request = Returned r2 -> status r2 = 503%N ->
    net (S (S (attempts w))) request = Returned r3 -> status r3 = 200%N ->
    performFetch net request defaultRetries defaultBackoff w
    = (Returned r3,
       {| attempts := S (S (S (attempts w)));
          waits := waits w ++ [300; 600]%Z |})
    /\ (300 < 600)%Z
    /\ forall (request' : Request) (retries : nat) (backoff : Z)
              (w' : World),
         exists k,
           k <= retries
           /\ attempts (snd (performFetch net request' retries backoff w'))
              = attempts w' + k + 1
           /\ waits (snd (performFetch net request' retries backoff w'))
              = waits w' ++ backoffs backoff k.
Proof.
  intros net request w r1 r2 r3 H1 S1 H2 S2 H3 S3.
  split; [| split; [reflexivity | intros; apply performFetch_bounded]].
  unfold defaultRetries, defaultBackoff. cbn [performFetch].
  rewrite H1, S1. cbn [N.leb N.compare Pos.compare Pos.compare_cont sleep
                       attempts waits].
  rewrite H2, S2. cbn [N.leb N.compare Pos.compare Pos.compare_cont sleep
                       attempts waits].
  rewrite H3, S3. cbn [N.leb N.compare Pos.compare Pos.compare_cont sleep
                       attempts waits].
  now rewrite <- app_assoc.
Qed.

Lemma not_found_distinct :
  notFoundMessage <> rateLimitMessage
  /\ notFoundMessage <> invalidTokenMessage
  /\ notFoundMessage <> noDefaultBranchMessage
  /\ notFoundMessage <> networkErrorMessage.
Proof. repeat split; discriminate. Qed.

(** C6: a 404 is not retried.  When the request for the repository details
    answers 404, [getRepoFiles] fails after that one attempt, without any
    delay, with the message that the repository was not found, and a run
    that gets this failure ends in the error state with that message and
    the first stage in error.  More generally [performFetch] returns a
    response below 500 (such as 404, 401 and 403) at once, and awaits a
    delay only after a response of 500 or more or a failed fetch. *)
Theorem not_found_is_not_retried :
  forall (net : Network) (nullPropertyMessage : jsstring)
         (downloadTree :
            jsstring -> jsstring -> jsstring -> JsValue ->
            IO (list RepoFile))
         (owner repo token : jsstring) (w : World) (response : Response),
    net (attempts w) (detailsRequest owner repo token) = Returned response ->
    status response = 404%N ->
    getRepoFiles net nullPropertyMessage downloadTree owner repo token w
    = (Threw (newError (downloadErrorPrefix ++ notFoundMessage)),
       {| attempts := S (attempts w); waits := waits w |})
    /\ (forall (env : App.Collaborators) (this : App.AppComponent),
          isEmpty (App.repoUrl this) = false ->
          App.githubToken this = token ->
          parseGithubUrl (App.parseURL env) (App.repoUrl this)
          = Returned (owner, repo) ->
          App.getRepoFiles env owner repo token
          = fst (getRepoFiles net nullPropertyMessage downloadTree
                   owner repo token w) ->
          let final := App.finalState (App.onAnalyzeRepo env this) in
          App.appState final = App.ErrorState
          /\ App.errorMessage final
             = Some (downloadErrorPrefix ++ notFoundMessage)
          /\ App.statuses final
             = [App.Failed; App.Pending; App.Pending; App.Pending;
                App.Pending])
    /\ (forall (request : Request) (retries : nat) (backoff : Z)
               (w0 : World) (response0 : Response),
          net (attempts w0) request = Returned response0 ->
          (status response0 < 500)%N ->
          performFetch net request retries backoff w0
          = (Returned response0,
             {| attempts := S (attempts w0); waits := waits w0 |}))
    /\ (forall (request : Request) (retries : nat) (backoff : Z)
               (w0 : World),
          waits (snd (performFetch net request retries backoff w0))
          <> waits w0 ->
          (exists response0,
              net (attempts w0) request = Returned response0
              /\ (500 <= status response0)%N)
          \/ net (attempts w0) request
             = Threw (ErrorObject true (str "Failed to fetch")))
    /\ (notFoundMessage <> rateLimitMessage
        /\ notFoundMessage <> invalidTokenMessage
        /\ notFoundMessage <> noDefaultBranchMessage
        /\ notFoundMessage <> networkErrorMessage).
Proof.
  intros net nullPropertyMessage downloadTree owner repo token w response
         Hnet Hstatus.
  assert (Hfetch :
    getRepoFiles net nullPropertyMessage downloadTree owner repo token w
    = (Threw (newError (downloadErrorPrefix ++ notFoundMessage)),
       {| attempts := S (attempts w); waits := waits w |})).
  { unfold getRepoFiles, getDefaultBranch.
    change {| url := GITHUB_API_BASE ++ str "/" ++ owner ++ str "/" ++ repo;
              headers := getHeaders token |}
      with (detailsRequest owner repo token).
    rewrite (performFetch_returns_at_once net _ _ _ _ _ Hnet)
      by (rewrite Hstatus; reflexivity).
    unfold ok. rewrite Hstatus. reflexivity. }
  split; [exact Hfetch | split; [| split; [| split]]].
  - intros env this Hurl Htoken Hparse Hget final.
    rewrite Hfetch in Hget. cbn [fst] in Hget. subst token.
    destruct (AppFacts.failed_run env this 0 true _ Hurl
                (@App.fatal_fetch env _ _ _ _ _ Hparse Hget))
      as (before & Hfinal & _ & Hsteps & _).
    subst final. rewrite Hfinal.
    split; [reflexivity | split; [reflexivity |]].
    unfold App.statuses.
    cbn [App.statusSteps App.set_statusSteps]. rewrite Hsteps. reflexivity.
  - intros request retries backoff w0 response0 H Hs.
    exact (performFetch_returns_at_once net _ retries backoff _ _ H Hs).
  - intros request retries backoff w0 H.
    exact (performFetch_waits_only_when net _ retries backoff _ H).
  - exact not_found_distinct.
Qed.

End GithubFacts.

(** ** Runs of the parser with [JSON.parse] *)

(** The two scenarios of the specification. *)
Example scenario_objects_across_chunks :
  emittedFiles JSON.parse
    [ quoted "{'path':'a.";
      quoted "ts','content':'x'}" ++ LF ++ quoted "{'path':'b.ts',";
      quoted "'content':'y'}" ]
  = Some [ pathContent (str "a.ts") (str "x");
           pathContent (str "b.ts") (str "y") ].
Proof. vm_compute. reflexivity. Qed.

Example scenario_fenced_object :
  emittedFiles JSON.parse
    [ str "```json" ++ LF ++ quoted "{'path':'a.ts','content':'z'}"
      ++ str "```" ]
  = Some [ pathContent (str "a.ts") (str "z") ].
Proof. vm_compute. reflexivity. Qed.

(** A malformed candidate between two valid ones is dropped. *)
Example scenario_malformed_between :
  emittedFiles JSON.parse
    [ quoted "{'path':'a.ts','content':'x'}{'path':}{'path':'b.ts','content':'y'}" ]
  = Some [ pathContent (str "a.ts") (str "x");
           pathContent (str "b.ts") (str "y") ].
Proof. vm_compute. reflexivity. Qed.

Lemma chunk_split_invariance_witness :
  let chunks := [quoted "{'path':'a."; quoted "ts','content':'x'}"] in
  isDelimited (concat chunks) = true
  /\ accepted JSON.parse (concat chunks)
     = Some (pathContent (str "a.ts") (str "x"))
  /\ emittedFiles JSON.parse chunks
     = Some [pathContent (str "a.ts") (str "x")].
Proof.
  cbv zeta. split; [reflexivity | split; [reflexivity |]].
  apply (proj2 (chunk_split_invariance JSON.parse _)); reflexivity.
Defined.

(** C1 as stated fails: a valid object with the two non-empty string
    fields, whose content holds a closing brace, yields no record. *)
Lemma single_object_counterexample :
  ~ (forall (object : jsstring) (chunks : list jsstring) (file : JsValue),
        JSON.parse object = Some file ->
        specValidRecord file = true ->
        concat chunks = object ->
        Forall (fun chunk => chunk <> []) chunks ->
        emittedFiles JSON.parse chunks = Some [file]).
Proof.
  intros H.
  specialize (H (quoted "{'path':'a','content':'}'}")
                [quoted "{'path':'a','con"; quoted "tent':'}'}"]
                (pathContent (str "a") (str "}"))
                eq_refl eq_refl eq_refl).
  assert (Hne : Forall (fun chunk : jsstring => chunk <> [])
                  [quoted "{'path':'a','con"; quoted "tent':'}'}"])
    by (repeat constructor; discriminate).
  specialize (H Hne). vm_compute in H. discriminate.
Qed.

Lemma candidate_validation_witness :
  let noise := str "```json" ++ LF in
  let objectStr := quoted "{'path':'a.ts','content':'z'}" in
  let rest := str "```" in
  indexOf LBRACE noise = None
  /\ isDelimited objectStr = true
  /\ processBuffer JSON.parse (noise ++ objectStr ++ rest) (Some [])
     = processBuffer JSON.parse rest (tryParse JSON.parse objectStr (Some [])).
Proof.
  cbv zeta. split; [reflexivity | split; [reflexivity |]].
  apply (proj2 (proj2 (candidate_validation JSON.parse _))); reflexivity.
Defined.

(** C2 as stated fails: candidates with a third field, or with fields that
    are no strings, yield a record. *)
Lemma candidate_validation_counterexample :
  ~ (forall objectStr : jsstring,
        isDelimited objectStr = true ->
        (accepted JSON.parse objectStr <> None <->
         exists v, JSON.parse objectStr = Some v
                   /\ specValidRecord v = true)).
Proof.
  intros H.
  destruct (H (quoted "{'path':'a.ts','content':'x','mode':'644'}") eq_refl)
    as [H1 _].
  destruct H1 as (v & Hv & Hs); [vm_compute; discriminate |].
  vm_compute in Hv. injection Hv as <-. vm_compute in Hs. discriminate.
Qed.

Example non_string_fields_accepted :
  emittedFiles JSON.parse [quoted "{'path':1,'content':[]}"]
  = Some [JObject [(str "path", JNumber false 1 0);
                   (str "content", JArray [])]].
Proof. vm_compute. reflexivity. Qed.




(** ** Runs of the fetch helper and of the component *)

Module Runs.
Import GithubService App.

Lemma backoff_on_transient_failure_witness :
  let request := detailsRequest (str "angular") (str "angular") [] in
  flakyNetwork 0 request = Returned (plainResponse 503)
  /\ flakyNetwork 1 request = Returned (plainResponse 503)
  /\ flakyNetwork 2 request = Returned (plainResponse 200)
  /\ performFetch flakyNetwork request defaultRetries defaultBackoff
       initialWorld
     = (Returned (plainResponse 200),
        {| attempts := 3; waits := [300; 600]%Z |}).
Proof.
  cbv zeta. repeat (split; [reflexivity |]).
  exact (proj1 (GithubFacts.backoff_on_transient_failure flakyNetwork
                  (detailsRequest (str "angular") (str "angular") [])
                  initialWorld _ _ _
                  eq_refl eq_refl eq_refl eq_refl eq_refl eq_refl)).
Defined.

Lemma not_found_is_not_retried_witness :
  notFoundNetwork 0 (detailsRequest (str "angular") (str "missing") [])
  = Returned (plainResponse 404)
  /\ GithubService.getRepoFiles notFoundNetwork [] noDownload
       (str "angular") (str "missing") [] initialWorld
     = (Threw (newError (downloadErrorPrefix ++ notFoundMessage)),
        {| attempts := 1; waits := [] |}).
Proof.
  split; [reflexivity |].
  exact (proj1 (GithubFacts.not_found_is_not_retried notFoundNetwork []
                  noDownload (str "angular") (str "missing") [] initialWorld
                  (plainResponse 404) eq_refl eq_refl)).
Defined.

(** The stages before the re-implementation succeed with [answering]. *)
Lemma answering_analysis_done reimplementation :
  AnalysisDone (answering reimplementation)
    (repoUrl initialComponent) (githubToken initialComponent)
    [sampleFile] (str "# Report").
Proof.
  exact (@analyzed (answering reimplementation) _ _ _
           (endedStream [str "# Report"])
           (@selected (answering reimplementation) _ _
              [sampleFile] [str "main.ts"]
              (@fetched (answering reimplementation) _ _
                 (str "angular") (str "angular") [sampleFile]
                 eq_refl eq_refl)
              ltac:(discriminate) eq_refl)
           eq_refl eq_refl).
Defined.

Lemma stream_end_truncation_witness :
  let r := onAnalyzeRepo (answering truncatedStream) initialComponent in
  fst (processStream JSON.parse (chunks truncatedStream) ([], Some []))
  = quoted "{'path':'b.ts','con"
  /\ fst (fst r) = Returned tt
  /\ appState (finalState r) = Reimplemented
  /\ reimplementedFiles (finalState r)
     = Some [pathContent (str "a.ts") (str "x")].
Proof.
  cbv zeta. split; [vm_compute; reflexivity |].
  destruct (AppFacts.stream_end_truncation (answering truncatedStream)
              initialComponent [sampleFile] (str "# Report") truncatedStream
              eq_refl (answering_analysis_done truncatedStream)
              eq_refl eq_refl) as (H1 & H2 & _ & H4 & _).
  split; [exact H1 | split; [exact H2 |]].
  rewrite H4. vm_compute. reflexivity.
Defined.

Lemma stage_transitions_witness :
  let env := answering truncatedStream in
  let reset := afterReset initialComponent in
  isEmpty (repoUrl initialComponent) = false
  /\ chain (legalWrite stepMove) reset
       (traceOf (started env (repoUrl initialComponent)
                   (githubToken initialComponent) reset)).
Proof.
  cbv zeta. split; [reflexivity |].
  exact (proj1 (proj2 (proj2 (proj2
           (AppFacts.stage_transitions (answering truncatedStream)
              initialComponent eq_refl))))).
Defined.

(** C5 as stated fails: in a run that succeeds the fifth stage goes from
    pending to complete without having been in progress. *)
Lemma stage_five_counterexample :
  ~ (forall (env : Collaborators) (this : AppComponent),
        isEmpty (repoUrl this) = false ->
        chain (legalWrite (fun _ => specStepMove)) (afterReset this)
          (traceOf (started env (repoUrl this) (githubToken this)
                      (afterReset this)))).
Proof.
  intros H.
  specialize (H (answering (endedStream [])) initialComponent eq_refl).
  vm_compute in H.
  repeat match goal with
         | H : _ /\ _ |- _ => destruct H
         end.
  discriminate.
Qed.

Lemma fatal_error_propagation_witness :
  let final := finalState (onAnalyzeRepo offline initialComponent) in
  isEmpty (repoUrl initialComponent) = false
  /\ appState final = ErrorState
  /\ errorMessage final
     = Some (str "Could not download repository. Reason: offline")
  /\ statuses final = [Failed; Pending; Pending; Pending; Pending].
Proof.
  cbv zeta. split; [reflexivity |].
  destruct (AppFacts.fatal_error_propagation offline initialComponent
              0 true _ eq_refl
              (@fatal_fetch offline _ _ (str "angular") (str "angular")
                 (newError (str "Could not download repository. Reason: offline"))
                 eq_refl eq_refl))
    as (H1 & H2 & H3 & _).
  exact (conj H1 (conj H2 H3)).
Defined.

(** C9 as stated fails: when the repository has no readable file the run
    ends in the error state with the first stage complete and no stage
    marked as error. *)
Lemma empty_repository_counterexample :
  let env := AppMethods.emptyRepository in
  let this := initialComponent in
  let final := finalState (onAnalyzeRepo env this) in
  FatalError env (repoUrl this) (githubToken this)
             1 false emptyRepositoryMessage
  /\ appState final = ErrorState
  /\ errorMessage final = Some emptyRepositoryMessage
  /\ statuses final = [Complete; Pending; Pending; Pending; Pending]
  /\ ~ (forall (env : Collaborators) (this : AppComponent)
               (completed : nat) (inProgress : bool) (message : jsstring),
           isEmpty (repoUrl this) = false ->
           FatalError env (repoUrl this) (githubToken this)
                      completed inProgress message ->
           In Failed (statuses (finalState (onAnalyzeRepo env this)))).
Proof.
  cbv zeta.
  assert (HF : FatalError AppMethods.emptyRepository
                 (repoUrl initialComponent) (githubToken initialComponent)
                 1 false emptyRepositoryMessage).
  { exact (@fatal_empty AppMethods.emptyRepository _ _
             (@fetched AppMethods.emptyRepository _ _
                (str "angular") (str "angular") [] eq_refl eq_refl)). }
  split; [exact HF |].
  split; [vm_compute; reflexivity |].
  split; [vm_compute; reflexivity |].
  split; [vm_compute; reflexivity |].
  intros H.
  specialize (H AppMethods.emptyRepository initialComponent 1 false
                emptyRepositoryMessage eq_refl HF).
  vm_compute in H.
  repeat (destruct H as [H | H]; [discriminate |]). exact H.
Qed.

Lemma handleError_frame_witness :
  let failed :=
    finalState (onAnalyzeRepo (answering brokenStream) initialComponent) in
  isEmpty (repoUrl initialComponent) = false
  /\ appState failed = ErrorState
  /\ analysisResult failed = Some (str "# Report")
  /\ fetchedFiles failed = Some [sampleFile]
  /\ reimplementedFiles failed = Some [pathContent (str "a.ts") (str "x")].
Proof.
  cbv zeta. split; [reflexivity |].
  destruct (proj2 (proj2 (proj2
              (AppFacts.handleError_frame [] initialComponent)))
              (answering brokenStream) [sampleFile] (str "# Report")
              brokenStream (newError (str "stream interrupted"))
              eq_refl (answering_analysis_done brokenStream)
              eq_refl eq_refl) as (H1 & H2 & H3 & H4).
  split; [exact H4 | split; [exact H2 | split; [exact H3 |]]].
  rewrite H1. vm_compute. reflexivity.
Defined.

(** The whole run on the first scenario of the specification. *)
Example run_of_the_scenario :
  let stream :=
    endedStream
      [ quoted "{'path':'a.";
        quoted "ts','content':'x'}" ++ LF ++ quoted "{'path':'b.ts',";
        quoted "'content':'y'}" ] in
  let final := finalState (onAnalyzeRepo (answering stream) initialComponent) in
  appState final = Reimplemented
  /\ statuses final = [Complete; Complete; Complete; Complete; Complete]
  /\ reimplementedFiles final
     = Some [ pathContent (str "a.ts") (str "x");
              pathContent (str "b.ts") (str "y") ].
Proof. vm_compute. repeat split. Qed.

End Runs.

(* ===================================================================== *)
(** * Further properties of the code *)
(* ===================================================================== *)

(** ** The parser loop *)

Module CuttingFacts.
Import Cutting.

Lemma indexOf_firstn c s i :
  indexOf c s = Some i -> indexOf c (firstn i s) = None.
Proof.
  revert i. induction s as [|x s IH]; intros i H; [discriminate |].
  cbn [indexOf] in H. destruct (N.eqb x c) eqn:E.
  - injection H as <-. reflexivity.
  - destruct (indexOf c s) as [j|] eqn:Hj; [| discriminate].
    injection H as <-. cbn [firstn indexOf]. rewrite E.
    now rewrite (IH j eq_refl).
Qed.

Lemma scanBraces_firstn s i n e :
  scanBraces s i n = Some e ->
  scanBraces (firstn (S (e - i)) s) i n = Some e.
Proof.
  revert i n. induction s as [|c s IH]; intros i n H; [discriminate |].
  pose proof (scanBraces_bound _ _ _ H) as Hb.
  cbn [scanBraces] in H. cbn [firstn scanBraces].
  destruct (N.eqb c LBRACE).
  - pose proof (scanBraces_bound _ _ _ H) as Hb'.
    replace (e - i) with (S (e - S i)) by lia. now apply IH.
  - destruct (N.eqb c RBRACE).
    + cbv zeta in *. destruct (n - 1 =? 0)%Z; [exact H |].
      pose proof (scanBraces_bound _ _ _ H) as Hb'.
      replace (e - i) with (S (e - S i)) by lia. now apply IH.
    + pose proof (scanBraces_bound _ _ _ H) as Hb'.
      replace (e - i) with (S (e - S i)) by lia. now apply IH.
Qed.

(** What the loop cuts out of its buffer is a candidate. *)
Lemma cut_is_delimited s e :
  indexOf LBRACE s = Some 0 -> findObjectEnd s = Some e ->
  isDelimited (substringTo (e + 1) s) = true.
Proof.
  intros H0 He. unfold isDelimited, substringTo.
  pose proof (findObjectEnd_lt _ He) as Hlt.
  assert (Hi : indexOf LBRACE (firstn (e + 1) s) = Some 0).
  { destruct s as [|c s]; [discriminate |].
    replace (e + 1) with (S e) by lia. cbn [firstn indexOf] in *.
    destruct (N.eqb c LBRACE); [reflexivity |].
    destruct (indexOf LBRACE s); discriminate. }
  rewrite Hi. unfold findObjectEnd in *.
  pose proof (scanBraces_firstn _ _ _ He) as Hf.
  replace (S (e - 0)) with (e + 1) in Hf by lia. rewrite Hf.
  rewrite length_firstn. apply Nat.eqb_eq. lia.
Qed.

Lemma depthFrom_cons n c s :
  depthFrom n (c :: s)
  = depthFrom (if N.eqb c LBRACE then n + 1
               else if N.eqb c RBRACE then n - 1 else n)%Z s.
Proof. reflexivity. Qed.

(** The scan from a positive count stops where the count first reaches
    zero. *)
Lemma scanBraces_positive s i n e :
  (0 < n)%Z -> scanBraces s i n = Some e ->
  depthFrom n (firstn (S (e - i)) s) = 0%Z
  /\ forall j, j <= e - i -> (0 < depthFrom n (firstn j s))%Z.
Proof.
  revert i n. induction s as [|c s IH]; intros i n Hn H; [discriminate |].
  pose proof (scanBraces_bound _ _ _ H) as Hb.
  cbn [scanBraces] in H. cbn [firstn]. rewrite depthFrom_cons.
  destruct (N.eqb c LBRACE) eqn:EL.
  - destruct (IH (S i) (n + 1)%Z ltac:(lia) H) as [Hz Hp].
    pose proof (scanBraces_bound _ _ _ H) as Hb'.
    replace (S (e - S i)) with (e - i) in Hz by lia. split; [exact Hz |].
    intros [|j] Hj; [cbn; lia |]. cbn [firstn]. rewrite depthFrom_cons, EL.
    apply Hp. lia.
  - destruct (N.eqb c RBRACE) eqn:ER.
    + cbv zeta in H. destruct (n - 1 =? 0)%Z eqn:E0.
      * injection H as <-. replace (i - i) with 0 by lia. cbn [firstn].
        split; [cbn; lia |].
        intros j Hj. replace j with 0 by lia. cbn. lia.
      * apply Z.eqb_neq in E0.
        destruct (IH (S i) (n - 1)%Z ltac:(lia) H) as [Hz Hp].
        pose proof (scanBraces_bound _ _ _ H) as Hb'.
        replace (S (e - S i)) with (e - i) in Hz by lia. split; [exact Hz |].
        intros [|j] Hj; [cbn; lia |].
        cbn [firstn]. rewrite depthFrom_cons, EL, ER. apply Hp. lia.
    + destruct (IH _ _ Hn H) as [Hz Hp].
      pose proof (scanBraces_bound _ _ _ H) as Hb'.
      replace (S (e - S i)) with (e - i) in Hz by lia. split; [exact Hz |].
      intros [|j] Hj; [cbn; lia |].
      cbn [firstn]. rewrite depthFrom_cons, EL, ER. apply Hp. lia.
Qed.

Lemma scanBraces_first_zero s i n k :
  (0 < n)%Z -> k < length s ->
  depthFrom n (firstn (S k) s) = 0%Z ->
  (forall j, j <= k -> (0 < depthFrom n (firstn j s))%Z) ->
  scanBraces s i n = Some (i + k).
Proof.
  revert i n k. induction s as [|c s IH]; intros i n k Hn Hk Hz Hp;
    [cbn in Hk; lia |].
  cbn [firstn] in Hz. rewrite depthFrom_cons in Hz. cbn [scanBraces].
  assert (Hnext : forall m,
            (m = if N.eqb c LBRACE then n + 1
                 else if N.eqb c RBRACE then n - 1 else n)%Z ->
            forall k', k = S k' -> (0 < m)%Z ->
            scanBraces s (S i) m = Some (i + k)).
  { intros m Hm k' -> Hm0.
    replace (i + S k') with (S i + k') by lia.
    apply IH; [exact Hm0 | cbn in Hk; lia | now rewrite Hm |].
    intros j Hj. specialize (Hp (S j) ltac:(lia)).
    cbn [firstn] in Hp. rewrite depthFrom_cons in Hp. now rewrite Hm. }
  destruct k as [|k'].
  - cbn [firstn] in Hz. cbn in Hz.
    destruct (N.eqb c LBRACE); [lia |].
    destruct (N.eqb c RBRACE); [| lia].
    cbv zeta. replace (n - 1 =? 0)%Z with true by (symmetry; lia).
    f_equal. lia.
  - pose proof (Hp 1 ltac:(lia)) as H1. cbn [firstn] in H1.
    rewrite depthFrom_cons in H1. cbn in H1.
    destruct (N.eqb c LBRACE); [apply (Hnext _ eq_refl k' eq_refl); lia |].
    destruct (N.eqb c RBRACE); [| apply (Hnext _ eq_refl k' eq_refl); lia].
    cbv zeta. replace (n - 1 =? 0)%Z with false by (symmetry; lia).
    apply (Hnext _ eq_refl k' eq_refl). lia.
Qed.

(** X2: a candidate is the least balanced prefix.  A text is a candidate
    of the loop exactly when it begins with an opening brace, its braces
    balance, and the braces of no shorter non-empty prefix do. *)
Theorem candidate_is_least_balanced_prefix :
  forall objectStr : jsstring,
    isDelimited objectStr = true
    <-> (indexOf LBRACE objectStr = Some 0
         /\ braceDepth objectStr = 0%Z
         /\ forall k, 0 < k < length objectStr ->
              (0 < braceDepth (firstn k objectStr))%Z).
Proof.
  intros objectStr. split.
  - intros H. apply isDelimited_spec in H. destruct H as (Hi & He & Hlen).
    split; [exact Hi |].
    destruct objectStr as [|c s]; [discriminate |].
    cbn [indexOf] in Hi. destruct (N.eqb c LBRACE) eqn:EL;
      [| destruct (indexOf LBRACE s); discriminate].
    unfold findObjectEnd in He. cbn [scanBraces] in He. rewrite EL in He.
    cbn [length] in *. replace (S (length s) - 1) with (length s) in He by lia.
    pose proof (scanBraces_bound _ _ _ He) as Hb.
    assert (H01 : (0 < 0 + 1)%Z) by lia.
    destruct (scanBraces_positive _ _ H01 He) as [Hz Hp].
    replace (S (length s - 1)) with (length s) in Hz by lia.
    rewrite firstn_all in Hz. unfold braceDepth.
    split; [now rewrite depthFrom_cons, EL |].
    intros [|k] Hk; [lia |]. cbn [firstn]. rewrite depthFrom_cons, EL.
    apply Hp. lia.
  - intros (Hi & Hz & Hp).
    destruct objectStr as [|c s]; [discriminate |].
    cbn [indexOf] in Hi. destruct (N.eqb c LBRACE) eqn:EL;
      [| destruct (indexOf LBRACE s); discriminate].
    unfold braceDepth in *. rewrite depthFrom_cons, EL in Hz.
    assert (Hs : 0 < length s) by (destruct s; [cbn in Hz; lia | cbn; lia]).
    assert (Hscan : scanBraces s 1 (0 + 1) = Some (1 + (length s - 1))).
    { apply scanBraces_first_zero; [lia | lia | |].
      - replace (S (length s - 1)) with (length s) by lia.
        now rewrite firstn_all.
      - intros j Hj. specialize (Hp (S j) ltac:(cbn [length]; lia)).
        cbn [firstn] in Hp. now rewrite depthFrom_cons, EL in Hp. }
    unfold isDelimited, findObjectEnd. cbn [indexOf scanBraces]. rewrite EL.
    rewrite Hscan. cbn [length]. apply Nat.eqb_eq. lia.
Qed.

Section Loop.

Variable JSON_parse : jsstring -> option JsValue.

Lemma tryParse_records objectStr fs :
  tryParse JSON_parse objectStr (Some fs)
  = Some (fs ++ recordsOf JSON_parse [objectStr]).
Proof.
  unfold tryParse, recordsOf. cbn [flat_map].
  destruct (accepted JSON_parse objectStr); cbn; now rewrite ?app_nil_r.
Qed.

Lemma cuts_records text candidates :
  Cuts text candidates ->
  forall fs,
    snd (processBuffer JSON_parse text (Some fs))
    = Some (fs ++ recordsOf JSON_parse candidates).
Proof.
  induction 1 as [noise Hn | noise rest Hn H0 He
                 | noise objectStr rest candidates Hn Hd Hc IH]; intros fs.
  - rewrite (processBuffer_noise JSON_parse _ _ Hn). cbn.
    now rewrite app_nil_r.
  - rewrite (processBuffer_noise_prefix JSON_parse _ rest _ Hn).
    rewrite processBuffer_eq, H0. cbv zeta.
    change (substringFrom 0 rest) with rest. rewrite He. cbn.
    now rewrite app_nil_r.
  - rewrite (processBuffer_noise_candidate JSON_parse _ _ rest _ Hn Hd).
    rewrite tryParse_records, IH. unfold recordsOf. cbn [flat_map].
    now rewrite <- app_assoc, app_nil_r.
Qed.

Lemma cuts_exist text : exists candidates, Cuts text candidates.
Proof.
  remember (length text) as n eqn:Hn. revert text Hn.
  induction n as [n IH] using lt_wf_ind. intros text Hn.
  destruct (indexOf LBRACE text) as [i|] eqn:Hi.
  - pose proof (indexOf_Some_lt _ _ Hi) as Hlt.
    pose proof (indexOf_skipn _ _ Hi) as H0.
    pose proof (indexOf_firstn _ _ Hi) as Hnoise.
    destruct (findObjectEnd (skipn i text)) as [e|] eqn:He.
    + pose proof (findObjectEnd_lt _ He) as Hlt'.
      destruct (IH (length (skipn (e + 1) (skipn i text)))
                  ltac:(subst n; rewrite !length_skipn; lia)
                  (skipn (e + 1) (skipn i text)) eq_refl) as (cs & Hcs).
      exists (firstn (e + 1) (skipn i text) :: cs).
      pose proof (@cuts_candidate _ _ _ _ Hnoise (cut_is_delimited _ H0 He) Hcs)
        as HC.
      now rewrite !firstn_skipn in HC.
    + exists [].
      pose proof (@cuts_incomplete _ _ Hnoise H0 He) as HC.
      now rewrite firstn_skipn in HC.
  - exists []. now apply cuts_noise.
Qed.

(** X1: what the loop appends.  Every text is cut into noise, candidates
    and possibly the beginning of an incomplete object, and however it is
    cut in this way the loop appends exactly the records of the accepted
    candidates, in their order in the text. *)
Theorem loop_appends_the_accepted_candidates :
  forall text : jsstring,
    (exists candidates, Cuts text candidates)
    /\ (forall candidates (earlier : list JsValue),
          Cuts text candidates ->
          snd (processBuffer JSON_parse text (Some earlier))
          = Some (earlier ++ recordsOf JSON_parse candidates))
    /\ (forall candidates (chunks : list jsstring),
          concat chunks = text ->
          Cuts text candidates ->
          emittedFiles JSON_parse chunks
          = Some (recordsOf JSON_parse candidates)).
Proof.
  intros text. split; [apply cuts_exist | split].
  - intros candidates earlier H. now apply cuts_records.
  - intros candidates chunks Hc H.
    rewrite emittedFiles_concat, Hc. now rewrite (cuts_records H).
Qed.

(** X3: text before the first opening brace is ignored.  A first chunk
    without an opening brace (a code fence, a sentence of the model) does
    not change the records of the chunks after it. *)
Theorem leading_noise_is_ignored :
  forall (noise : jsstring) (chunks : list jsstring),
    indexOf LBRACE noise = None ->
    emittedFiles JSON_parse (noise :: chunks) = emittedFiles JSON_parse chunks.
Proof.
  intros noise chunks H. rewrite !emittedFiles_concat. cbn [concat].
  now apply processBuffer_noise_prefix.
Qed.

Lemma trimStart_length s : length (trimStart s) <= length s.
Proof.
  induction s as [|c s IH]; cbn [trimStart]; [lia |].
  destruct (isWhiteSpace c); cbn [length]; lia.
Qed.

Lemma trim_length s : length (trim s) <= length s.
Proof.
  unfold trim, trimEnd. rewrite length_rev.
  etransitivity; [apply trimStart_length |]. rewrite length_rev.
  apply trimStart_length.
Qed.

Lemma stripFences_length s : length (stripFences s) <= length s.
Proof.
  remember (length s) as n eqn:Hn. revert s Hn.
  induction n as [n IH] using lt_wf_ind. intros s Hn.
  destruct s as [|a [|b [|c0 rest]]]; try (subst n; cbn; lia).
  rewrite stripFences_cons3.
  assert (Hrest : length (stripFences rest) <= length rest)
    by (apply (IH (length rest)); [subst n; cbn; lia | reflexivity]).
  destruct (N.eqb a BACKTICK && N.eqb b BACKTICK && N.eqb c0 BACKTICK)%bool.
  - destruct rest as [|j [|s0 [|o [|n0 rest']]]];
      try (subst n; cbn [length] in *; lia).
    destruct (N.eqb j 106 && N.eqb s0 115 && N.eqb o 111 && N.eqb n0 110)%bool;
      [| subst n; cbn [length] in *; lia].
    assert (length (stripFences rest') <= length rest')
      by (apply (IH (length rest')); [subst n; cbn; lia | reflexivity]).
    subst n. cbn [length]. lia.
  - assert (length (stripFences (b :: c0 :: rest)) <= length (b :: c0 :: rest))
      by (apply (IH (length (b :: c0 :: rest)));
          [subst n; cbn; lia | reflexivity]).
    subst n. cbn [length] in *. lia.
Qed.

Lemma cleanNoise_length buffer : length (cleanNoise buffer) <= length buffer.
Proof.
  unfold cleanNoise. destruct (negb (includes RBRACE buffer)).
  - destruct (isEmpty _); [cbn; lia |].
    etransitivity; [apply trim_length | apply stripFences_length].
  - destruct (isEmpty _); [cbn; lia | lia].
Qed.

Lemma processBuffer_length x files :
  length (fst (processBuffer JSON_parse x files)) <= length x.
Proof.
  remember (length x) as n eqn:Hn. revert x files Hn.
  induction n as [n IH] using lt_wf_ind. intros x files Hn.
  rewrite processBuffer_eq.
  destruct (indexOf LBRACE x) as [i|] eqn:Hi.
  - cbv zeta. pose proof (indexOf_Some_lt _ _ Hi) as Hlt.
    destruct (findObjectEnd (substringFrom i x)) as [e|] eqn:He.
    + assert (Hl : length (substringFrom (e + 1) (substringFrom i x)) < n)
        by (subst n; unfold substringFrom; rewrite !length_skipn; lia).
      specialize (IH _ Hl _ (tryParse JSON_parse
                               (substringTo (e + 1) (substringFrom i x))
                               files) eq_refl).
      lia.
    + cbn [fst]. unfold substringFrom. rewrite length_skipn. lia.
  - cbn [fst]. subst n. apply cleanNoise_length.
Qed.

(** X4: the buffer is bounded by the text received.  After any chunks the
    buffer holds at most as many characters as the chunks brought, and
    after each chunk at most what it held before plus that chunk. *)
Theorem buffer_never_exceeds_the_text_received :
  forall (chunks : list jsstring) (buffer : jsstring)
         (files : option (list JsValue)),
    length (fst (processStream JSON_parse chunks (buffer, files)))
    <= length buffer + length (concat chunks).
Proof.
  intros chunks. induction chunks as [|chunk chunks IH]; intros buffer files.
  - cbn. lia.
  - change (processStream JSON_parse (chunk :: chunks) (buffer, files))
      with (processStream JSON_parse chunks
              (processBuffer JSON_parse (buffer ++ chunk) files)).
    pose proof (processBuffer_length (buffer ++ chunk) files) as Hb.
    destruct (processBuffer JSON_parse (buffer ++ chunk) files) as [b1 f1].
    specialize (IH b1 f1). cbn [fst concat] in *.
    rewrite length_app in *. lia.
Qed.

End Loop.

End CuttingFacts.

(** ** The buffer between chunks, and the records of a stream *)

Section StreamFacts.

Import Cutting.

Local Unset Implicit Arguments.

Variable JSON_parse : jsstring -> option JsValue.









Lemma recordsOf_app a b :
  recordsOf JSON_parse (a ++ b)
  = recordsOf JSON_parse a ++ recordsOf JSON_parse b.
Proof. unfold recordsOf. apply flat_map_app. Qed.

Lemma recordsOf_length candidates :
  length (recordsOf JSON_parse candidates)
  = length (filter (fun objectStr =>
                      AppMethods.present (accepted JSON_parse objectStr))
                   candidates).
Proof.
  induction candidates as [|objectStr candidates IH]; [reflexivity |].
  unfold recordsOf in *. cbn [flat_map filter].
  rewrite length_app, IH.
  destruct (accepted JSON_parse objectStr); reflexivity.
Qed.

(** C8: no deduplication.  The records accumulated before are a prefix of
    the records after any further chunks, and what is appended does not
    depend on them.  However the text of the chunks is cut into noise and
    candidates, what the loop appends is the record of every candidate
    that is accepted, in the order of arrival: as many records as there
    are accepted candidates, and for any two of them both records, the
    earlier before the later, whatever their paths and even when both
    arrive in one chunk. *)
Theorem records_append_only :
  forall (chunks : list jsstring) (buffer : jsstring)
         (earlier : list JsValue),
    (exists new : list JsValue,
        snd (processStream JSON_parse chunks (buffer, Some earlier))
        = Some (earlier ++ new)
        /\ snd (processStream JSON_parse chunks (buffer, Some []))
           = Some new)
    /\ (forall (c1 c2 : jsstring) (f1 f2 : JsValue),
          isDelimited c1 = true -> isDelimited c2 = true ->
          accepted JSON_parse c1 = Some f1 ->
          accepted JSON_parse c2 = Some f2 ->
          snd (processStream JSON_parse [c1; c2] ([], Some earlier))
          = Some (earlier ++ [f1; f2]))
    /\ (exists candidates, Cuts (concat chunks) candidates)
    /\ (forall candidates : list jsstring,
          Cuts (concat chunks) candidates ->
          snd (processStream JSON_parse chunks ([], Some earlier))
          = Some (earlier ++ recordsOf JSON_parse candidates)
          /\ length (recordsOf JSON_parse candidates)
             = length (filter (fun objectStr =>
                                 AppMethods.present
                                   (accepted JSON_parse objectStr))
                              candidates)
          /\ forall (before between after : list jsstring)
                    (c1 c2 : jsstring) (f1 f2 : JsValue),
               candidates = before ++ c1 :: between ++ c2 :: after ->
               accepted JSON_parse c1 = Some f1 ->
               accepted JSON_parse c2 = Some f2 ->
               recordsOf JSON_parse candidates
               = recordsOf JSON_parse before
                 ++ f1 :: recordsOf JSON_parse between
                 ++ f2 :: recordsOf JSON_parse after).
Proof.
  intros chunks buffer earlier. split; [| split; [| split]].
  - destruct (processStream_files_append JSON_parse chunks buffer earlier [])
      as (new & H1 & H2).
    exists new. rewrite app_nil_r in H2. now split.
  - intros c1 c2 f1 f2 Hd1 Hd2 Ha1 Ha2.
    rewrite processStream_concat
      by (intros files'; now rewrite processBuffer_nil).
    cbn [concat app]. rewrite app_nil_r.
    rewrite (processBuffer_candidate JSON_parse _ c2 _ Hd1).
    rewrite <- (app_nil_r c2).
    rewrite (processBuffer_candidate JSON_parse _ [] _ Hd2).
    rewrite processBuffer_nil. unfold tryParse. rewrite Ha1, Ha2.
    unfold appendFile. cbn [snd]. now rewrite <- app_assoc.
  - apply CuttingFacts.cuts_exist.
  - intros candidates Hcut. split; [| split].
    + rewrite processStream_concat
        by (intros files'; now rewrite processBuffer_nil).
      cbn [app].
      exact (@CuttingFacts.cuts_records JSON_parse _ _ Hcut earlier).
    + apply recordsOf_length.
    + intros before between after c1 c2 f1 f2 -> Ha1 Ha2.
      rewrite recordsOf_app.
      change (c1 :: between ++ c2 :: after)
        with ([c1] ++ between ++ [c2] ++ after).
      rewrite !recordsOf_app. unfold recordsOf at 2 4.
      cbn [flat_map]. rewrite Ha1, Ha2. reflexivity.
Qed.

End StreamFacts.


(** Two objects with the same path in one chunk. *)
Lemma records_append_only_witness :
  let c1 := quoted "{'path':'a.ts','content':'x'}" in
  let c2 := quoted "{'path':'a.ts','content':'y'}" in
  Cutting.Cuts (concat [c1 ++ LF ++ c2]) [c1; c2]
  /\ snd (processStream JSON.parse [c1 ++ LF ++ c2] ([], Some []))
     = Some [pathContent (str "a.ts") (str "x");
             pathContent (str "a.ts") (str "y")].
Proof.
  cbv zeta.
  assert (Hcut : Cutting.Cuts
                   (concat [quoted "{'path':'a.ts','content':'x'}" ++ LF
                            ++ quoted "{'path':'a.ts','content':'y'}"])
                   [quoted "{'path':'a.ts','content':'x'}";
                    quoted "{'path':'a.ts','content':'y'}"]).
  { exact (@Cutting.cuts_candidate []
             (quoted "{'path':'a.ts','content':'x'}")
             (LF ++ quoted "{'path':'a.ts','content':'y'}" ++ [])
             [quoted "{'path':'a.ts','content':'y'}"]
             eq_refl eq_refl
             (@Cutting.cuts_candidate LF
                (quoted "{'path':'a.ts','content':'y'}") [] []
                eq_refl eq_refl (@Cutting.cuts_noise [] eq_refl))). }
  split; [exact Hcut |].
  exact (proj1 (proj2 (proj2 (proj2
           (records_append_only JSON.parse
              [quoted "{'path':'a.ts','content':'x'}" ++ LF
               ++ quoted "{'path':'a.ts','content':'y'}"] [] []))) _ Hcut)).
Defined.

(** ** The GitHub service *)

Module GithubMoreFacts.
Import GithubService GithubBlobs.

Local Unset Implicit Arguments.

Lemma slice_skipn {A : Type} i n (l : list A) :
  slice i (i + n) l ++ skipn (i + n) l = skipn i l.
Proof.
  unfold slice. replace (i + n - i) with n by lia.
  rewrite Nat.add_comm, <- skipn_skipn. apply firstn_skipn.
Qed.

Lemma slice_slice {A : Type} i a b (l : list A) :
  slice i (i + a) l ++ slice (i + a) (i + a + b) l = slice i (i + a + b) l.
Proof.
  unfold slice.
  replace (i + a - i) with a by lia.
  replace (i + a + b - (i + a)) with b by lia.
  replace (i + a + b - i) with (a + b) by lia.
  rewrite (Nat.add_comm i a), <- skipn_skipn.
  generalize (skipn i l). intros m. clear.
  revert m. induction a as [|a IH]; intros m; [reflexivity |].
  destruct m as [|x m]; [now rewrite !skipn_nil, !firstn_nil |].
  cbn. now rewrite IH.
Qed.

Section BatchFacts.

Variable blob : TreeEntry -> outcome (option jsstring).
Variable firstRejection : list Thrown -> Thrown.

#[local] Abbreviation download := (downloadBatches blob firstRejection).

Lemma downloadBatches_eq fileTree i allFiles requested :
  download fileTree i allFiles requested
  = if lt_dec i (length fileTree) then
      match promiseAll firstRejection
              (map (fetchEntry blob) (slice i (i + batchSize) fileTree)) with
      | Returned batchResults =>
          download fileTree (i + batchSize)
            (allFiles ++ validFiles batchResults)
            (requested ++ slice i (i + batchSize) fileTree)
      | Threw e => (Threw e, requested ++ slice i (i + batchSize) fileTree)
      end
    else (Returned allFiles, requested).
Proof.
  funelim (downloadBatches blob firstRejection fileTree i allFiles requested);
    rewrite Heq; reflexivity.
Qed.

#[local] Abbreviation settles := (settles blob).

Lemma settled_batch entries :
  settles entries ->
  promiseAll firstRejection (map (fetchEntry blob) entries)
  = Returned (fulfilled (map (fetchEntry blob) entries))
  /\ validFiles (fulfilled (map (fetchEntry blob) entries))
     = keptFiles blob entries.
Proof.
  intros H.
  assert (Hr : rejections (map (fetchEntry blob) entries) = []
               /\ validFiles (fulfilled (map (fetchEntry blob) entries))
                  = keptFiles blob entries).
  { induction entries as [|file entries IH]; [now split |].
    destruct IH as [IH1 IH2];
      [intros f Hf; apply H; now right |].
    destruct (H file (or_introl eq_refl)) as [r Hr].
    unfold rejections, fulfilled, validFiles, keptFiles in *.
    cbn [map flat_map]. unfold fetchEntry at 1 3. rewrite Hr.
    destruct r as [content|]; cbn [app flat_map]; rewrite IH1, IH2;
      now split. }
  destruct Hr as [Hr Hv]. split; [| exact Hv].
  unfold promiseAll. now rewrite Hr.
Qed.

Lemma keptFiles_app a b :
  keptFiles blob (a ++ b) = keptFiles blob a ++ keptFiles blob b.
Proof. unfold keptFiles. apply flat_map_app. Qed.

Lemma downloadBatches_settled fileTree i allFiles requested :
  settles (skipn i fileTree) ->
  download fileTree i allFiles requested
  = (Returned (allFiles ++ keptFiles blob (skipn i fileTree)),
     requested ++ skipn i fileTree).
Proof.
  remember (length fileTree - i) as n eqn:Hn.
  revert i allFiles requested Hn.
  induction n as [n IH] using lt_wf_ind. intros i allFiles requested Hn Hs.
  rewrite downloadBatches_eq.
  destruct (lt_dec i (length fileTree)) as [Hlt|Hge].
  - assert (Hb : settles (slice i (i + batchSize) fileTree)).
    { intros f Hf. apply Hs. rewrite <- (slice_skipn i batchSize).
      apply in_or_app. now left. }
    destruct (settled_batch _ Hb) as [Hp Hv]. rewrite Hp, Hv.
    rewrite (IH (length fileTree - (i + batchSize)));
      [| unfold batchSize; lia | reflexivity |].
    + rewrite <- !app_assoc, <- keptFiles_app.
      now rewrite !slice_skipn.
    + intros f Hf. apply Hs. rewrite <- (slice_skipn i batchSize).
      apply in_or_app. now right.
  - rewrite skipn_all2 by lia. cbn. now rewrite !app_nil_r.
Qed.

(** The loop fails with the first batch that holds a rejection. *)
Lemma downloadBatches_rejected fileTree b :
  forall i allFiles requested e es,
    settles (slice i (i + b * batchSize) fileTree) ->
    rejections (map (fetchEntry blob)
                  (slice (i + b * batchSize)
                         (i + b * batchSize + batchSize) fileTree))
    = e :: es ->
    download fileTree i allFiles requested
    = (Threw (firstRejection (e :: es)),
       requested ++ slice i (i + b * batchSize + batchSize) fileTree).
Proof.
  induction b as [|b IH]; intros i allFiles requested e es Hs Hr.
  - cbn [Nat.mul] in *. rewrite Nat.add_0_r in *.
    rewrite downloadBatches_eq.
    destruct (lt_dec i (length fileTree)) as [Hlt|Hge].
    + unfold promiseAll. now rewrite Hr.
    + exfalso. unfold slice in Hr. rewrite skipn_all2 in Hr by lia.
      rewrite firstn_nil in Hr. discriminate.
  - rewrite downloadBatches_eq.
    destruct (lt_dec i (length fileTree)) as [Hlt|Hge].
    + assert (Hb : settles (slice i (i + batchSize) fileTree)).
      { intros f Hf. apply Hs.
        replace (i + S b * batchSize) with (i + batchSize + b * batchSize)
          by (unfold batchSize; lia).
        rewrite <- slice_slice. apply in_or_app. now left. }
      destruct (settled_batch _ Hb) as [Hp _]. rewrite Hp.
      rewrite (IH (i + batchSize) _ _ e es).
      * f_equal. rewrite <- app_assoc. f_equal.
        replace (i + S b * batchSize + batchSize)
          with (i + batchSize + (b * batchSize + batchSize)) by (unfold batchSize; lia).
        replace (i + batchSize + b * batchSize + batchSize)
          with (i + batchSize + (b * batchSize + batchSize)) by lia.
        apply slice_slice.
      * intros f Hf. apply Hs.
        replace (i + S b * batchSize) with (i + batchSize + b * batchSize)
          by (unfold batchSize; lia).
        rewrite <- slice_slice. apply in_or_app. now right.
      * replace (i + batchSize + b * batchSize) with (i + S b * batchSize)
          by (unfold batchSize; lia).
        exact Hr.
    + exfalso. unfold slice in Hr. rewrite skipn_all2 in Hr by lia.
      rewrite firstn_nil in Hr. discriminate.
Qed.

End BatchFacts.

(** X13: batches are invisible when every blob settles.  When no request
    for a blob is rejected, the loop of [getRepoFiles] requests every entry
    of the tree once, in order, and returns the files of the entries whose
    content is there, in the order of the tree, whatever the batches. *)
Theorem batches_are_invisible :
  forall (blob : TreeEntry -> outcome (option jsstring))
         (firstRejection : list Thrown -> Thrown)
         (fileTree : list TreeEntry),
    (forall file, In file fileTree -> exists r, blob file = Returned r) ->
    downloadBatches blob firstRejection fileTree 0 [] []
    = (Returned (keptFiles blob fileTree), fileTree).
Proof.
  intros blob firstRejection fileTree H.
  now rewrite (downloadBatches_settled blob firstRejection fileTree 0 [] [] H).
Qed.

(** X14: a rejected blob aborts the download.  When the batch with number
    [b] is the first that holds a rejected request, the loop throws the
    rejection of that batch that settled first; the files of the batches
    before are not returned, and no entry after that batch is requested. *)
Theorem rejected_blob_aborts_the_download :
  forall (blob : TreeEntry -> outcome (option jsstring))
         (firstRejection : list Thrown -> Thrown)
         (fileTree : list TreeEntry) (b : nat) (e : Thrown)
         (es : list Thrown),
    (forall file, In file (firstn (b * batchSize) fileTree) ->
                  exists r, blob file = Returned r) ->
    rejections (map (fetchEntry blob)
                  (slice (b * batchSize) (b * batchSize + batchSize) fileTree))
    = e :: es ->
    downloadBatches blob firstRejection fileTree 0 [] []
    = (Threw (firstRejection (e :: es)),
       firstn (b * batchSize + batchSize) fileTree).
Proof.
  intros blob firstRejection fileTree b e es Hs Hr.
  rewrite (downloadBatches_rejected blob firstRejection fileTree b 0 [] [] e es).
  - unfold slice. cbn [app skipn Nat.add]. now rewrite Nat.sub_0_r.
  - intros f Hf. apply Hs. unfold slice in Hf.
    cbn [skipn Nat.add] in Hf. now rewrite Nat.sub_0_r in Hf.
  - exact Hr.
Qed.

Section FetchFacts.

Variable net : Network.

(** The last attempt of a call, and what the call makes of it. *)
Lemma performFetch_last_attempt request retries backoff w :
  let r := performFetch net request retries backoff w in
  attempts w < attempts (snd r)
  /\ match net (attempts (snd r) - 1) request with
     | Returned response => fst r = Returned response
     | Threw e =>
         if isFailedToFetch e
         then fst r = Threw (newError networkErrorMessage)
              /\ attempts (snd r) = attempts w + retries + 1
         else fst r = Threw e
     end.
Proof.
  revert backoff w. induction retries as [|retries IH]; intros backoff w.
  - assert (Hs : S (attempts w) - 1 = attempts w) by lia.
    cbn [performFetch].
    destruct (net (attempts w) request) as [response|e] eqn:E;
      [| destruct (isFailedToFetch e) eqn:F]; cbn [fst snd attempts];
      (split; [lia |]); rewrite Hs, E; rewrite ?F; auto.
    split; [reflexivity | lia].
  - assert (Hs : S (attempts w) - 1 = attempts w) by lia.
    cbn [performFetch].
    pose proof (IH (backoff * 2)%Z
                  (sleep backoff {| attempts := S (attempts w);
                                    waits := waits w |})) as Hrec.
    cbn [sleep attempts waits] in Hrec. cbv zeta in Hrec.
    destruct Hrec as [Hlt Hrec].
    assert (Hretry :
      attempts w
      < attempts (snd (performFetch net request retries (backoff * 2)
                         (sleep backoff {| attempts := S (attempts w);
                                           waits := waits w |})))
      /\ match net (attempts (snd (performFetch net request retries
                                     (backoff * 2)
                                     (sleep backoff
                                        {| attempts := S (attempts w);
                                           waits := waits w |}))) - 1)
                  request with
         | Returned response =>
             fst (performFetch net request retries (backoff * 2)
                    (sleep backoff {| attempts := S (attempts w);
                                      waits := waits w |}))
             = Returned response
         | Threw e =>
             if isFailedToFetch e
             then fst (performFetch net request retries (backoff * 2)
                         (sleep backoff {| attempts := S (attempts w);
                                           waits := waits w |}))
                  = Threw (newError networkErrorMessage)
                  /\ attempts (snd (performFetch net request retries
                                      (backoff * 2)
                                      (sleep backoff
                                         {| attempts := S (attempts w);
                                            waits := waits w |})))
                     = attempts w + S retries + 1
             else fst (performFetch net request retries (backoff * 2)
                         (sleep backoff {| attempts := S (attempts w);
                                           waits := waits w |}))
                  = Threw e
         end).
    { cbn [sleep attempts waits]. split; [lia |].
      destruct (net _ request) as [response|e]; [exact Hrec |].
      destruct (isFailedToFetch e); [| exact Hrec].
      destruct Hrec as [H1 H2]. split; [exact H1 | lia]. }
    destruct (net (attempts w) request) as [response|e] eqn:E.
    + destruct (N.leb 500 (status response)); [exact Hretry |].
      cbn [fst snd attempts]. split; [lia |]. now rewrite Hs, E.
    + destruct (isFailedToFetch e) eqn:F; [exact Hretry |].
      cbn [fst snd attempts]. split; [lia |]. now rewrite Hs, E, F.
Qed.

(** When every attempt is one that is retried, all retries are used. *)
Lemma performFetch_exhausted request retries backoff w :
  (forall n, attempts w <= n <= attempts w + retries ->
             retried (net n request) = true) ->
  snd (performFetch net request retries backoff w)
  = {| attempts := attempts w + retries + 1;
       waits := waits w ++ backoffs backoff retries |}.
Proof.
  revert backoff w. induction retries as [|retries IH]; intros backoff w H.
  - pose proof (H (attempts w) ltac:(lia)) as H0.
    cbn [performFetch backoffs]. rewrite app_nil_r.
    replace (attempts w + 0 + 1) with (S (attempts w)) by lia.
    destruct (net (attempts w) request) as [response|e];
      [| cbn [retried] in H0; rewrite H0]; reflexivity.
  - pose proof (H (attempts w) ltac:(lia)) as H0.
    cbn [performFetch].
    assert (Hrec :
      snd (performFetch net request retries (backoff * 2)
             (sleep backoff {| attempts := S (attempts w);
                               waits := waits w |}))
      = {| attempts := attempts w + S retries + 1;
           waits := waits w ++ backoffs backoff (S retries) |}).
    { rewrite IH.
      - cbn [sleep attempts waits backoffs]. rewrite <- app_assoc.
        f_equal. lia.
      - intros n Hn. cbn [sleep attempts] in Hn. apply H. lia. }
    destruct (net (attempts w) request) as [response|e];
      cbn [retried] in H0; rewrite H0; exact Hrec.
Qed.

Lemma backoffs_total backoff k :
  totalDelay (backoffs backoff k) = (backoff * (2 ^ Z.of_nat k - 1))%Z.
Proof.
  revert backoff. induction k as [|k IH]; intros backoff.
  - cbn. lia.
  - cbn [backoffs totalDelay fold_right]. fold (totalDelay (backoffs (backoff * 2) k)).
    rewrite IH, Nat2Z.inj_succ, Z.pow_succ_r by lia. lia.
Qed.

Lemma totalDelay_app a b : totalDelay (a ++ b) = (totalDelay a + totalDelay b)%Z.
Proof.
  unfold totalDelay. induction a as [|x a IH]; cbn; [reflexivity |].
  rewrite IH. lia.
Qed.

End FetchFacts.

(** A call whose attempts are all retried, as one equation. *)
Lemma performFetch_persistent
      (net : Network) (request : Request) (retries : nat) (backoff : Z)
      (w : World) :
  (forall n, attempts w <= n <= attempts w + retries ->
             retried (net n request) = true) ->
  performFetch net request retries backoff w
  = (match net (attempts w + retries) request with
     | Returned response => Returned response
     | Threw _ => Threw (newError networkErrorMessage)
     end,
     {| attempts := attempts w + retries + 1;
        waits := waits w ++ backoffs backoff retries |}).
Proof.
  intros H.
  pose proof (performFetch_exhausted net request retries backoff w H) as Hw.
  pose proof (performFetch_last_attempt net request retries backoff w) as Hl.
  cbv zeta in Hl. destruct Hl as [_ Hl]. rewrite Hw in Hl.
  cbn [attempts] in Hl.
  replace (attempts w + retries + 1 - 1) with (attempts w + retries) in Hl
    by lia.
  pose proof (H (attempts w + retries) ltac:(lia)) as Hr.
  destruct (performFetch net request retries backoff w) as [r w1].
  cbn [fst snd] in Hw, Hl. subst w1. f_equal.
  destruct (net (attempts w + retries) request) as [response|e];
    [exact Hl |].
  cbn [retried] in Hr. rewrite Hr in Hl. now destruct Hl.
Qed.

(** X5: a call ends with its last attempt.  [performFetch] makes at least
    one attempt and returns the response of the last one; when the last
    attempt is rejected it throws that rejection, except that a failed
    fetch, which only ends a call once all retries are used, is replaced by
    the message about the network. *)
Theorem performFetch_ends_with_its_last_attempt :
  forall (net : Network) (request : Request) (retries : nat) (backoff : Z)
         (w : World),
    let r := performFetch net request retries backoff w in
    attempts w < attempts (snd r)
    /\ match net (attempts (snd r) - 1) request with
       | Returned response => fst r = Returned response
       | Threw e =>
           if isFailedToFetch e
           then fst r = Threw (newError networkErrorMessage)
                /\ attempts (snd r) = attempts w + retries + 1
           else fst r = Threw e
       end.
Proof. intros. apply performFetch_last_attempt. Qed.

(** X6: transient failures throughout.  When every attempt answers 500 or
    more or is a failed fetch, [performFetch] makes [retries] + 1 attempts
    and awaits all the doubling delays in between; a last response of 500
    or more is returned to the caller like any other response. *)
Theorem persistent_failure_uses_all_retries :
  forall (net : Network) (request : Request) (retries : nat) (backoff : Z)
         (w : World),
    (forall n, attempts w <= n <= attempts w + retries ->
               retried (net n request) = true) ->
    snd (performFetch net request retries backoff w)
    = {| attempts := attempts w + retries + 1;
         waits := waits w ++ backoffs backoff retries |}
    /\ fst (performFetch net request retries backoff w)
       = match net (attempts w + retries) request with
         | Returned response => Returned response
         | Threw _ => Threw (newError networkErrorMessage)
         end.
Proof.
  intros net request retries backoff w H.
  rewrite (performFetch_persistent net request retries backoff w H).
  now split.
Qed.

(** X7: the delays of a call are bounded.  With the default arguments a
    call awaits at most 2100 milliseconds in all; in general, for a delay
    that is not negative, at most [backoff * (2 ^ retries - 1)]. *)
Theorem total_delay_is_bounded :
  forall (net : Network) (request : Request) (w : World),
    (totalDelay (waits (snd (performFetch net request defaultRetries
                               defaultBackoff w)))
     <= totalDelay (waits w) + 2100)%Z
    /\ forall (retries : nat) (backoff : Z),
         (0 <= backoff)%Z ->
         (totalDelay (waits (snd (performFetch net request retries
                                    backoff w)))
          <= totalDelay (waits w)
             + backoff * (2 ^ Z.of_nat retries - 1))%Z.
Proof.
  intros net request w.
  assert (Hgen : forall (retries : nat) (backoff : Z),
            (0 <= backoff)%Z ->
            (totalDelay (waits (snd (performFetch net request retries
                                       backoff w)))
             <= totalDelay (waits w)
                + backoff * (2 ^ Z.of_nat retries - 1))%Z).
  { intros retries backoff Hb.
    destruct (GithubFacts.performFetch_bounded net request retries backoff w)
      as (k & Hk & _ & Hw).
    rewrite Hw, totalDelay_app, backoffs_total.
    assert (2 ^ Z.of_nat k <= 2 ^ Z.of_nat retries)%Z
      by (apply Z.pow_le_mono_r; lia).
    nia. }
  split; [| exact Hgen].
  specialize (Hgen defaultRetries defaultBackoff ltac:(unfold defaultBackoff; lia)).
  exact Hgen.
Qed.

Lemma server_error_status (response : Response) :
  (500 <= status response)%N ->
  ok response = false
  /\ N.eqb (status response) 403 = false
  /\ N.eqb (status response) 404 = false
  /\ N.eqb (status response) 401 = false.
Proof.
  intros H. unfold ok.
  repeat split; try (apply N.eqb_neq; lia).
  apply andb_false_iff. right. apply N.leb_gt. lia.
Qed.

(** X8: the default branch is a truthy property of a 2xx payload.  What
    [getDefaultBranch] returns is the [default_branch] property of the
    payload of a response with a status from 200 to 299, and it is never
    a falsy value (no empty string, no null). *)
Theorem default_branch_is_truthy :
  forall (net : Network) (nullPropertyMessage owner repo token : jsstring)
         (w : World),
    match fst (getDefaultBranch net nullPropertyMessage owner repo token w)
    with
    | Returned branch =>
        toBoolean branch = true
        /\ exists response data,
             fst (performFetch net (detailsRequest owner repo token)
                    defaultRetries defaultBackoff w) = Returned response
             /\ (200 <= status response <= 299)%N
             /\ json response = Returned data
             /\ getProperty data (str "default_branch") = Some (Some branch)
    | Threw _ => True
    end.
Proof.
  intros net nullPropertyMessage owner repo token w.
  unfold getDefaultBranch.
  change {| url := GITHUB_API_BASE ++ str "/" ++ owner ++ str "/" ++ repo;
            headers := getHeaders token |}
    with (detailsRequest owner repo token).
  destruct (performFetch net (detailsRequest owner repo token)
              defaultRetries defaultBackoff w) as [[response|e] w1];
    [| exact I].
  destruct (ok response) eqn:Hok; cbn [negb].
  - destruct (json response) as [data|e] eqn:Hj; [| exact I].
    destruct (getProperty data (str "default_branch")) as [[branch|]|] eqn:Hp;
      try exact I.
    destruct (toBoolean branch) eqn:Hb; [| exact I].
    cbn [fst]. split; [exact Hb |]. exists response, data.
    unfold ok in Hok. apply andb_true_iff in Hok. destruct Hok as [H1 H2].
    apply N.leb_le in H1, H2. repeat split; auto.
  - destruct (N.eqb (status response) 403); [exact I |].
    destruct (N.eqb (status response) 404); [exact I |].
    destruct (N.eqb (status response) 401); exact I.
Qed.

(** [getRepoFiles] when the attempts for the repository details are all
    retried. *)
Lemma getRepoFiles_persistent
      (net : Network) (nullPropertyMessage : jsstring)
      (downloadTree :
         jsstring -> jsstring -> jsstring -> JsValue -> IO (list RepoFile))
      (owner repo token : jsstring) (w : World) :
  (forall n, attempts w <= n <= attempts w + 3 ->
             retried (net n (detailsRequest owner repo token)) = true) ->
  getRepoFiles net nullPropertyMessage downloadTree owner repo token w
  = (Threw (newError
              (downloadErrorPrefix
               ++ match net (attempts w + 3)
                            (detailsRequest owner repo token) with
                  | Returned response =>
                      str "Failed to fetch repository details ("
                      ++ decimal (status response) ++ str " "
                      ++ statusText response ++ str ")."
                  | Threw _ => networkErrorMessage
                  end)),
     {| attempts := attempts w + 4;
        waits := waits w ++ [300; 600; 1200]%Z |}).
Proof.
  intros H.
  pose proof (H (attempts w + 3) ltac:(lia)) as Hlast.
  unfold getRepoFiles, getDefaultBranch.
  change {| url := GITHUB_API_BASE ++ str "/" ++ owner ++ str "/" ++ repo;
            headers := getHeaders token |}
    with (detailsRequest owner repo token).
  rewrite (performFetch_persistent net (detailsRequest owner repo token)
             defaultRetries defaultBackoff w H).
  unfold defaultRetries, defaultBackoff.
  cbn [backoffs Z.mul Pos.mul].
  replace (attempts w + 3 + 1) with (attempts w + 4) by lia.
  destruct (net (attempts w + 3) (detailsRequest owner repo token))
    as [response|e]; [| reflexivity].
  cbn [retried] in Hlast. apply N.leb_le in Hlast.
  destruct (server_error_status response Hlast) as (H1 & H2 & H3 & H4).
  now rewrite H1, H2, H3, H4.
Qed.

(** X9: transient failures that persist fail the download.  When the four
    attempts for the repository details all answer 500 or more or are
    failed fetches, [getRepoFiles] fails after four attempts and delays of
    300, 600 and 1200 milliseconds, with the status and status text of the
    last response in its message, or with the message about the network
    when the last attempt is a failed fetch. *)
Theorem persistent_failure_fails_the_download :
  forall (net : Network) (nullPropertyMessage : jsstring)
         (downloadTree :
            jsstring -> jsstring -> jsstring -> JsValue ->
            IO (list RepoFile))
         (owner repo token : jsstring) (w : World),
    (forall n, attempts w <= n <= attempts w + 3 ->
               retried (net n (detailsRequest owner repo token)) = true) ->
    getRepoFiles net nullPropertyMessage downloadTree owner repo token w
    = (Threw (newError
                (downloadErrorPrefix
                 ++ match net (attempts w + 3)
                              (detailsRequest owner repo token) with
                    | Returned response =>
                        str "Failed to fetch repository details ("
                        ++ decimal (status response) ++ str " "
                        ++ statusText response ++ str ")."
                    | Threw _ => networkErrorMessage
                    end)),
       {| attempts := attempts w + 4;
          waits := waits w ++ [300; 600; 1200]%Z |}).
Proof.
  intros net nullPropertyMessage downloadTree owner repo token w H.
  exact (getRepoFiles_persistent net nullPropertyMessage downloadTree
           owner repo token w H).
Qed.

(** X10: a blob that cannot be had is skipped, a failed fetch is thrown.
    [getBlobContent] returns null, and throws nothing, for a first answer
    below 500 that is not a 2xx, and, after four attempts, when all answers
    are 500 or more; when all four attempts are failed fetches it throws
    the message about the network. *)
Theorem unavailable_blob_is_skipped :
  forall (net : Network) (nullPropertyMessage : jsstring)
         (atob : option JsValue -> option jsstring)
         (owner repo blobSha path0 token : jsstring) (w : World),
    let request := blobRequest owner repo blobSha token in
    let blob := getBlobContent net nullPropertyMessage atob
                  owner repo blobSha path0 token w in
    (forall response,
        net (attempts w) request = Returned response ->
        (status response < 500)%N -> ok response = false ->
        blob = (Returned None,
                {| attempts := S (attempts w); waits := waits w |}))
    /\ ((forall n, attempts w <= n <= attempts w + 3 ->
                    exists response,
                      net n request = Returned response
                      /\ (500 <= status response)%N) ->
        blob = (Returned None,
                {| attempts := attempts w + 4;
                   waits := waits w ++ [300; 600; 1200]%Z |}))
    /\ ((forall n, attempts w <= n <= attempts w + 3 ->
                    net n request
                    = Threw (ErrorObject true (str "Failed to fetch"))) ->
        blob = (Threw (newError networkErrorMessage),
                {| attempts := attempts w + 4;
                   waits := waits w ++ [300; 600; 1200]%Z |})).
Proof.
  intros net nullPropertyMessage atob owner repo blobSha path0 token w
         request blob.
  subst blob. unfold getBlobContent. fold request.
  split; [| split].
  - intros response Hn Hs Hok.
    rewrite (GithubFacts.performFetch_returns_at_once net request _ _ w
               response Hn Hs).
    now rewrite Hok.
  - intros H.
    assert (Hret : forall n, attempts w <= n <= attempts w + 3 ->
                             retried (net n request) = true).
    { intros n Hn. destruct (H n Hn) as (response & -> & Hs).
      cbn [retried]. now apply N.leb_le. }
    rewrite (performFetch_persistent net request defaultRetries
               defaultBackoff w Hret).
    destruct (H (attempts w + 3) ltac:(lia)) as (response & Hlast & Hs).
    unfold defaultRetries, defaultBackoff. rewrite Hlast.
    destruct (server_error_status response Hs) as (H1 & _). rewrite H1.
    cbn [negb backoffs Z.mul Pos.mul]. do 2 f_equal. lia.
  - intros H.
    assert (Hret : forall n, attempts w <= n <= attempts w + 3 ->
                             retried (net n request) = true).
    { intros n Hn. now rewrite (H n Hn). }
    rewrite (performFetch_persistent net request defaultRetries
               defaultBackoff w Hret).
    unfold defaultRetries, defaultBackoff.
    rewrite (H (attempts w + 3) ltac:(lia)).
    cbn [backoffs Z.mul Pos.mul]. do 2 f_equal. lia.
Qed.

End GithubMoreFacts.

(** ** URLs: the repository and the name of the download *)

Module UrlFacts.
Import GithubService App AppMethods.

Local Unset Implicit Arguments.

Section Split.

Variable sep : char.

#[local] Abbreviation nonEmpty := (fun p : jsstring => negb (isEmpty p)).

Lemma split_cons c s :
  split sep (c :: s)
  = if N.eqb c sep then [] :: split sep s
    else match split sep s with
         | p :: ps => (c :: p) :: ps
         | [] => [[c]]
         end.
Proof. reflexivity. Qed.

Lemma split_nonempty s : split sep s <> [].
Proof.
  destruct s as [|c s]; [discriminate |]. rewrite split_cons.
  destruct (N.eqb c sep); [discriminate |].
  destruct (split sep s); discriminate.
Qed.

(** The first part of a split, and the text the other parts come from. *)
Lemma split_head s :
  forall hd tl,
    split sep s = hd :: tl ->
    ~ In sep hd
    /\ ((tl = [] /\ s = hd)
        \/ exists s', s = hd ++ sep :: s' /\ split sep s' = tl).
Proof.
  induction s as [|c s IH]; intros hd tl H.
  - injection H as <- <-. split; [intros [] | now left].
  - rewrite split_cons in H. destruct (N.eqb_spec c sep) as [->|Hc].
    + injection H as <- <-. split; [intros [] |]. right. now exists s.
    + destruct (split sep s) as [|p ps] eqn:E;
        [now apply split_nonempty in E |].
      injection H as <- <-.
      destruct (IH p ps eq_refl) as [Hp Hs]. split.
      * intros [Heq | Hin]; [now apply Hc | now apply Hp].
      * destruct Hs as [[-> ->] | (s' & -> & Hs')]; [now left |].
        right. now exists s'.
Qed.

(** The first part that is not empty. *)
Lemma first_part s :
  forall a rest,
    filter nonEmpty (split sep s) = a :: rest ->
    exists i s',
      s = repeat sep i ++ a ++ s'
      /\ a <> [] /\ ~ In sep a
      /\ ((s' = [] /\ rest = [])
          \/ exists s'', s' = sep :: s''
                         /\ filter nonEmpty (split sep s'') = rest).
Proof.
  induction s as [|c s IH]; intros a rest H.
  - discriminate.
  - rewrite split_cons in H. destruct (N.eqb_spec c sep) as [->|Hc].
    + cbn [filter isEmpty negb] in H.
      destruct (IH a rest H) as (i & s' & -> & Hr).
      now exists (S i), s'.
    + destruct (split sep s) as [|p ps] eqn:E;
        [now apply split_nonempty in E |].
      cbn [filter isEmpty negb] in H. injection H as <- <-.
      destruct (split_head s p ps E) as [Hp Hs].
      exists 0. cbn [repeat app].
      destruct Hs as [[-> ->] | (s' & -> & Hs')].
      * exists []. rewrite app_nil_r.
        repeat split; [discriminate | | now left].
        intros [Heq | Hin]; [now apply Hc | now apply Hp].
      * exists (sep :: s').
        repeat split;
          [discriminate | | right; exists s'; now rewrite Hs'].
        intros [Heq | Hin]; [now apply Hc | now apply Hp].
Qed.

Lemma filter_split_repeat i s :
  filter nonEmpty (split sep (repeat sep i ++ s))
  = filter nonEmpty (split sep s).
Proof.
  induction i as [|i IH]; [reflexivity |].
  cbn [repeat app]. now rewrite split_cons, N.eqb_refl.
Qed.

Lemma split_app_sep a s :
  ~ In sep a -> split sep (a ++ sep :: s) = a :: split sep s.
Proof.
  induction a as [|c a IH]; intros H.
  - cbn [app]. now rewrite split_cons, N.eqb_refl.
  - cbn [app]. rewrite split_cons.
    destruct (N.eqb_spec c sep) as [->|Hc]; [exfalso; apply H; now left |].
    rewrite IH; [reflexivity |]. intros Hin. apply H. now right.
Qed.

Lemma split_no_sep a : ~ In sep a -> split sep a = [a].
Proof.
  induction a as [|c a IH]; intros H; [reflexivity |].
  rewrite split_cons.
  destruct (N.eqb_spec c sep) as [->|Hc]; [exfalso; apply H; now left |].
  rewrite IH; [reflexivity |]. intros Hin. apply H. now right.
Qed.

(** [split] and [join] are inverse to each other on a text. *)
Lemma join_split s : join sep (split sep s) = s.
Proof.
  induction s as [|c s IH]; [reflexivity |].
  rewrite split_cons. destruct (N.eqb_spec c sep) as [->|Hc].
  - destruct (split sep s) as [|p ps] eqn:E;
      [now apply split_nonempty in E |].
    cbn [join app]. now rewrite <- IH.
  - destruct (split sep s) as [|p ps] eqn:E;
      [now apply split_nonempty in E |].
    rewrite <- IH. now destruct ps.
Qed.

(** The last part of a split is the text behind the last separator. *)
Lemma split_last s :
  ~ In sep (last (split sep s) [])
  /\ exists before,
       s = before ++ last (split sep s) []
       /\ (before = [] \/ exists b, before = b ++ [sep]).
Proof.
  induction s as [|c s IH].
  - split; [intros [] |]. exists []. split; [reflexivity | now left].
  - destruct IH as (Hno & before & Hs & Hb).
    rewrite split_cons.
    destruct (split sep s) as [|p ps] eqn:E;
      [now apply split_nonempty in E |].
    destruct (N.eqb_spec c sep) as [->|Hc].
    + change (last ([] :: p :: ps) []) with (last (p :: ps) (@nil char)).
      split; [exact Hno |].
      exists (sep :: before). split; [cbn [app]; f_equal; exact Hs |].
      right. destruct Hb as [-> | (b & ->)];
        [now exists [] | now exists (sep :: b)].
    + destruct ps as [|q ps].
      * cbn [last] in *.
        destruct (split_head s p [] E) as [Hp [[_ Hsp] | (s' & _ & Hs')]];
          [| now apply split_nonempty in Hs'].
        split; [intros [Heq | Hin]; [now apply Hc | now apply Hp] |].
        exists []. split; [now rewrite Hsp | now left].
      * change (last ((c :: p) :: q :: ps) []) with (last (q :: ps) (@nil char)).
        change (last (p :: q :: ps) []) with (last (q :: ps) (@nil char)) in Hno, Hs.
        split; [exact Hno |].
        destruct Hb as [-> | (b & ->)].
        -- exfalso. cbn [app] in Hs.
           destruct (split_head s p (q :: ps) E)
             as [Hp [[Hnil _] | (s' & Hs1 & Hs2)]]; [discriminate |].
           assert (Hin : In sep s) by (rewrite Hs1; apply in_or_app; right; now left).
           rewrite Hs in Hin. exact (Hno Hin).
        -- exists (c :: b ++ [sep]). split; [cbn [app]; f_equal; exact Hs |].
           right. now exists (c :: b).
Qed.

End Split.

Lemma two_parts (owner repo rest : jsstring) (i j : nat) :
  owner <> [] -> repo <> [] -> ~ In SLASH owner -> ~ In SLASH repo ->
  rest = [] \/ (exists rest', rest = SLASH :: rest') ->
  exists more,
    filter (fun p => negb (isEmpty p))
      (split SLASH (repeat SLASH i ++ owner ++ SLASH :: repeat SLASH j
                    ++ repo ++ rest))
    = owner :: repo :: more.
Proof.
  intros Ho Hr Hno Hnr Hrest.
  rewrite filter_split_repeat, (split_app_sep SLASH owner _ Hno).
  destruct owner as [|c owner]; [congruence |].
  cbn [filter isEmpty negb]. rewrite filter_split_repeat.
  destruct Hrest as [-> | (rest' & ->)].
  - rewrite app_nil_r, (split_no_sep SLASH repo Hnr).
    destruct repo as [|d repo]; [congruence |]. now exists [].
  - rewrite (split_app_sep SLASH repo _ Hnr).
    destruct repo as [|d repo]; [congruence |].
    cbn [filter isEmpty negb]. eauto.
Qed.

(** X11: the repository is read from the first two segments of the path.
    [parseGithubUrl] returns an owner and a repository exactly when the URL
    parses, its host is github.com and its path holds two segments that
    are not empty; these are the first two, whatever follows them and
    however many slashes separate them.  Every failure is thrown as the
    same error, whatever its cause. *)
Theorem parseGithubUrl_reads_the_first_two_segments :
  forall (parseURL : jsstring -> option (jsstring * jsstring))
         (url : jsstring),
    (forall owner repo : jsstring,
        parseGithubUrl parseURL url = Returned (owner, repo)
        <-> exists (pathname : jsstring) (i j : nat) (rest : jsstring),
              parseURL url = Some (str "github.com", pathname)
              /\ pathname
                 = repeat SLASH i ++ owner ++ SLASH :: repeat SLASH j
                   ++ repo ++ rest
              /\ owner <> [] /\ repo <> []
              /\ ~ In SLASH owner /\ ~ In SLASH repo
              /\ (rest = [] \/ exists rest', rest = SLASH :: rest'))
    /\ (forall e : Thrown,
          parseGithubUrl parseURL url = Threw e ->
          e = newError invalidUrlMessage).
Proof.
  intros parseURL url. split.
  - intros owner repo. split.
    + unfold parseGithubUrl.
      destruct (parseURL url) as [[hostname pathname]|]; [| discriminate].
      destruct (JsString.eqb hostname (str "github.com")) eqn:Hh;
        cbn [negb]; [| discriminate].
      apply JsStringFacts.eqb_eq in Hh. subst hostname. cbv zeta.
      destruct (filter _ (split 47%N pathname)) as [|a [|b more]] eqn:F;
        try discriminate.
      intros [= -> ->].
      destruct (first_part SLASH pathname _ _ F)
        as (i & s1 & Hp & Ho & Hno & [[_ Habs] | (s2 & -> & F2)]);
        [discriminate |].
      destruct (first_part SLASH s2 _ _ F2)
        as (j & s3 & -> & Hr & Hnr & Hrest).
      exists pathname, i, j, s3.
      repeat split; auto.
      destruct Hrest as [[-> _] | (s4 & -> & _)]; [now left | right; eauto].
    + intros (pathname & i & j & rest & Hu & -> & Ho & Hr & Hno & Hnr & Hrest).
      unfold parseGithubUrl. rewrite Hu.
      replace (JsString.eqb (str "github.com") (str "github.com")) with true
        by (symmetry; now apply JsStringFacts.eqb_eq).
      cbn [negb]. cbv zeta.
      destruct (two_parts owner repo rest i j Ho Hr Hno Hnr Hrest)
        as (more & Hm).
      change (split 47%N) with (split SLASH). now rewrite Hm.
  - intros e. unfold parseGithubUrl.
    destruct (parseURL url) as [[hostname pathname]|]; [| now intros [= <-]].
    destruct (negb _); [now intros [= <-] |]. cbv zeta.
    destruct (filter _ _) as [|a [|b more]];
      try (now intros [= <-]); discriminate.
Qed.

Lemma defaultRepoName_plain :
  defaultRepoName <> [] /\ ~ In SLASH defaultRepoName.
Proof.
  split; [discriminate |].
  intros H. vm_compute in H.
  repeat (destruct H as [H | H]; [discriminate |]). exact H.
Qed.

(** X12: the download is named after what follows the last slash.
    [onDownloadZip] does nothing while there are no records; otherwise it
    hands all the records to the zip service, with a name that is never
    empty and holds no slash: the text of the URL after its last slash,
    or the default name when the URL is empty or ends in a slash. *)
Theorem download_is_named_after_the_last_segment :
  forall this : AppComponent,
    match onDownloadZip this with
    | None => reimplementedFiles this = None
    | Some (files, repoName) =>
        reimplementedFiles this = Some files
        /\ repoName <> [] /\ ~ In SLASH repoName
        /\ exists before : jsstring,
             (before = [] \/ exists b, before = b ++ [SLASH])
             /\ (repoUrl this = before ++ repoName
                 \/ (repoUrl this = before
                     /\ repoName = defaultRepoName))
    end.
Proof.
  intros this. unfold onDownloadZip.
  destruct (reimplementedFiles this) as [files|]; [| reflexivity].
  split; [reflexivity |]. unfold repoNameOf. cbv zeta.
  destruct (split_last SLASH (repoUrl this)) as (Hno & before & Hu & Hb).
  destruct (last (split SLASH (repoUrl this)) []) as [|c name] eqn:E;
    cbn [isEmpty].
  - destruct defaultRepoName_plain as [H1 H2].
    split; [exact H1 | split; [exact H2 |]].
    exists before. split; [exact Hb |]. right.
    rewrite app_nil_r in Hu. now split.
  - split; [discriminate | split; [exact Hno |]].
    exists before. split; [exact Hb | now left].
Qed.

End UrlFacts.

(** ** The component: how a run ends, and the states it goes through *)

Module AppMoreFacts.
Import App AppMethods AppFacts.

Local Unset Implicit Arguments.

Local Open Scope task_scope.

(** Every run fails in one of the ways of [FatalError], or all its stages
    succeed. *)
Lemma scenario_cases (env : Collaborators) (url token : jsstring) :
  (exists completed inProgress message,
      FatalError env url token completed inProgress message)
  \/ (exists relevantFiles analysis stream,
         AnalysisDone env url token relevantFiles analysis
         /\ reimplementCode env relevantFiles (Some analysis)
            = Returned stream
         /\ ending stream = None).
Proof.
  destruct (GithubService.parseGithubUrl (parseURL env) url)
    as [[owner repo]|e] eqn:Hp.
  2: { left. exists 0, false, (messageOf e).
       exact (@fatal_url env url token e Hp). }
  destruct (getRepoFiles env owner repo token) as [allFiles|e] eqn:Hg.
  2: { left. exists 0, true, (messageOf e).
       exact (@fatal_fetch env url token owner repo e Hp Hg). }
  pose proof (@fetched env url token owner repo allFiles Hp Hg) as Hf.
  destruct allFiles as [|file allFiles].
  { left. exists 1, false, emptyRepositoryMessage.
    exact (@fatal_empty env url token Hf). }
  assert (Hne : file :: allFiles <> []) by discriminate.
  destruct (selectRelevantFiles env
              (map GithubService.path (file :: allFiles)))
    as [paths|e] eqn:Hs.
  2: { left. exists 1, true, (messageOf e).
       exact (@fatal_select env url token _ e Hf Hne Hs). }
  pose proof (@selected env url token _ paths Hf Hne Hs) as Hsel.
  destruct (analyzeCode env (relevantFilesOf (file :: allFiles) paths))
    as [analysisStream|e] eqn:Ha.
  2: { left. exists 2, true, (messageOf e).
       exact (@fatal_analyze env url token _ e Hsel Ha). }
  destruct (ending analysisStream) as [e|] eqn:He.
  { left. exists 2, true, (messageOf e).
    exact (@fatal_analysis_stream env url token _ _ e Hsel Ha He). }
  pose proof (@analyzed env url token _ analysisStream Hsel Ha He) as Hdone.
  destruct (reimplementCode env (relevantFilesOf (file :: allFiles) paths)
              (Some (concat (chunks analysisStream))))
    as [stream|e] eqn:Hr.
  2: { left. exists 3, true, (messageOf e).
       exact (@fatal_reimplement env url token _ _ e Hdone Hr). }
  destruct (ending stream) as [e|] eqn:Hend.
  { left. exists 3, true, (messageOf e).
    exact (@fatal_reimplementation_stream env url token _ _ _ e
             Hdone Hr Hend). }
  right. now exists (relevantFilesOf (file :: allFiles) paths),
                    (concat (chunks analysisStream)), stream.
Qed.

(** What a failed run returns and leaves. *)
Lemma failed_run_returns env this completed inProgress message :
  isEmpty (repoUrl this) = false ->
  FatalError env (repoUrl this) (githubToken this)
             completed inProgress message ->
  exists before,
    fst (onAnalyzeRepo env this)
    = (Returned tt,
       set_statusSteps (failInProgress (statusSteps before))
         (set_errorMessage (Some message) (set_appState ErrorState before)))
    /\ statusSteps before
       = withStatuses (statusesBeforeFailure completed inProgress).
Proof.
  intros Hurl HF.
  destruct (guarded_fatal env _ _ (afterLoading this) _ _ _ HF)
    as (before & Hrun & Hsteps & _).
  exists before. split; [| exact (Hsteps eq_refl)].
  rewrite (onAnalyzeRepo_fst env this Hurl), Hrun, handleError_fst.
  now rewrite handleError_final.
Qed.

(** What a run returns and leaves when all its stages succeed. *)
Lemma successful_run env this relevantFiles analysis stream :
  isEmpty (repoUrl this) = false ->
  AnalysisDone env (repoUrl this) (githubToken this) relevantFiles analysis ->
  reimplementCode env relevantFiles (Some analysis) = Returned stream ->
  ending stream = None ->
  fst (onAnalyzeRepo env this)
  = (Returned tt,
     set_appState Reimplemented
       (markStatus 5 Complete
          (markStatus 4 Complete
             (set_reimplementedFiles
                (emittedFiles (JSON_parse env) (chunks stream))
                (markStatus 4 InProgress
                   (afterAnalysis relevantFiles analysis
                      (afterLoading this))))))).
Proof.
  intros Hurl Ha Hr He.
  rewrite (onAnalyzeRepo_fst env this Hurl).
  unfold guarded. rewrite tryCatch_fst.
  rewrite (tryBlock_after_analysis env _ _ _ _ _ Ha).
  now rewrite (reimplementStage_returns env
                 (afterAnalysis relevantFiles analysis (afterLoading this))
                 _ _ Hr He).
Qed.

Lemma emittedFiles_present J chunks : present (emittedFiles J chunks) = true.
Proof.
  destruct (processStream_files_append J chunks [] [] []) as (new & H & _).
  assert (E : emittedFiles J chunks = Some ([] ++ new)) by exact H.
  now rewrite E.
Qed.

(** X15: a call of [onAnalyzeRepo] never throws and never leaves the
    component loading.  It returns, and the component is either in the
    state error with a message, and then no step is left in progress when
    the URL was not empty, or in the state reimplemented without a
    message, with all five steps complete and the fetched files, the
    analysis and the records set. *)
Theorem run_ends_in_error_or_reimplemented :
  forall (env : Collaborators) (this : AppComponent),
    let r := onAnalyzeRepo env this in
    let final := finalState r in
    fst (fst r) = Returned tt
    /\ ((appState final = ErrorState
         /\ (exists message, errorMessage final = Some message)
         /\ (isEmpty (repoUrl this) = false -> inProgressCount final = 0))
        \/ (appState final = Reimplemented
            /\ errorMessage final = None
            /\ statuses final
               = [Complete; Complete; Complete; Complete; Complete]
            /\ present (fetchedFiles final) = true
            /\ present (analysisResult final) = true
            /\ present (reimplementedFiles final) = true)).
Proof.
  intros env this r final. subst final r. unfold finalState.
  destruct (isEmpty (repoUrl this)) eqn:Hurl.
  - unfold onAnalyzeRepo. rewrite Hurl, handleError_fst, handleError_final.
    split; [reflexivity |]. left.
    split; [reflexivity | split; [now exists emptyUrlMessage | discriminate]].
  - destruct (scenario_cases env (repoUrl this) (githubToken this))
      as [(completed & inProgress & message & HF)
         | (relevantFiles & analysis & stream & Ha & Hr & He)].
    + destruct (failed_run_returns env this _ _ _ Hurl HF)
        as (before & Hrun & Hsteps).
      pose proof (FatalError_completed _ _ _ _ _ _ HF) as Hc.
      rewrite Hrun. split; [reflexivity |]. left.
      split; [reflexivity | split; [now exists message |]].
      intros _. unfold inProgressCount.
      cbn [snd statusSteps set_statusSteps]. rewrite Hsteps.
      destruct completed as [|[|[|[|n]]]]; [| | | | lia];
        destruct inProgress; reflexivity.
    + rewrite (successful_run env this _ _ _ Hurl Ha Hr He).
      split; [reflexivity |]. right. cbn [snd fst].
      repeat split. cbn. apply emittedFiles_present.
Qed.

(** *** The states of a run *)

Lemma chain_impl (R R' : AppComponent -> AppComponent -> Prop) this trace :
  (forall s s', R s s' -> R' s s') -> chain R this trace -> chain R' this trace.
Proof.
  intros H. revert this.
  induction trace as [|s trace IH]; intros this; cbn [chain]; [auto |].
  intros [HR Hc]. split; [exact (H _ _ HR) | exact (IH _ Hc)].
Qed.

Lemma last_cases {X : Type} (l : list X) (d : X) :
  last l d = d \/ In (last l d) l.
Proof.
  revert d. induction l as [|x l IH]; intros d; [now left |]. right.
  rewrite last_cons. destruct (IH x) as [-> | H]; [now left | now right].
Qed.

Lemma chain_frame this trace :
  chain forwardWrite this trace ->
  Forall (fun s => repoUrl s = repoUrl this
                   /\ githubToken s = githubToken this) trace.
Proof.
  revert this. induction trace as [|s trace IH]; intros this; cbn [chain];
    [constructor |].
  intros [(_ & Hu & Ht & _) Hc]. constructor; [now split |].
  eapply Forall_impl; [| exact (IH _ Hc)].
  cbn beta. intros s' [H1 H2]. split; congruence.
Qed.

Section Forward.

Variables (env : Collaborators) (url token : jsstring).

#[local] Abbreviation F := forwardWrite.

Ltac onward :=
  let s := fresh "s" in
  let H := fresh "H" in
  intros s H;
  unfold Working, Holding, Streaming, Reviewed, Parsing, Busy, forwardWrite,
         consistent, markStatus, appendChunk in *;
  destruct s; cbn in *;
  repeat match goal with
         | H : _ /\ _ |- _ => destruct H
         | H : _ \/ _ |- _ => destruct H
         end;
  subst; cbn;
  repeat match goal with
         | H : present _ = true |- _ => rewrite H
         end;
  cbn; auto 10.

Ltac thenAt Q := eapply (traced_bind F _ _ _ (fun _ => Q)).

Lemma fetchStage_forward :
  traced F Working (fetchStage env url token)
    (fun _ => Working) (fun _ => Busy).
Proof.
  unfold fetchStage, updateStatus.
  thenAt Working.
  { apply traced_await. intros this H.
    destruct (GithubService.parseGithubUrl (parseURL env) url);
      [exact H | now left]. }
  intros [owner repo]. thenAt Working; [apply traced_write; onward |].
  intros _. thenAt Working.
  { apply traced_await. intros this H.
    destruct (getRepoFiles env owner repo token); [exact H | now left]. }
  intros allFiles. thenAt Working; [apply traced_write; onward |].
  intros _. apply traced_ret. auto.
Qed.

Lemma selectStage_forward allFiles :
  traced F Working (selectStage env allFiles)
    (fun _ => Holding) (fun _ => Busy).
Proof.
  unfold selectStage, updateStatus.
  thenAt Working; [apply traced_write; onward |].
  intros _. thenAt Working.
  { apply traced_await. intros this H.
    destruct (selectRelevantFiles env _); [exact H | now left]. }
  intros relevantFilePaths. thenAt Working; [apply traced_write; onward |].
  intros _. thenAt Holding; [apply traced_write; onward |].
  intros _. apply traced_ret. auto.
Qed.

Lemma analyzeStage_forward relevantFiles :
  traced F Holding (analyzeStage env relevantFiles)
    (fun _ => Reviewed) (fun _ => Busy).
Proof.
  unfold analyzeStage, updateStatus.
  thenAt Holding; [apply traced_write; onward |].
  intros _. thenAt Holding.
  { apply traced_await. intros this H.
    destruct (analyzeCode env relevantFiles); [exact H | left; apply H]. }
  intros analysisStream. thenAt Streaming; [apply traced_write; onward |].
  intros _. thenAt Streaming.
  { apply (traced_forAwait F (fun _ => Streaming)).
    - intros _ chunk. apply traced_write. onward.
    - intros _ e this H. left. apply H. }
  intros _. thenAt Streaming; [apply traced_write; onward |].
  intros _. apply traced_write. onward.
Qed.

Lemma processChunk_present J buffer files chunk :
  present files = true ->
  present (snd (processChunk J (buffer, files) chunk)) = true.
Proof.
  destruct files as [fs|]; [intros _ | discriminate].
  unfold processChunk. cbn [fst snd].
  destruct (processBuffer_files_append J (buffer ++ chunk) [] fs)
    as (new & H & _).
  now rewrite H.
Qed.

Lemma parseChunk_forward buffer chunk :
  traced F Parsing (parseChunk env buffer chunk)
    (fun _ => Parsing) (fun _ => Busy).
Proof.
  intros this H. unfold parseChunk, finalState, traceOf.
  pose proof (processChunk_present (JSON_parse env) buffer
                (reimplementedFiles this) chunk (proj2 (proj2 (proj2 H))))
    as Hp.
  destruct (processChunk (JSON_parse env) (buffer, reimplementedFiles this)
              chunk) as [buffer1 files].
  cbn [fst snd chain last] in *.
  assert (HW : F this (set_reimplementedFiles files this)
               /\ Parsing (set_reimplementedFiles files this)).
  { revert Hp. revert this H. onward. }
  destruct HW as [HF HP].
  split; [split; [exact HF | exact I] | split; [reflexivity | exact HP]].
Qed.

Lemma reimplementStage_forward relevantFiles :
  traced F Reviewed (reimplementStage env relevantFiles)
    (fun _ s => appState s = Reimplemented) (fun _ => Busy).
Proof.
  unfold reimplementStage, updateStatus.
  thenAt Reviewed; [apply traced_write; onward |].
  intros _. thenAt Parsing; [apply traced_write; onward |].
  intros _. thenAt Parsing.
  { intros this H. unfold await, finalState, traceOf. cbn [fst snd chain last].
    split; [exact I | split; [reflexivity |]].
    destruct (reimplementCode env relevantFiles (analysisResult this));
      [exact H | right; apply H]. }
  intros reimplementationStream. thenAt Parsing.
  { apply (traced_forAwait F (fun _ => Parsing)).
    - intros buffer chunk. apply parseChunk_forward.
    - intros _ e this H. right. apply H. }
  intros _. thenAt Parsing; [apply traced_write; onward |].
  intros _. thenAt Parsing; [apply traced_write; onward |].
  intros _. apply traced_write. onward.
Qed.

Lemma handleError_forward message :
  traced F Busy (handleError message) (fun _ _ => True) (fun _ _ => False).
Proof.
  unfold handleError.
  thenAt (fun s => appState s = ErrorState); [apply traced_write; onward |].
  intros _. thenAt (fun s => appState s = ErrorState);
    [apply traced_write; onward |].
  intros _ this H. unfold finalState, traceOf, updateStatus.
  destruct (find _ (statusSteps this)) as [inProgressStep|];
    cbn [write ret fst snd chain last]; [| now repeat split].
  repeat split; auto.
  all: unfold consistent, markStatus; destruct this; cbn in *; subst;
    reflexivity.
Qed.

Lemma tryBlock_forward :
  traced F Working (tryBlock env url token)
    (fun _ _ => True) (fun _ => Busy).
Proof.
  unfold tryBlock.
  thenAt Working; [apply fetchStage_forward |].
  intros allFiles. destruct (Nat.eqb (length allFiles) 0).
  - eapply traced_weaken; [apply handleError_forward | | auto | ].
    + intros this H. now left.
    + intros e this [].
  - thenAt Holding; [apply selectStage_forward |].
    intros relevantFiles. thenAt Reviewed; [apply analyzeStage_forward |].
    intros _. eapply traced_weaken; [apply reimplementStage_forward | | | ];
      auto.
Qed.

Lemma started_forward :
  traced F (fun s => appState s = Idle) (started env url token)
    (fun _ _ => True) (fun _ _ => False).
Proof.
  unfold started, guarded.
  thenAt Working; [apply traced_write; onward |].
  intros _. eapply traced_tryCatch; [apply tryBlock_forward |].
  intros e. apply handleError_forward.
Qed.

End Forward.

Lemma onAnalyzeRepo_trace env this :
  isEmpty (repoUrl this) = false ->
  traceOf (onAnalyzeRepo env this)
  = traceOf (resetState this)
    ++ traceOf (started env (repoUrl this) (githubToken this)
                  (afterReset this)).
Proof.
  intros Hurl. unfold onAnalyzeRepo. rewrite Hurl.
  apply (bind_trace resetState
           (fun _ => started env (repoUrl this) (githubToken this))
           this tt (afterReset this)).
  reflexivity.
Qed.

(** X16: the application state only moves forward.  A run (the URL is not
    empty) writes the state idle while it resets the component; from there
    on every write leaves the state as it is or moves it from idle to
    loading, from loading to analyzed, from analyzed to reimplemented, or
    from loading or analyzed to error.  In every state written the
    signals of that state are set: the fetched files and the analysis in
    the state analyzed, the records as well in the state reimplemented. *)
Theorem application_state_moves_forward :
  forall (env : Collaborators) (this : AppComponent),
    isEmpty (repoUrl this) = false ->
    let reset := afterReset this in
    let body :=
      traceOf (started env (repoUrl this) (githubToken this) reset) in
    traceOf (onAnalyzeRepo env this) = traceOf (resetState this) ++ body
    /\ Forall (fun s => appState s = Idle) (traceOf (resetState this))
    /\ finalState (resetState this) = reset
    /\ chain (fun s s' => stateMove (appState s) (appState s') = true)
             reset body
    /\ Forall (fun s => consistent s = true) body.
Proof.
  intros env this Hurl reset body.
  assert (Hchain : chain forwardWrite reset body).
  { apply (started_forward env (repoUrl this) (githubToken this) reset).
    reflexivity. }
  split; [exact (onAnalyzeRepo_trace env this Hurl) |].
  split; [cbn; repeat constructor |].
  split; [reflexivity |]. split.
  - eapply chain_impl; [| exact Hchain]. intros s s' H. apply H.
  - eapply chain_Forall; [| exact Hchain]. intros s s' H. apply H.
Qed.

(** X17: a run never writes to the URL or to the token.  In every state a
    call of [onAnalyzeRepo] goes through, and in the one it leaves, the
    two inputs are what they were when it was called. *)
Theorem inputs_are_never_written :
  forall (env : Collaborators) (this : AppComponent),
    let r := onAnalyzeRepo env this in
    Forall (fun s => repoUrl s = repoUrl this
                     /\ githubToken s = githubToken this)
           (finalState r :: traceOf r).
Proof.
  intros env this r.
  assert (Htrace : Forall (fun s => repoUrl s = repoUrl this
                                    /\ githubToken s = githubToken this)
                          (traceOf r)).
  { subst r. destruct (isEmpty (repoUrl this)) eqn:Hurl.
    - unfold onAnalyzeRepo. rewrite Hurl.
      unfold handleError, bind, write, traceOf, updateStatus.
      cbn [snd fst app statusSteps set_errorMessage set_appState].
      destruct (find _ (statusSteps this)); cbn; repeat constructor.
    - rewrite (onAnalyzeRepo_trace env this Hurl). apply Forall_app. split.
      + cbn. repeat constructor.
      + apply (chain_frame (afterReset this)).
        apply (started_forward env (repoUrl this) (githubToken this)
                 (afterReset this)).
        reflexivity. }
  constructor; [| exact Htrace].
  assert (Hlast : finalState r = last (traceOf r) this).
  { subst r. destruct (isEmpty (repoUrl this)) eqn:Hurl.
    - unfold onAnalyzeRepo. rewrite Hurl.
      unfold handleError, bind, write, traceOf, finalState, updateStatus.
      cbn [snd fst app statusSteps set_errorMessage set_appState].
      destruct (find _ (statusSteps this)); reflexivity.
    - rewrite (onAnalyzeRepo_trace env this Hurl), last_app_state.
      unfold finalState at 1.
      rewrite (onAnalyzeRepo_fst env this Hurl).
      pose proof (started_forward env (repoUrl this) (githubToken this)
                    (afterReset this) eq_refl) as (_ & Hl & _).
      unfold started in Hl. unfold finalState in Hl at 1.
      rewrite bind_fst, write_fst in Hl. cbv beta iota in Hl.
      change (set_appState Loading (afterReset this))
        with (afterLoading this) in Hl.
      rewrite Hl. f_equal. }
  rewrite Hlast.
  destruct (last_cases (traceOf r) this) as [-> | Hin]; [now split |].
  rewrite Forall_forall in Htrace. exact (Htrace _ Hin).
Qed.

(** *** The selection, the file view, and the download of the repository *)

Lemma selected_path (paths : list jsstring) (f : GithubService.RepoFile) :
  existsb (JsString.eqb (GithubService.path f)) paths = true
  <-> In (GithubService.path f) paths.
Proof.
  rewrite existsb_exists. split.
  - intros (p & Hin & Heq). apply JsStringFacts.eqb_eq in Heq. now subst.
  - intros Hin. exists (GithubService.path f). split; [exact Hin |].
    now apply JsStringFacts.eqb_eq.
Qed.

(** X18: the selection filters the files of the repository.  The files
    analysed are the files of the repository whose path the model
    selected, in the order of the repository; a selected path that no file
    has is ignored, and neither the order of the selection nor a path
    selected twice makes a difference. *)
Theorem selection_filters_the_repository :
  forall (allFiles : list GithubService.RepoFile) (paths : list jsstring),
    (forall f, In f (relevantFilesOf allFiles paths)
               <-> In f allFiles /\ In (GithubService.path f) paths)
    /\ (forall more,
          relevantFilesOf (allFiles ++ more) paths
          = relevantFilesOf allFiles paths ++ relevantFilesOf more paths)
    /\ (forall paths',
          (forall f, In f allFiles ->
                     (In (GithubService.path f) paths
                      <-> In (GithubService.path f) paths')) ->
          relevantFilesOf allFiles paths' = relevantFilesOf allFiles paths)
    /\ length (relevantFilesOf allFiles paths) <= length allFiles.
Proof.
  intros allFiles paths. unfold relevantFilesOf.
  split; [| split; [| split]].
  - intros f. rewrite filter_In. now rewrite selected_path.
  - intros more. apply filter_app.
  - intros paths' H. apply filter_ext_in. intros f Hf.
    destruct (existsb _ paths) eqn:E.
    + apply selected_path. apply (H f Hf). now apply selected_path.
    + destruct (existsb _ paths') eqn:E'; [| reflexivity].
      apply selected_path in E'. apply (H f Hf) in E'.
      apply selected_path in E'. congruence.
  - apply filter_length_le.
Qed.

(** X19: toggling a file twice.  [toggleFile] expands the file, or
    collapses it when it is the one expanded; it collapses no other file
    without expanding this one.  Toggling the same file twice gives the
    component back exactly when no other file was expanded. *)
Theorem toggleFile_twice :
  forall (path : jsstring) (this : AppComponent),
    let once := finalState (toggleFile path this) in
    let twice := finalState (toggleFile path once) in
    (expandedFile once = None <-> expandedFile this = Some path)
    /\ (expandedFile once = None \/ expandedFile once = Some path)
    /\ (twice = this
        <-> (expandedFile this = None \/ expandedFile this = Some path)).
Proof.
  intros path this once twice. subst twice once.
  assert (Hrefl : JsString.eqb path path = true)
    by now apply JsStringFacts.eqb_eq.
  destruct this as [u t st em ar rf ff [current|] ss];
    unfold toggleFile, finalState, write; cbn.
  - destruct (JsString.eqb current path) eqn:E; cbn.
    + apply JsStringFacts.eqb_eq in E. subst current.
      repeat split; auto.
    + assert (Hne : current <> path).
      { intros ->. congruence. }
      rewrite Hrefl. repeat split; try discriminate.
      * intros [= ->]. congruence.
      * now right.
      * intros [H | [= H]]; [discriminate | congruence].
  - rewrite Hrefl. repeat split; try discriminate; auto.
Qed.

(** X20: an unreachable GitHub is reported.  With the GitHub service on a
    network whose first four attempts for the repository details answer
    500 or more or are failed fetches, a run ends in the state error; the
    message is that of the download with its reason, the status of the
    last answer or the text about the network, and the first step is
    marked as error while the others stay pending. *)
Theorem unreachable_github_is_reported :
  forall (net : GithubService.Network) (nullPropertyMessage : jsstring)
         (downloadTree :
            jsstring -> jsstring -> jsstring -> JsValue ->
            GithubService.IO (list GithubService.RepoFile))
         (base : Collaborators) (this : AppComponent)
         (owner repo : jsstring),
    let env := withGithub net nullPropertyMessage downloadTree base in
    let request :=
      GithubService.detailsRequest owner repo (githubToken this) in
    isEmpty (repoUrl this) = false ->
    GithubService.parseGithubUrl (parseURL base) (repoUrl this)
    = Returned (owner, repo) ->
    (forall n, n <= 3 -> GithubBlobs.retried (net n request) = true) ->
    let final := finalState (onAnalyzeRepo env this) in
    appState final = ErrorState
    /\ errorMessage final
       = Some (GithubService.downloadErrorPrefix
               ++ match net 3 request with
                  | Returned response =>
                      str "Failed to fetch repository details ("
                      ++ GithubService.decimal
                           (GithubService.status response)
                      ++ str " " ++ GithubService.statusText response
                      ++ str ")."
                  | Threw _ => GithubService.networkErrorMessage
                  end)
    /\ statuses final = [Failed; Pending; Pending; Pending; Pending].
Proof.
  intros net nullPropertyMessage downloadTree base this owner repo env
         request Hurl Hparse Hnet final.
  assert (Hget : getRepoFiles env owner repo (githubToken this)
                 = Threw (newError
                            (GithubService.downloadErrorPrefix
                             ++ match net 3 request with
                                | Returned response =>
                                    str "Failed to fetch repository details ("
                                    ++ GithubService.decimal
                                         (GithubService.status response)
                                    ++ str " "
                                    ++ GithubService.statusText response
                                    ++ str ")."
                                | Threw _ => GithubService.networkErrorMessage
                                end))).
  { subst env. cbn [getRepoFiles withGithub].
    rewrite (GithubMoreFacts.getRepoFiles_persistent net nullPropertyMessage
               downloadTree owner repo (githubToken this)
               GithubService.initialWorld).
    - reflexivity.
    - intros n Hn. apply Hnet. cbn in Hn. lia. }
  pose proof (@fatal_fetch env (repoUrl this) (githubToken this)
                owner repo _ Hparse Hget) as HF.
  destruct (failed_run_returns env this _ _ _ Hurl HF)
    as (before & Hrun & Hsteps).
  subst final. unfold finalState. rewrite Hrun. cbn [snd].
  split; [reflexivity | split; [reflexivity |]].
  unfold statuses. cbn [statusSteps set_statusSteps]. now rewrite Hsteps.
Qed.

End AppMoreFacts.

(** ** Concrete runs of the further properties *)

Module MoreRuns.
Import GithubService GithubBlobs App AppMethods.

Lemma leading_noise_is_ignored_witness :
  let noise := str "```json" ++ LF in
  let chunks := [quoted "{'path':'a.ts','content':'x'}"; LF ++ str "```"] in
  indexOf LBRACE noise = None
  /\ emittedFiles JSON.parse (noise :: chunks)
     = emittedFiles JSON.parse chunks.
Proof.
  cbv zeta. split; [reflexivity |].
  exact (CuttingFacts.leading_noise_is_ignored JSON.parse
           (str "```json" ++ LF)
           [quoted "{'path':'a.ts','content':'x'}"; LF ++ str "```"]
           eq_refl).
Defined.

Lemma sampleBlob_settles (file : TreeEntry) :
  exists r, sampleBlob file = Returned r.
Proof.
  unfold sampleBlob. destruct (JsString.eqb (sha file) (str "7"));
    eexists; reflexivity.
Defined.

Lemma batches_are_invisible_witness :
  downloadBatches sampleBlob (hd (newError [])) sampleTree 0 [] []
  = (Returned (keptFiles sampleBlob sampleTree), sampleTree)
  /\ length sampleTree = 45
  /\ length (keptFiles sampleBlob sampleTree) = 44.
Proof.
  split; [| split; reflexivity].
  exact (GithubMoreFacts.batches_are_invisible sampleBlob
           (hd (newError [])) sampleTree
           (fun file _ => sampleBlob_settles file)).
Defined.

Lemma brokenBlob_first_batch (file : TreeEntry) :
  In file (firstn (1 * batchSize) sampleTree) ->
  exists r, brokenBlob file = Returned r.
Proof.
  intros H. vm_compute in H.
  repeat (destruct H as [<- | H]; [eexists; reflexivity |]).
  destruct H.
Defined.

Lemma rejected_blob_aborts_the_download_witness :
  rejections (map (fetchEntry brokenBlob) (slice 20 40 sampleTree))
  = [newError networkErrorMessage]
  /\ downloadBatches brokenBlob (hd (newError [])) sampleTree 0 [] []
     = (Threw (newError networkErrorMessage), firstn 40 sampleTree).
Proof.
  split; [reflexivity |].
  exact (GithubMoreFacts.rejected_blob_aborts_the_download brokenBlob
           (hd (newError [])) sampleTree 1 (newError networkErrorMessage) []
           brokenBlob_first_batch eq_refl).
Defined.

Lemma persistent_failure_uses_all_retries_witness :
  let request := detailsRequest (str "angular") (str "angular") [] in
  snd (performFetch unavailableNetwork request 3 300 initialWorld)
  = {| attempts := 4; waits := [300; 600; 1200]%Z |}
  /\ fst (performFetch unavailableNetwork request 3 300 initialWorld)
     = Returned {| GithubService.status := 503;
                   GithubService.statusText := str "Service Unavailable";
                   GithubService.json := Returned JNull |}.
Proof.
  exact (GithubMoreFacts.persistent_failure_uses_all_retries
           unavailableNetwork
           (detailsRequest (str "angular") (str "angular") [])
           3 300%Z initialWorld (fun n _ => eq_refl)).
Defined.

Lemma persistent_failure_fails_the_download_witness :
  GithubService.getRepoFiles unavailableNetwork [] noDownload
    (str "angular") (str "angular") [] initialWorld
  = (Threw (newError
              (downloadErrorPrefix
               ++ str "Failed to fetch repository details (503 Service Unavailable).")),
     {| attempts := 4; waits := [300; 600; 1200]%Z |}).
Proof.
  exact (GithubMoreFacts.persistent_failure_fails_the_download
           unavailableNetwork [] noDownload (str "angular") (str "angular")
           [] initialWorld (fun n _ => eq_refl)).
Defined.

Lemma application_state_moves_forward_witness :
  let env := answering truncatedStream in
  let reset := afterReset initialComponent in
  let body :=
    traceOf (started env (repoUrl initialComponent)
               (githubToken initialComponent) reset) in
  isEmpty (repoUrl initialComponent) = false
  /\ chain (fun s s' => stateMove (appState s) (appState s') = true)
           reset body
  /\ Forall (fun s => consistent s = true) body
  /\ appState (last body reset) = Reimplemented.
Proof.
  cbv zeta. split; [reflexivity |].
  destruct (AppMoreFacts.application_state_moves_forward
              (answering truncatedStream) initialComponent eq_refl)
    as (_ & _ & _ & H1 & H2).
  split; [exact H1 | split; [exact H2 | vm_compute; reflexivity]].
Defined.

Lemma unreachable_github_is_reported_witness :
  let env := withGithub unreachableNetwork [] noDownload offline in
  let final := finalState (onAnalyzeRepo env initialComponent) in
  appState final = ErrorState
  /\ errorMessage final = Some (downloadErrorPrefix ++ networkErrorMessage)
  /\ statuses final = [Failed; Pending; Pending; Pending; Pending].
Proof.
  exact (AppMoreFacts.unreachable_github_is_reported unreachableNetwork []
           noDownload offline initialComponent (str "angular")
           (str "angular") eq_refl eq_refl (fun n _ => eq_refl)).
Defined.

End MoreRuns.
